(** * bravado_core.spec_flattening: a shallow embedding and its properties

    The development follows [src/bravado_core/spec_flattening.py]:
    the URI marshaler [_marshal_uri], the collision reporter
    [_warn_if_uri_clash_on_same_marshaled_representation], the classifier
    [_determine_object_type] and the flattening engine [flattened_spec]
    with its inner recursive function [descend].

    Python's own library functions used by the module ([str.replace],
    [urllib.parse], [posixpath], [copy.deepcopy]) and jsonschema's
    [RefResolver] are modelled in the modules [PyStr], [Urllib],
    [PosixPath], [Heap] and [JsonSchema]. *)

From Stdlib Require Import Ascii String List ZArith Lia Bool Arith Permutation Sorted.
From stdpp Require Import base decidable option list strings gmap.

Import ListNotations.
Local Open Scope bool_scope.
Set Warnings "-register-all,-clear-no-such-hyp".

(* ===================================================================== *)
(** * Python strings *)
(* ===================================================================== *)

Module PyStr.

(** [s[:n]] and [s[n:]] *)
Fixpoint take (n : nat) (s : string) : string :=
  match n, s with
  | S n', String c s' => String c (take n' s')
  | _, _ => ""
  end.

Fixpoint drop (n : nat) (s : string) : string :=
  match n, s with
  | S n', String _ s' => drop n' s'
  | _, _ => s
  end.

(** [c in s] for a one-character [c] *)
Fixpoint mem (c : ascii) (s : string) : bool :=
  match s with
  | "" => false
  | String a s' => Ascii.eqb a c || mem c s'
  end.

(** [s.find(c)] for a one-character [c]; [None] stands for [-1] *)
Fixpoint find (c : ascii) (s : string) : option nat :=
  match s with
  | "" => None
  | String a s' =>
      if Ascii.eqb a c then Some 0
      else match find c s' with Some i => Some (S i) | None => None end
  end.

(** [s.rfind(c)] *)
Fixpoint rfind (c : ascii) (s : string) : option nat :=
  match s with
  | "" => None
  | String a s' =>
      match rfind c s' with
      | Some i => Some (S i)
      | None => if Ascii.eqb a c then Some 0 else None
      end
  end.

(** [s.split(c, 1)] when [c in s]: the text before and after the first
    occurrence *)
Definition split1 (c : ascii) (s : string) : string * string :=
  match find c s with
  | Some i => (take i s, drop (S i) s)
  | None => (s, "")
  end.

(** [s.split(c)] for a one-character separator *)
Fixpoint split_go (c : ascii) (cur : string) (s : string) : list string :=
  match s with
  | "" => [String.rev cur]
  | String a s' =>
      if Ascii.eqb a c then String.rev cur :: split_go c "" s'
      else split_go c (String a cur) s'
  end.
Definition split (c : ascii) (s : string) : list string := split_go c "" s.

(** [sep.join(l)] *)
Definition join (sep : string) (l : list string) : string := String.concat sep l.

(** [s.startswith(p)] *)
Definition startswith (p s : string) : bool := String.prefix p s.

(** [p in s] for strings: substring test *)
Fixpoint contains (p s : string) : bool :=
  String.prefix p s ||
  match s with
  | "" => false
  | String _ s' => contains p s'
  end.

(** [s.replace(old, new)]: every non-overlapping occurrence of [old],
    scanning from the left.  [skip] counts the characters of an
    occurrence of [old] still to be passed over. *)
Fixpoint replace_go (old new : string) (skip : nat) (s : string) : string :=
  match s with
  | "" => ""
  | String a s' =>
      match skip with
      | S k => replace_go old new k s'
      | O =>
          if String.prefix old s
          then new +:+ replace_go old new (String.length old - 1) s'
          else String a (replace_go old new 0 s')
      end
  end.

(** With an empty [old] Python inserts [new] before every character and
    at the end. *)
Fixpoint intersperse (new : string) (s : string) : string :=
  match s with
  | "" => new
  | String a s' => new +:+ String a (intersperse new s')
  end.

Definition replace (old new s : string) : string :=
  match old with
  | "" => intersperse new s
  | _ => replace_go old new 0 s
  end.

Definition lower_ascii (c : ascii) : ascii :=
  let n := nat_of_ascii c in
  if (65 <=? n)%nat && (n <=? 90)%nat then ascii_of_nat (n + 32) else c.

Fixpoint lower (s : string) : string :=
  match s with
  | "" => ""
  | String a s' => String (lower_ascii a) (lower s')
  end.

Definition is_empty (s : string) : bool :=
  match s with "" => true | _ => false end.

(** [s.rstrip(c)] *)
Fixpoint rstrip (c : ascii) (s : string) : string :=
  match s with
  | "" => ""
  | String a s' =>
      match rstrip c s' with
      | "" => if Ascii.eqb a c then "" else String a ""
      | r => String a r
      end
  end.

Fixpoint all_chars (p : ascii -> bool) (s : string) : bool :=
  match s with
  | "" => true
  | String a s' => p a && all_chars p s'
  end.

(** [sorted(l)] on strings: insertion sort by code point order *)
Fixpoint insert_sorted (x : string) (l : list string) : list string :=
  match l with
  | [] => [x]
  | y :: l' => if String.leb x y then x :: l else y :: insert_sorted x l'
  end.

Definition sorted (l : list string) : list string :=
  fold_right insert_sorted [] l.

End PyStr.

(* ===================================================================== *)
(** * Python exceptions *)
(* ===================================================================== *)

Inductive exn : Type :=
  | ValueError (msg : string)
  | TypeError (msg : string)
  | AttributeError (msg : string)
  | KeyError (msg : string)
  | RefResolutionError (msg : string).

Inductive result (A : Type) : Type :=
  | Ok (a : A)
  | Raise (e : exn).
Arguments Ok {A} a.
Arguments Raise {A} e.

Definition is_ok {A} (r : result A) : bool :=
  match r with Ok _ => true | Raise _ => false end.

(* ===================================================================== *)
(** * urllib.parse *)
(* ===================================================================== *)

(** The functions of CPython's [urllib.parse] the flattening module calls
    ([urlparse], [urlunparse], [urljoin]) and [urldefrag], used by the
    resolver.  Text is taken as [str]; the cache, the stripping of control
    characters and the validation of bracketed hosts are left out. *)
Module Urllib.

Record ParseResult : Type := mkParseResult {
  scheme : string;
  netloc : string;
  path : string;
  params : string;
  query : string;
  fragment : string
}.

Definition uses_relative : list string :=
  [""; "ftp"; "http"; "gopher"; "nntp"; "imap"; "wais"; "file"; "https";
   "shttp"; "mms"; "prospero"; "rtsp"; "rtspu"; "sftp"; "svn"; "svn+ssh";
   "ws"; "wss"].

Definition uses_netloc : list string :=
  [""; "ftp"; "http"; "gopher"; "nntp"; "telnet"; "imap"; "wais"; "file";
   "mms"; "https"; "shttp"; "snews"; "prospero"; "rtsp"; "rtspu"; "rsync";
   "svn"; "svn+ssh"; "sftp"; "nfs"; "git"; "git+ssh"; "ws"; "wss"].

Definition uses_params : list string :=
  [""; "ftp"; "hdl"; "prospero"; "http"; "imap"; "https"; "shttp"; "rtsp";
   "rtspu"; "sip"; "sips"; "mms"; "sftp"; "tel"].

Definition str_in (s : string) (l : list string) : bool :=
  existsb (String.eqb s) l.

Definition is_scheme_char (c : ascii) : bool :=
  let n := nat_of_ascii c in
  ((97 <=? n)%nat && (n <=? 122)%nat) || ((65 <=? n)%nat && (n <=? 90)%nat)
  || ((48 <=? n)%nat && (n <=? 57)%nat)
  || Ascii.eqb c "+" || Ascii.eqb c "-" || Ascii.eqb c ".".

(** [urlunsplit((scheme, netloc, url, query, fragment))] *)
Definition urlunsplit (scheme netloc url query fragment : string) : string :=
  let url :=
    if negb (PyStr.is_empty netloc)
       || (negb (PyStr.is_empty scheme) && str_in scheme uses_netloc
           && negb (String.eqb (PyStr.take 2 url) "//"))
    then
      let url :=
        if negb (PyStr.is_empty url) && negb (String.eqb (PyStr.take 1 url) "/")
        then "/" +:+ url else url in
      "//" +:+ netloc +:+ url
    else url in
  let url := if PyStr.is_empty scheme then url else scheme +:+ ":" +:+ url in
  let url := if PyStr.is_empty query then url else url +:+ "?" +:+ query in
  let url := if PyStr.is_empty fragment then url else url +:+ "#" +:+ fragment in
  url.

(** [urlunparse(components)] *)
Definition urlunparse (u : ParseResult) : string :=
  let url :=
    if PyStr.is_empty (params u) then path u
    else path u +:+ ";" +:+ params u in
  urlunsplit (scheme u) (netloc u) url (query u) (fragment u).

Definition min_opt (delim : nat) (w : option nat) : nat :=
  match w with Some i => Nat.min delim i | None => delim end.

(** [_splitnetloc(url, 2)] for a [url] that starts with two slashes *)
Definition splitnetloc (url : string) : string * string :=
  let rest := PyStr.drop 2 url in
  let delim := String.length rest in
  let delim := min_opt delim (PyStr.find "/" rest) in
  let delim := min_opt delim (PyStr.find "?" rest) in
  let delim := min_opt delim (PyStr.find "#" rest) in
  (PyStr.take delim rest, PyStr.drop delim rest).

(** [urlsplit(url, scheme)]: the five components *)
Definition urlsplit (default_scheme url : string)
  : string * string * string * string * string :=
  let '(scheme, url) :=
    match PyStr.find ":" url with
    | Some (S i) =>
        if PyStr.all_chars is_scheme_char (PyStr.take (S i) url)
        then (PyStr.lower (PyStr.take (S i) url), PyStr.drop (S (S i)) url)
        else (default_scheme, url)
    | _ => (default_scheme, url)
    end in
  let '(netloc, url) :=
    if String.eqb (PyStr.take 2 url) "//" then splitnetloc url else ("", url) in
  let '(url, fragment) :=
    if PyStr.mem "#" url then PyStr.split1 "#" url else (url, "") in
  let '(url, query) :=
    if PyStr.mem "?" url then PyStr.split1 "?" url else (url, "") in
  (scheme, netloc, url, query, fragment).

(** [_splitparams(url)] *)
Definition splitparams (url : string) : string * string :=
  let start :=
    match PyStr.rfind "/" url with Some i => i | None => 0 end in
  match PyStr.find ";" (PyStr.drop start url) with
  | Some j => (PyStr.take (start + j) url, PyStr.drop (S (start + j)) url)
  | None => (url, "")
  end.

Definition urlparse_with (default_scheme url : string) : ParseResult :=
  let '(scheme, netloc, url, query, fragment) := urlsplit default_scheme url in
  let '(url, params) :=
    if str_in scheme uses_params && PyStr.mem ";" url
    then splitparams url else (url, "") in
  mkParseResult scheme netloc url params query fragment.

(** [urlparse(url)] *)
Definition urlparse (url : string) : ParseResult := urlparse_with "" url.

(** [urldefrag(url)] *)
Definition urldefrag (url : string) : string * string :=
  if PyStr.mem "#" url then
    let u := urlparse url in
    (urlunparse (mkParseResult (scheme u) (netloc u) (path u) (params u) (query u) ""),
     fragment u)
  else (url, "").

(** [segments[1:-1] = filter(None, segments[1:-1])] *)
Definition filter_middle (segments : list string) : list string :=
  match segments with
  | [] => []
  | first :: rest =>
      match List.rev rest with
      | [] => [first]
      | last :: rmid =>
          first :: List.filter (fun s => negb (PyStr.is_empty s)) (List.rev rmid)
                ++ [last]
      end
  end.

(** the loop over [segments]; [resolved] is kept in reverse *)
Fixpoint resolve_segments (segments : list string) (resolved : list string)
  : list string :=
  match segments with
  | [] => List.rev resolved
  | seg :: segments' =>
      if String.eqb seg ".." then resolve_segments segments' (List.tl resolved)
      else if String.eqb seg "." then resolve_segments segments' resolved
      else resolve_segments segments' (seg :: resolved)
  end.

(** [urljoin(base, url)] *)
Definition urljoin (base url : string) : string :=
  if PyStr.is_empty base then url
  else if PyStr.is_empty url then base
  else
    let b := urlparse base in
    let u := urlparse_with (scheme b) url in
    if negb (String.eqb (scheme u) (scheme b)) || negb (str_in (scheme u) uses_relative)
    then url
    else if str_in (scheme u) uses_netloc && negb (PyStr.is_empty (netloc u))
    then urlunparse u
    else
      let netloc' := if str_in (scheme u) uses_netloc then netloc b else netloc u in
      if PyStr.is_empty (path u) && PyStr.is_empty (params u) then
        let query' := if PyStr.is_empty (query u) then query b else query u in
        urlunparse (mkParseResult (scheme u) netloc' (path b) (params b) query' (fragment u))
      else
        let base_parts := PyStr.split "/" (path b) in
        let base_parts :=
          if PyStr.is_empty (List.last base_parts "") then base_parts
          else List.removelast base_parts in
        let segments :=
          if String.eqb (PyStr.take 1 (path u)) "/" then PyStr.split "/" (path u)
          else filter_middle (base_parts ++ PyStr.split "/" (path u)) in
        let resolved := resolve_segments segments [] in
        let resolved :=
          if str_in (List.last segments "") ["."; ".."] then resolved ++ [""]
          else resolved in
        let joined := PyStr.join "/" resolved in
        urlunparse (mkParseResult (scheme u) netloc'
                      (if PyStr.is_empty joined then "/" else joined)
                      (params u) (query u) (fragment u)).

End Urllib.

Export Urllib.

(* ===================================================================== *)
(** * posixpath *)
(* ===================================================================== *)

(** [os.path] on a POSIX system.  The working directory that [abspath]
    reads from the process is an argument, [cwd]. *)
Module PosixPath.

(** [os.path.dirname(p)] *)
Definition dirname (p : string) : string :=
  let i := match PyStr.rfind "/" p with Some i => S i | None => 0 end in
  let head := PyStr.take i p in
  if negb (PyStr.is_empty head) && negb (PyStr.all_chars (Ascii.eqb "/") head)
  then PyStr.rstrip "/" head else head.

Definition isabs (p : string) : bool := PyStr.startswith "/" p.

(** [os.path.join(a, b)] *)
Definition join (a b : string) : string :=
  if PyStr.startswith "/" b then b
  else if PyStr.is_empty a || String.eqb (PyStr.drop (String.length a - 1) a) "/"
  then a +:+ b
  else a +:+ "/" +:+ b.

(** the loop of [normpath] over the components; [new_comps] in reverse *)
Fixpoint norm_comps (initial_slashes : bool) (comps : list string)
    (new_comps : list string) : list string :=
  match comps with
  | [] => List.rev new_comps
  | comp :: comps' =>
      if PyStr.is_empty comp || String.eqb comp "." then
        norm_comps initial_slashes comps' new_comps
      else if negb (String.eqb comp "..")
              || (negb initial_slashes && match new_comps with [] => true | _ => false end)
              || match new_comps with
                 | top :: _ => String.eqb top ".."
                 | [] => false
                 end
      then norm_comps initial_slashes comps' (comp :: new_comps)
      else norm_comps initial_slashes comps' (List.tl new_comps)
  end.

(** [os.path.normpath(path)] *)
Definition normpath (path : string) : string :=
  if PyStr.is_empty path then "."
  else
    let initial_slashes := PyStr.startswith "/" path in
    let slashes :=
      if initial_slashes && PyStr.startswith "//" path
         && negb (PyStr.startswith "///" path)
      then "//" else if initial_slashes then "/" else "" in
    let comps := norm_comps initial_slashes (PyStr.split "/" path) [] in
    let path := slashes +:+ PyStr.join "/" comps in
    if PyStr.is_empty path then "." else path.

(** [os.path.abspath(path)] *)
Definition abspath (cwd path : string) : string :=
  normpath (if isabs path then path else join cwd path).

Fixpoint commonprefix_len (l1 l2 : list string) : nat :=
  match l1, l2 with
  | x :: l1', y :: l2' => if String.eqb x y then S (commonprefix_len l1' l2') else 0
  | _, _ => 0
  end.

Definition nonempty_parts (p : string) : list string :=
  List.filter (fun s => negb (PyStr.is_empty s)) (PyStr.split "/" p).

(** [os.path.relpath(path, start)] *)
Definition relpath (cwd path start : string) : result string :=
  if PyStr.is_empty path then Raise (ValueError "no path specified")
  else
    let start_list := nonempty_parts (abspath cwd start) in
    let path_list := nonempty_parts (abspath cwd path) in
    let i := commonprefix_len start_list path_list in
    let rel_list :=
      List.repeat ".." (List.length start_list - i) ++ List.skipn i path_list in
    match rel_list with
    | [] => Ok "."
    | _ => Ok (PyStr.join "/" rel_list)
    end.

End PosixPath.


(* ===================================================================== *)
(** * Documents *)
(* ===================================================================== *)

(** A JSON-like document: what [json.load] or [yaml.safe_load] give for a
    Swagger specification.  A mapping keeps its keys in insertion order. *)
Inductive Scalar : Type :=
  | SStr (s : string)
  | SInt (z : Z)
  | SFloat (repr : string)
  | SBool (b : bool)
  | SNull.

Inductive Node : Type :=
  | Mapping (items : list (string * Node))
  | Sequence (items : list Node)
  | Leaf (s : Scalar).

(** ** Python dicts as association lists in insertion order *)
Section Dict.
Context {K V : Type} `{EqDecision K}.

(** [d.get(k)] *)
Fixpoint dict_get (k : K) (d : list (K * V)) : option V :=
  match d with
  | [] => None
  | (k', v) :: d' => if decide (k = k') then Some v else dict_get k d'
  end.

(** [k in d] *)
Definition dict_mem (k : K) (d : list (K * V)) : bool :=
  match dict_get k d with Some _ => true | None => false end.

(** [d[k] = v]: an existing key keeps its place, a new key goes last *)
Fixpoint dict_set (k : K) (v : V) (d : list (K * V)) : list (K * V) :=
  match d with
  | [] => [(k, v)]
  | (k', v') :: d' =>
      if decide (k = k') then (k, v) :: d' else (k', v') :: dict_set k v d'
  end.

(** [d.keys()] *)
Definition dict_keys (d : list (K * V)) : list K := List.map fst d.

(** [d.update(d2)] *)
Definition dict_update (d d2 : list (K * V)) : list (K * V) :=
  fold_left (fun acc kv => dict_set (fst kv) (snd kv) acc) d2 d.

(** [{k: v for k, v in items}]: a dict built from pairs, a later pair
    with the same key overwriting the value of an earlier one *)
Definition dict_of_items (items : list (K * V)) : list (K * V) :=
  dict_update [] items.
End Dict.

Global Instance ParseResult_eq_dec : EqDecision ParseResult.
Proof. solve_decision. Defined.

(** Modelled from the spec: [is_dict_like], [is_list_like] and [is_ref] of
    [bravado_core.schema], which is not among the sources.  The data model
    has mappings, sequences, scalars and references, a reference being a
    mapping that carries a [$ref] key with a string target. *)
Definition is_dict_like (value : Node) : bool :=
  match value with Mapping _ => true | _ => false end.

Definition is_list_like (value : Node) : bool :=
  match value with Sequence _ => true | _ => false end.

Definition ref_target (value : Node) : option string :=
  match value with
  | Mapping items =>
      match dict_get "$ref" items with
      | Some (Leaf (SStr target)) => Some target
      | _ => None
      end
  | _ => None
  end.

Definition is_ref (value : Node) : bool :=
  match ref_target value with Some _ => true | None => false end.

(* ===================================================================== *)
(** * The URI marshaler *)
(* ===================================================================== *)

(** Exceptions propagate: [x ← e; k] runs [k] when [e] returns. *)
Global Instance result_bind : MBind result := fun A B k r =>
  match r with
  | Ok a => k a
  | Raise e => Raise e
  end.

Global Instance result_ret : MRet result := fun A a => Ok a.

Definition MARSHAL_REPLACEMENT_PATTERNS : list (string * string) :=
  [("/", ".."); ("#", "|")].

(** [_marshal_uri(target_uri, origin_uri)].  [cwd] is the working directory
    of the process, which [os.path.relpath] reads. *)
Definition _marshal_uri (cwd : string) (target_uri : ParseResult)
    (origin_uri : option ParseResult) : result string :=
  let marshalled_target := urlunparse target_uri in
  let '(target_uri, marshalled_target) :=
    if negb (PyStr.is_empty marshalled_target) && String.eqb (scheme target_uri) ""
    then
      let target_uri :=
        mkParseResult "file" (netloc target_uri) (path target_uri)
          (params target_uri) (query target_uri) (fragment target_uri) in
      (target_uri, urlunparse target_uri)
    else (target_uri, marshalled_target) in
  if PyStr.is_empty marshalled_target
     || negb (str_in (scheme target_uri) ["file"; "http"; "https"])
  then Raise (ValueError ("Invalid target: '" +:+ urlunparse target_uri +:+ "'"))
  else
    marshalled_target ←
      match origin_uri with
      | Some origin_uri =>
          if String.eqb (scheme target_uri) "file" then
            let spec_dir := PosixPath.dirname (path origin_uri) in
            path' ← PosixPath.relpath cwd (path target_uri) spec_dir;
            Ok (urlunparse
                  (mkParseResult "lfile" (netloc target_uri) path'
                     (params target_uri) (query target_uri) (fragment target_uri)))
          else Ok marshalled_target
      | None => Ok marshalled_target
      end;
    Ok (fold_left (fun acc p => PyStr.replace (fst p) (snd p) acc)
          MARSHAL_REPLACEMENT_PATTERNS marshalled_target).

(* ===================================================================== *)
(** * The collision reporter *)
(* ===================================================================== *)

(** [marshaled_uri_mapping[key].add(uri)] on a [defaultdict(set)] *)
Definition set_add (uri : ParseResult) (s : list ParseResult) : list ParseResult :=
  if decide (uri ∈ s) then s else s ++ [uri].

Definition defaultdict_add (key : string) (uri : ParseResult)
    (d : list (string * list ParseResult)) : list (string * list ParseResult) :=
  match dict_get key d with
  | Some s => dict_set key (set_add uri s) d
  | None => dict_set key (set_add uri []) d
  end.

(** the first loop: group the uris by their marshaled representation *)
Fixpoint group_by_marshaled (marshal_uri : ParseResult -> result string)
    (uris : list ParseResult) (d : list (string * list ParseResult))
  : result (list (string * list ParseResult)) :=
  match uris with
  | [] => Ok d
  | uri :: uris' =>
      key ← marshal_uri uri;
      group_by_marshaled marshal_uri uris' (defaultdict_add key uri d)
  end.

Definition clash_message (uris : list ParseResult) (marshaled : string) : string :=
  PyStr.join ", " (PyStr.sorted (List.map urlunparse uris))
    +:+ " clashed to " +:+ marshaled.

(** [_warn_if_uri_clash_on_same_marshaled_representation]: the result is
    the list of the warnings filed, in the order of the calls of
    [warnings.warn]. *)
Definition _warn_if_uri_clash_on_same_marshaled_representation {V : Type}
    (uri_schema_mappings : list (ParseResult * V))
    (marshal_uri : ParseResult -> result string) : result (list string) :=
  marshaled_uri_mapping ←
    group_by_marshaled marshal_uri (dict_keys uri_schema_mappings) [];
  if negb (List.length marshaled_uri_mapping =? List.length uri_schema_mappings)%nat
  then
    Ok (List.map (fun kv => clash_message (snd kv) (fst kv))
          (List.filter (fun kv => (1 <? List.length (snd kv))%nat)
             marshaled_uri_mapping))
  else Ok [].

(* ===================================================================== *)
(** * The classifier *)
(* ===================================================================== *)

Inductive object_type : Type :=
  | _TYPE_SCHEMA
  | _TYPE_PATH_ITEM
  | _TYPE_PARAMETER
  | _TYPE_RESPONSE.

Global Instance object_type_eq_dec : EqDecision object_type.
Proof. solve_decision. Defined.

(** [_TYPE_PROPERTY_HOLDER_MAPPING], in the order of the dict literal *)
Definition _TYPE_PROPERTY_HOLDER_MAPPING : list (object_type * string) :=
  [(_TYPE_PARAMETER, "parameters");
   (_TYPE_RESPONSE, "responses");
   (_TYPE_SCHEMA, "definitions")].

Definition http_operations : gset string :=
  {[ "get"; "put"; "post"; "delete"; "options"; "head"; "patch" ]}.

Definition response_allowed_keys : gset string :=
  {[ "description"; "schema"; "headers"; "examples" ]}.

(** [{key for key in iterkeys(object_dict) if not key.startswith('x-')}] *)
Definition non_extension_keys {V} (object_dict : list (string * V)) : gset string :=
  list_to_set (List.filter (fun key => negb (PyStr.startswith "x-" key))
                 (dict_keys object_dict)).

(** the body of [_determine_object_type] on a dict; [None] is Python's
    [None], returned when the function falls off its end *)
Definition determine_dict_type {V} (object_dict : list (string * V))
  : option object_type :=
  if dict_mem "in" object_dict && dict_mem "name" object_dict then
    Some _TYPE_PARAMETER
  else
    let object_keys := non_extension_keys object_dict in
    if negb (bool_decide (object_keys ∩ http_operations = ∅)) then
      let remaining_keys := object_keys ∖ http_operations in
      if bool_decide (remaining_keys = ∅)
         || bool_decide (remaining_keys = {[ "parameters" ]})
      then Some _TYPE_PATH_ITEM
      else None
    else
      if bool_decide ("description" ∈ object_keys)
         && bool_decide (object_keys ∖ response_allowed_keys = ∅)
      then Some _TYPE_RESPONSE
      else Some _TYPE_SCHEMA.

Definition is_str_leaf (s : string) (v : Node) : bool :=
  match v with Leaf (SStr s') => String.eqb s s' | _ => false end.

(** [_determine_object_type(object_dict)].  The argument is whatever the
    reference resolved to: on a list or a string the two [in] tests are
    membership and substring tests and [iterkeys] then fails; on any other
    scalar the first [in] fails. *)
Definition _determine_object_type (object_dict : Node) : result (option object_type) :=
  match object_dict with
  | Mapping items => Ok (determine_dict_type items)
  | Sequence items =>
      if existsb (is_str_leaf "in") items && existsb (is_str_leaf "name") items
      then Ok (Some _TYPE_PARAMETER)
      else Raise (AttributeError "'list' object has no attribute 'keys'")
  | Leaf (SStr s) =>
      if PyStr.contains "in" s && PyStr.contains "name" s
      then Ok (Some _TYPE_PARAMETER)
      else Raise (AttributeError "'str' object has no attribute 'keys'")
  | Leaf _ => Raise (TypeError "argument is not iterable")
  end.

(* ===================================================================== *)
(** * jsonschema.RefResolver *)
(* ===================================================================== *)

(** The resolver [flattened_spec] builds when it is given none:
    [RefResolver(base_uri, referrer, handlers)].  Its store holds the
    referrer under [base_uri]; any other document comes from [remote],
    which stands for the handlers and the network.  [resolve] takes the
    resolution scope (the top of the scope stack) as an argument.
    Percent-decoding of the fragment is left out. *)
Module JsonSchema.

Fixpoint lstrip (c : ascii) (s : string) : string :=
  match s with
  | String a s' => if Ascii.eqb a c then lstrip c s' else s
  | "" => ""
  end.

Definition digit_of (c : ascii) : option nat :=
  let n := nat_of_ascii c in
  if (48 <=? n)%nat && (n <=? 57)%nat then Some (n - 48) else None.

(** [int(part)] on a string of decimal digits *)
Fixpoint int_of_go (acc : nat) (s : string) : option nat :=
  match s with
  | "" => Some acc
  | String a s' =>
      match digit_of a with
      | Some d => int_of_go (10 * acc + d) s'
      | None => None
      end
  end.

Definition int_of (s : string) : option nat :=
  match s with "" => None | _ => int_of_go 0 s end.

Definition unresolvable (fragment : string) : exn :=
  RefResolutionError ("Unresolvable JSON pointer: " +:+ fragment).

(** [document = document[part]] *)
Definition getitem (document : Node) (part : string) : option Node :=
  match document with
  | Mapping items => dict_get part items
  | Sequence items =>
      match int_of part with
      | Some i => List.nth_error items i
      | None => None
      end
  | Leaf _ => None
  end.

Fixpoint walk (fragment : string) (parts : list string) (document : Node)
  : result Node :=
  match parts with
  | [] => Ok document
  | part :: parts' =>
      let part := PyStr.replace "~0" "~" (PyStr.replace "~1" "/" part) in
      match getitem document part with
      | Some document' => walk fragment parts' document'
      | None => Raise (unresolvable fragment)
      end
  end.

(** [resolve_fragment(document, fragment)] *)
Definition resolve_fragment (document : Node) (fragment : string) : result Node :=
  let fragment := lstrip "/" fragment in
  let parts := if PyStr.is_empty fragment then [] else PyStr.split "/" fragment in
  walk fragment parts document.

Record RefResolver : Type := mkRefResolver {
  base_uri : string;
  referrer : Node;
  remote : string -> option Node
}.

(** [resolve_from_url(url)] *)
Definition resolve_from_url (r : RefResolver) (url : string) : result Node :=
  let '(url, fragment) := urldefrag url in
  document ←
    (if String.eqb url (base_uri r) then Ok (referrer r)
     else match remote r url with
          | Some document => Ok document
          | None => Raise (RefResolutionError url)
          end);
  resolve_fragment document fragment.

(** [resolve(ref)] under the resolution scope [scope] *)
Definition resolve (r : RefResolver) (scope ref : string)
  : result (string * Node) :=
  let url := urljoin scope ref in
  value ← resolve_from_url r url;
  Ok (url, value).

End JsonSchema.

(* ===================================================================== *)
(** * The flattening engine *)
(* ===================================================================== *)

(** The result of a run with bounded recursion depth. *)
Inductive outcome (A : Type) : Type :=
  | Done (a : A)
  | Raised (e : exn)
  | OutOfFuel.
Arguments Done {A} a.
Arguments Raised {A} e.
Arguments OutOfFuel {A}.

(** [known_mappings[mapping_key]]: the values stored for the locations of
    one holder.  The placeholder [None] is JSON's null. *)
Definition table : Type := list (ParseResult * Node).

(** One entry per call [descend(value=deref_value)] made for a reference:
    [Resolved] for the call that fills [known_mappings], [Inlined] for the
    call made for a path item.  The calls are recorded for the statements
    about the number of resolutions; nothing reads them. *)
Inductive event : Type :=
  | Resolved (mapping_key : string) (uri : ParseResult)
  | Inlined (uri : string).

Record state : Type := mkState {
  known_mappings : list (string * table);
  calls : list event
}.

(** A computation over a state [St] that returns, raises or is cut short. *)
Definition ST (St A : Type) : Type := St -> outcome A * St.

Definition M (A : Type) : Type := ST state A.

Definition ret {St A} (a : A) : ST St A := fun st => (Done a, st).

Definition raise {St A} (e : exn) : ST St A := fun st => (Raised e, st).

Definition lift {St A} (r : result A) : ST St A :=
  match r with
  | Ok a => ret a
  | Raise e => raise e
  end.

Definition bindM {St A B} (m : ST St A) (k : A -> ST St B) : ST St B := fun st =>
  match m st with
  | (Done a, st') => k a st'
  | (Raised e, st') => (Raised e, st')
  | (OutOfFuel, st') => (OutOfFuel, st')
  end.

Notation "'let*' x := m 'in' k" := (bindM m (fun x => k))
  (at level 10, x pattern, m at level 200, k at level 200, only parsing).

Definition record (ev : event) : M unit := fun st =>
  (Done tt, mkState (known_mappings st) (calls st ++ [ev])).

(** [known_mappings.get(mapping_key, {})] *)
Definition km_get (mapping_key : string) (km : list (string * table)) : table :=
  default [] (dict_get mapping_key km).

(** [uri in known_mappings.get(mapping_key, {})] *)
Definition is_known (mapping_key : string) (uri : ParseResult) : M bool := fun st =>
  (Done (dict_mem uri (km_get mapping_key (known_mappings st))), st).

(** [known_mappings[mapping_key][uri] = value] *)
Definition store (mapping_key : string) (uri : ParseResult) (value : Node) : M unit :=
  fun st =>
    match dict_get mapping_key (known_mappings st) with
    | Some t =>
        (Done tt,
         mkState (dict_set mapping_key (dict_set uri value t) (known_mappings st))
                 (calls st))
    | None => (Raised (KeyError mapping_key), st)
    end.

(** [{key: f(subval) for key, subval in iteritems(value)}]: the keys of a
    dict are distinct, so that the new dict has the same keys in the same
    order *)
Fixpoint mapM_items {St V W} (f : V -> ST St W) (items : list (string * V))
  : ST St (list (string * W)) :=
  match items with
  | [] => ret []
  | (key, subval) :: items' =>
      let* v := f subval in
      let* rest := mapM_items f items' in
      ret ((key, v) :: rest)
  end.

(** [[f(subval) for index, subval in enumerate(value)]] *)
Fixpoint mapM_list {St V W} (f : V -> ST St W) (items : list V) : ST St (list W) :=
  match items with
  | [] => ret []
  | subval :: items' =>
      let* v := f subval in
      let* rest := mapM_list f items' in
      ret (v :: rest)
  end.

(** [_TYPE_PROPERTY_HOLDER_MAPPING.get(object_type, 'definitions')] *)
Definition holder_of (object_type : option object_type) : string :=
  match object_type with
  | Some t => default "definitions" (dict_get t _TYPE_PROPERTY_HOLDER_MAPPING)
  | None => "definitions"
  end.

Definition pointer (mapping_key marshaled : string) : Node :=
  Mapping [("$ref", Leaf (SStr ("#/" +:+ mapping_key +:+ "/" +:+ marshaled)))].

Section Engine.

(** [resolve = spec_resolver.resolve], with the resolution scope that
    [in_scope] sets as its first argument *)
Variable resolve : string -> string -> result (string * Node).

(** [marshal_uri = functools.partial(marshal_uri_function, origin_uri=...)] *)
Variable marshal_uri : ParseResult -> result string.

(** [descend(value)]; [fuel] bounds the depth of the recursion and
    [scope] is the scope of the resolver at the call *)
Fixpoint descend (fuel : nat) (scope : string) (value : Node) {struct fuel}
  : M Node :=
  match fuel with
  | O => fun st => (OutOfFuel, st)
  | S fuel' =>
      match ref_target value with
      | Some ref =>
          let* r := lift (resolve scope ref) in
          let '(uri, deref_value) := r in
          let* object_type := lift (_determine_object_type deref_value) in
          if decide (object_type = Some _TYPE_PATH_ITEM) then
            let* _ := record (Inlined uri) in
            descend fuel' uri deref_value
          else
            let mapping_key := holder_of object_type in
            let scope' := uri in
            let uri := urlparse uri in
            let* known := is_known mapping_key uri in
            let* _ :=
              if known then ret tt
              else
                let* _ := store mapping_key uri (Leaf SNull) in
                let* _ := record (Resolved mapping_key uri) in
                let* resolved := descend fuel' scope' deref_value in
                store mapping_key uri resolved in
            let* marshaled := lift (marshal_uri uri) in
            ret (pointer mapping_key marshaled)
      | None =>
          match value with
          | Mapping items =>
              let* items' := mapM_items (descend fuel' scope) items in
              ret (Mapping items')
          | Sequence items =>
              let* items' := mapM_list (descend fuel' scope) items in
              ret (Sequence items')
          | Leaf _ => ret value
          end
      end
  end.

(** [{marshal_uri(uri): value for uri, value in iteritems(mappings)}] *)
Fixpoint marshal_items {V} (mappings : list (ParseResult * V))
  : result (list (string * V)) :=
  match mappings with
  | [] => Ok []
  | (uri, value) :: mappings' =>
      key ← marshal_uri uri;
      rest ← marshal_items mappings';
      Ok ((key, value) :: rest)
  end.

(** [resolved_spec.update({mapping_key: bucket})] *)
Definition attach (mapping_key : string) (bucket : list (string * Node))
    (resolved_spec : Node) : result Node :=
  match resolved_spec with
  | Mapping items => Ok (Mapping (dict_set mapping_key (Mapping bucket) items))
  | _ => Raise (AttributeError "object has no attribute 'update'")
  end.

(** the last loop of [flattened_spec], over the items of
    [known_mappings]; the warnings filed are collected *)
Fixpoint merge_buckets (km : list (string * table)) (resolved_spec : Node)
    (warned : list string) : result (Node * list string) :=
  match km with
  | [] => Ok (resolved_spec, warned)
  | (mapping_key, mappings) :: km' =>
      ws ← _warn_if_uri_clash_on_same_marshaled_representation mappings marshal_uri;
      resolved_spec ←
        (if (0 <? List.length mappings)%nat then
           items ← marshal_items mappings;
           attach mapping_key (dict_of_items items) resolved_spec
         else Ok resolved_spec);
      merge_buckets km' resolved_spec (warned ++ ws)
  end.

End Engine.

(** [known_mappings] at the start: an empty table per holder *)
Definition initial_known_mappings : list (string * table) :=
  dict_of_items (List.map (fun kv => (snd kv, [])) _TYPE_PROPERTY_HOLDER_MAPPING).

Definition initial_state : state := mkState initial_known_mappings [].

(** A resolver as [flattened_spec] uses it: its current resolution scope
    and its [resolve] method. *)
Record resolver : Type := mkResolver {
  resolution_scope : string;
  resolve_in : string -> string -> result (string * Node)
}.

Definition default_resolver (spec_url : string) (spec_dict : Node)
    (handlers : string -> option Node) : resolver :=
  mkResolver spec_url
    (JsonSchema.resolve (JsonSchema.mkRefResolver spec_url spec_dict handlers)).

Definition origin_warning : string :=
  "It is recommended to set origin_url to your spec before flattering it. "
  +:+ "Doing so internal paths will be hidden, reducing the amount of exposed information.".

Definition definitions_warning : string :=
  "Un-referenced models cannot be un-flattened if spec_definitions is not present".

(** [flattened_spec(spec_dict, spec_resolver, spec_url, http_handlers,
    marshal_uri_function)] with [spec_definitions=None]: the model
    discovery of [bravado_core.spec] is outside this module.  Documents
    are values here, and [copy.deepcopy] is the identity on them; the
    copy is made in [Heap.flattened_spec].  The result comes with the
    warnings filed and the final state of the descent. *)
Definition flattened_spec (fuel : nat) (spec_dict : Node)
    (spec_resolver : option resolver) (spec_url : option string)
    (http_handlers : string -> option Node)
    (marshal_uri_function : ParseResult -> option ParseResult -> result string)
  : outcome Node * list string * state :=
  let w1 := match spec_url with None => [origin_warning] | Some _ => [] end in
  match
    match spec_resolver with
    | Some r => Ok r
    | None =>
        match spec_url with
        | Some u =>
            if PyStr.is_empty u
            then Raise (ValueError "spec_resolver or spec_url should be defined")
            else Ok (default_resolver u spec_dict http_handlers)
        | None => Raise (ValueError "spec_resolver or spec_url should be defined")
        end
    end
  with
  | Raise e => (Raised e, w1, initial_state)
  | Ok spec_resolver =>
      let w2 := w1 ++ [definitions_warning] in
      let marshal_uri :=
        fun uri =>
          marshal_uri_function uri
            (match spec_url with
             | Some u => if PyStr.is_empty u then None else Some (urlparse u)
             | None => None
             end) in
      match descend (resolve_in spec_resolver) marshal_uri fuel
              (resolution_scope spec_resolver) spec_dict initial_state with
      | (Done resolved_spec, st) =>
          match merge_buckets marshal_uri (known_mappings st) resolved_spec w2 with
          | Ok (resolved_spec, ws) => (Done resolved_spec, ws, st)
          | Raise e => (Raised e, w2, st)
          end
      | (Raised e, st) => (Raised e, w2, st)
      | (OutOfFuel, st) => (OutOfFuel, w2, st)
      end
  end.

(* ===================================================================== *)
(** * The end-to-end example *)
(* ===================================================================== *)

Definition example_spec : Node :=
  Mapping [("definitions",
            Mapping [("Pet", Mapping [("type", Leaf (SStr "object"))]);
                     ("Ref", Mapping [("$ref", Leaf (SStr "#/definitions/Pet"))])])].

Definition no_handlers : string -> option Node := fun _ => None.

(** [node[key]] on a document *)
Definition node_get (key : string) (node : Node) : option Node :=
  match node with
  | Mapping items => dict_get key items
  | _ => None
  end.

(** a mapping with an HTTP verb among its keys and, the verbs apart, keys
    that are neither none nor [parameters] alone *)
Definition verb_with_other_keys (object_dict : list (string * Node)) : Prop :=
  non_extension_keys object_dict ∩ http_operations ≠ ∅
  /\ non_extension_keys object_dict ∖ http_operations ≠ ∅
  /\ non_extension_keys object_dict ∖ http_operations ≠ {[ "parameters" ]}.

Definition verb_and_foo : list (string * Node) :=
  [("get", Mapping []); ("foo", Sequence [])].

(** [urlparse('#/definitions/Pet')]: a reference seen from a resolver
    with an empty base uri *)
Definition fragment_only_target : ParseResult :=
  mkParseResult "" "" "" "" "" "/definitions/Pet".

Definition example_origin : option ParseResult :=
  Some (urlparse "file:///specs/a.json").

(** the scheme [_marshal_uri] works with: an empty scheme becomes [file] *)
Definition defaulted_scheme (target_uri : ParseResult) : string :=
  if String.eqb (scheme target_uri) "" then "file" else scheme target_uri.

Definition example_url : string := "file:///specs/a.json".

Definition pet_schema : Node := Mapping [("type", Leaf (SStr "object"))].

(** the descent of [flattened_spec] on the example, before the buckets are
    merged into the document *)
Definition example_descent (cwd : string) (fuel : nat) : outcome Node * state :=
  descend (resolve_in (default_resolver example_url example_spec no_handlers))
    (fun uri => _marshal_uri cwd uri (Some (urlparse example_url)))
    fuel example_url example_spec initial_state.

Definition example_run (cwd : string) (fuel : nat) : outcome Node * list string * state :=
  flattened_spec fuel example_spec None (Some example_url) no_handlers
    (_marshal_uri cwd).

Definition pet_location : ParseResult :=
  mkParseResult "file" "" "/specs/a.json" "" "" "/definitions/Pet".

Definition example_final_state : state :=
  mkState [("parameters", []); ("responses", []);
           ("definitions", [(pet_location, pet_schema)])]
          [Resolved "definitions" pet_location].

(* ===================================================================== *)
(** * Vocabulary of the statements about the descent *)
(* ===================================================================== *)

(** [m], run from [st], ends in an outcome and a state that satisfy [Q] *)
Definition ends_with {St A} (m : ST St A) (st : St) (Q : outcome A -> St -> Prop) : Prop :=
  Q (fst (m st)) (snd (m st)).

Definition is_done {A} (o : outcome A) : bool :=
  match o with Done _ => true | _ => false end.

(** [uri in known_mappings[mapping_key]] *)
Definition known_in (mapping_key : string) (uri : ParseResult) (st : state) : Prop :=
  dict_mem uri (km_get mapping_key (known_mappings st)) = true.

(** no location leaves a table *)
Definition keys_le (st st' : state) : Prop :=
  forall mapping_key uri, known_in mapping_key uri st -> known_in mapping_key uri st'.

(** how often the value of a location was computed for a holder *)
Global Instance event_eq_dec : EqDecision event.
Proof. solve_decision. Defined.

Definition times_resolved (mapping_key : string) (uri : ParseResult) (st : state) : nat :=
  count_occ event_eq_dec (calls st) (Resolved mapping_key uri).

Definition times_inlined (uri : string) (st : state) : nat :=
  count_occ event_eq_dec (calls st) (Inlined uri).

Section Locations.
Variable resolve : string -> string -> result (string * Node).

(** [uri] is a location some reference resolves to, with a value that is
    stored under [mapping_key] *)
Definition bucketed (mapping_key : string) (uri : ParseResult) : Prop :=
  exists scope ref url deref_value object_type,
    resolve scope ref = Ok (url, deref_value)
    /\ _determine_object_type deref_value = Ok object_type
    /\ object_type <> Some _TYPE_PATH_ITEM
    /\ mapping_key = holder_of object_type
    /\ uri = urlparse url.

(** [url] is a location some reference resolves to, with a value that is
    a path item *)
Definition inlined (url : string) : Prop :=
  exists scope ref deref_value,
    resolve scope ref = Ok (url, deref_value)
    /\ _determine_object_type deref_value = Ok (Some _TYPE_PATH_ITEM).

(** the resolver gives one category to a location: what jsonschema's
    resolver does, the value being read from the location *)
Definition consistent : Prop :=
  forall scope ref url v scope' ref' url' v',
    resolve scope ref = Ok (url, v) ->
    resolve scope' ref' = Ok (url', v') ->
    urlparse url = urlparse url' ->
    _determine_object_type v = _determine_object_type v'.
End Locations.

(** a run from [st] to [st'] keeps [Inv] and the known locations *)
Definition kept_by (Inv : state -> Prop) (st st' : state) : Prop :=
  Inv st -> Inv st' /\ keys_le st st'.

Definition always (st st' : state) : Prop := True.

(** every known location had its value computed once, every other
    location never *)
Definition resolved_once (st : state) : Prop :=
  forall mapping_key uri,
    (known_in mapping_key uri st -> times_resolved mapping_key uri st = 1)
    /\ (~ known_in mapping_key uri st -> times_resolved mapping_key uri st = 0).

(** a table holds one entry for a location *)
Definition tables_nodup (st : state) : Prop :=
  forall mapping_key, NoDup (dict_keys (km_get mapping_key (known_mappings st))).

(** the holders of [known_mappings] stay the three of the start *)
Definition holders_fixed (st : state) : Prop :=
  dict_keys (known_mappings st) = ["parameters"; "responses"; "definitions"].

(** a schema referred to twice *)
Definition pet_twice : Node :=
  Mapping [("a", Mapping [("$ref", Leaf (SStr "#/definitions/Pet"))]);
           ("b", Mapping [("$ref", Leaf (SStr "#/definitions/Pet"))]);
           ("definitions", Mapping [("Pet", pet_schema)])].

(** a path item referred to twice *)
Definition path_item_twice : Node :=
  Mapping
    [("paths",
      Mapping [("/a", Mapping [("$ref", Leaf (SStr "#/x-items/item"))]);
               ("/b", Mapping [("$ref", Leaf (SStr "#/x-items/item"))])]);
     ("x-items", Mapping [("item", Mapping [("get", Mapping [])])])].

Definition path_item_twice_run : outcome Node * list string * state :=
  flattened_spec 10 path_item_twice None (Some example_url) no_handlers
    (_marshal_uri "/srv").

(** the tables hold only locations whose value is no path item *)
Definition only_bucketed (resolve : string -> string -> result (string * Node))
    (st : state) : Prop :=
  forall mapping_key uri, known_in mapping_key uri st -> bucketed resolve mapping_key uri.

(** a path item behind a reference, in a document of its own *)
Definition path_item_doc : Node :=
  Mapping [("paths", Mapping [("/pets", Mapping [("$ref", Leaf (SStr "#/x-paths/pets"))])]);
           ("x-paths", Mapping [("pets", Mapping [("get", Mapping []);
                                                  ("parameters", Sequence [])])])].

(** a stub resolver that knows the one reference of [path_item_doc] *)
Definition pets_item : Node :=
  Mapping [("get", Mapping []); ("parameters", Sequence [])].

Definition pets_resolve (scope ref : string) : result (string * Node) :=
  if String.eqb ref "#/x-paths/pets"
  then Ok ("file:///specs/a.json#/x-paths/pets", pets_item)
  else Raise (RefResolutionError ref).

Definition pets_ref : Node := Mapping [("$ref", Leaf (SStr "#/x-paths/pets"))].

Definition plain_marshal (uri : ParseResult) : result string :=
  _marshal_uri "/srv" uri None.

(** the depth of a document: the recursion depth [descend] needs when
    the document holds no reference *)
Fixpoint node_depth (v : Node) : nat :=
  match v with
  | Mapping items =>
      S (fold_right (fun kv acc => Nat.max (node_depth (snd kv)) acc) 0 items)
  | Sequence items =>
      S (fold_right (fun x acc => Nat.max (node_depth x) acc) 0 items)
  | Leaf _ => 1
  end.

(** no node of the document is a reference *)
Fixpoint ref_free (v : Node) : bool :=
  negb (is_ref v) &&
  match v with
  | Mapping items => forallb (fun kv => ref_free (snd kv)) items
  | Sequence items => forallb ref_free items
  | Leaf _ => true
  end.

(** [flattened_spec] can get a resolver: one is given, or the url is not
    empty *)
Definition resolver_available (spec_resolver : option resolver)
    (spec_url : option string) : bool :=
  match spec_resolver, spec_url with
  | Some _, _ => true
  | None, Some u => negb (PyStr.is_empty u)
  | None, None => false
  end.

Definition plain_spec : Node :=
  Mapping [("swagger", Leaf (SStr "2.0"));
           ("definitions", Mapping [("Pet", pet_schema)]);
           ("paths", Mapping [])].

(* ===================================================================== *)
(** * Vocabulary of the statements about the collision reporter *)
(* ===================================================================== *)

(** [marshal_uri(uri) == key] *)
Definition marshals_to (marshal_uri : ParseResult -> result string)
    (key : string) (uri : ParseResult) : bool :=
  match marshal_uri uri with
  | Ok k => String.eqb k key
  | Raise _ => false
  end.

(** the locations of [uris] that share the marshaled key [key] *)
Definition clash_group (marshal_uri : ParseResult -> result string)
    (key : string) (uris : list ParseResult) : list ParseResult :=
  List.filter (marshals_to marshal_uri key) uris.

(** [d] is [marshaled_uri_mapping] after the locations [seen] *)
Definition grouped (marshal_uri : ParseResult -> result string)
    (d : list (string * list ParseResult)) (seen : list ParseResult) : Prop :=
  NoDup (dict_keys d)
  /\ (forall key,
         dict_get key d
         = match clash_group marshal_uri key seen with
           | [] => None
           | s => Some s
           end)
  /\ List.length d <= List.length seen
  /\ (List.length d = List.length seen ->
      forall key s, dict_get key d = Some s -> List.length s <= 1).

Definition str_le (a b : string) : Prop := String.leb a b = true.

(** two locations with one marshaled key *)
Definition clash_table : table :=
  [(mkParseResult "http" "h" "/a" "" "" "b", Leaf SNull);
   (mkParseResult "http" "h" "/a|b" "" "" "", Leaf SNull)].

Definition clash_doc : Node :=
  Mapping [("a", Mapping [("$ref", Leaf (SStr "http://h/a#b"))]);
           ("b", Mapping [("$ref", Leaf (SStr "http://h/a|b"))])].

Definition clash_resolve (scope ref : string) : result (string * Node) :=
  Ok (ref, pet_schema).

(** every location known in [st'] was known in [st] or can be marshaled *)
Definition marshaled_since (marshal_uri : ParseResult -> result string)
    (st st' : state) : Prop :=
  forall mapping_key uri,
    known_in mapping_key uri st' ->
    known_in mapping_key uri st \/ is_ok (marshal_uri uri) = true.

Definition clash_resolved : Node :=
  Eval vm_compute in
    match fst (descend clash_resolve plain_marshal 5 "" clash_doc initial_state) with
    | Done r => r
    | _ => Leaf SNull
    end.

Definition clash_final : state :=
  Eval vm_compute in
    snd (descend clash_resolve plain_marshal 5 "" clash_doc initial_state).

(* ===================================================================== *)
(** * Vocabulary of the statements about termination *)
(* ===================================================================== *)

(** the pairs of [universe], a holder and a location, not yet known *)
Definition unknown (universe : list (string * ParseResult)) (st : state) : nat :=
  List.length
    (List.filter
       (fun p => negb (dict_mem (snd p) (km_get (fst p) (known_mappings st))))
       universe).

(** [met resolve scope value scope' ref]: the descent of [value] in
    [scope] can come to resolve the reference [ref] in the scope
    [scope'].  A reference is met where it stands; a mapping that is no
    reference meets what its values meet and a list what its elements
    meet, in the same scope; a reference that resolves, to a value the
    classifier accepts, meets what that value meets in the scope of its
    location.  The references of a value that is already known are
    counted too, although [descend] does not enter it again. *)
Inductive met (resolve : string -> string -> result (string * Node))
  : string -> Node -> string -> string -> Prop :=
  | met_here scope value ref :
      ref_target value = Some ref ->
      met resolve scope value scope ref
  | met_item scope items key child scope' ref :
      ref_target (Mapping items) = None ->
      (key, child) ∈ items ->
      met resolve scope child scope' ref ->
      met resolve scope (Mapping items) scope' ref
  | met_element scope items child scope' ref :
      child ∈ items ->
      met resolve scope child scope' ref ->
      met resolve scope (Sequence items) scope' ref
  | met_target scope value target url deref_value object_type scope' ref :
      ref_target value = Some target ->
      resolve scope target = Ok (url, deref_value) ->
      _determine_object_type deref_value = Ok object_type ->
      met resolve url deref_value scope' ref ->
      met resolve scope value scope' ref.

(** of the references the descent of [root] in [scope] can meet: every
    value one of them resolves to is at most [bound] deep; a value that is
    no path item belongs to a location of [universe] under its holder, of
    rank [top] at most; a path item is met only in a scope of a rank
    above its own: the references to path items make no cycle.  Nothing
    is asked of the resolver at a scope and a reference the descent does
    not meet. *)
Definition bounded_references (resolve : string -> string -> result (string * Node))
    (scope : string) (root : Node)
    (universe : list (string * ParseResult)) (bound : nat)
    (rank : string -> nat) (top : nat) : Prop :=
  forall scope' ref url deref_value,
    met resolve scope root scope' ref ->
    resolve scope' ref = Ok (url, deref_value) ->
    node_depth deref_value <= bound
    /\ forall object_type,
         _determine_object_type deref_value = Ok object_type ->
         (object_type = Some _TYPE_PATH_ITEM -> rank url < rank scope')
         /\ (object_type <> Some _TYPE_PATH_ITEM ->
             (holder_of object_type, urlparse url) ∈ universe /\ rank url <= top).

(** the run did not stop for want of fuel, and no location was forgotten *)
Definition terminated (universe : list (string * ParseResult)) (st : state)
  : outcome Node -> state -> Prop :=
  fun o st' => o <> OutOfFuel /\ unknown universe st' <= unknown universe st.

(** a schema that refers to itself *)
Definition node_schema : Node :=
  Mapping [("type", Leaf (SStr "object"));
           ("properties",
            Mapping [("next", Mapping [("$ref", Leaf (SStr "#/definitions/Node"))])])].

Definition node_url : string := "file:///specs/a.json#/definitions/Node".

Definition node_ref : Node := Mapping [("$ref", Leaf (SStr "#/definitions/Node"))].

(** a document with a path item behind a reference, whose operation
    refers to the schema that refers to itself *)
Definition nodes_url : string := "file:///specs/a.json#/x-paths/nodes".

Definition nodes_item : Node := Mapping [("get", Mapping [("schema", node_ref)])].

Definition node_doc : Node :=
  Mapping [("paths", Mapping [("/nodes", Mapping [("$ref", Leaf (SStr "#/x-paths/nodes"))])]);
           ("x-paths", Mapping [("nodes", nodes_item)]);
           ("definitions", Mapping [("Node", node_schema)])].

Definition node_doc_resolver : resolver :=
  default_resolver example_url node_doc no_handlers.

(** the scopes and references of [node_doc]: those of the document, of
    the path item and of the schema *)
Definition node_doc_references : list (string * string) :=
  [(example_url, "#/x-paths/nodes"); (example_url, "#/definitions/Node");
   (nodes_url, "#/definitions/Node"); (node_url, "#/definitions/Node")].

(** the document is of rank one, what it refers to of rank zero *)
Definition node_doc_rank (scope : string) : nat :=
  if String.eqb scope example_url then 1 else 0.

(** the scope and the reference of [path_item_doc] *)
Definition path_item_doc_references : list (string * string) :=
  [(example_url, "#/x-paths/pets")].

(** a path item that refers to itself *)
Definition loop_ref : Node := Mapping [("$ref", Leaf (SStr "#/x-paths/A"))].

Definition loop_item : Node := Mapping [("get", loop_ref)].

Definition loop_url : string := "file:///specs/a.json#/x-paths/A".

Definition path_item_cycle : Node :=
  Mapping [("x-paths", Mapping [("A", loop_item)])].

Definition path_item_cycle_run (fuel : nat) : outcome Node * list string * state :=
  flattened_spec fuel path_item_cycle None (Some example_url) no_handlers
    (_marshal_uri "/srv").

Definition cycle_resolver : resolver :=
  default_resolver example_url path_item_cycle no_handlers.

Definition cycle_marshal (uri : ParseResult) : result string :=
  _marshal_uri "/srv" uri (Some (urlparse example_url)).

(** the run was cut short by the bound on the depth *)
Definition out_of_fuel {A} (o : outcome A) (st : state) : Prop := o = OutOfFuel.

(* ===================================================================== *)
(** * Documents as objects: identity, sharing and mutation *)
(* ===================================================================== *)

(** The dicts and lists of a document are objects of the Python heap; a
    value is a scalar or a reference to an object.  A heap is the list of
    its objects, an object's identity being its index.  New objects go at
    the end.  [flattened_spec] and [descend] are written again over this
    model, for the statements about what the engine shares with its input
    and what it mutates. *)
Module Heap.

Inductive pyval : Type :=
  | PScalar (s : Scalar)
  | PRef (a : nat).

Inductive pyobj : Type :=
  | PDict (items : list (string * pyval))
  | PList (items : list pyval).

Record hstate : Type := mkHState {
  objects : list pyobj;
  known : list (string * list (ParseResult * pyval))
}.

Definition HM (A : Type) : Type := ST hstate A.

(** a new object *)
Definition alloc (o : pyobj) : HM nat := fun st =>
  (Done (List.length (objects st)), mkHState (objects st ++ [o]) (known st)).

(** the object behind a reference *)
Definition deref (a : nat) : HM pyobj := fun st =>
  match objects st !! a with
  | Some o => (Done o, st)
  | None => (Raised (TypeError "no such object"), st)
  end.

(** an object mutated in place *)
Definition setobj (a : nat) (o : pyobj) : HM unit := fun st =>
  (Done tt, mkHState (<[a := o]> (objects st)) (known st)).

(** what [is_ref], [is_dict_like] and [is_list_like] look at *)
Inductive shape : Type :=
  | IsDict (items : list (string * pyval))
  | IsList (items : list pyval)
  | IsScalar (s : Scalar).

Definition shape_of (value : pyval) : HM shape :=
  match value with
  | PScalar s => ret (IsScalar s)
  | PRef a =>
      let* o := deref a in
      match o with
      | PDict items => ret (IsDict items)
      | PList items => ret (IsList items)
      end
  end.

Definition ref_target (sh : shape) : option string :=
  match sh with
  | IsDict items =>
      match dict_get "$ref" items with
      | Some (PScalar (SStr target)) => Some target
      | _ => None
      end
  | _ => None
  end.

Definition is_str (s : string) (v : pyval) : bool :=
  match v with PScalar (SStr s') => String.eqb s s' | _ => false end.

(** [_determine_object_type(object_dict)] *)
Definition _determine_object_type (object_dict : shape) : result (option object_type) :=
  match object_dict with
  | IsDict items => Ok (determine_dict_type items)
  | IsList items =>
      if existsb (is_str "in") items && existsb (is_str "name") items
      then Ok (Some _TYPE_PARAMETER)
      else Raise (AttributeError "'list' object has no attribute 'keys'")
  | IsScalar (SStr s) =>
      if PyStr.contains "in" s && PyStr.contains "name" s
      then Ok (Some _TYPE_PARAMETER)
      else Raise (AttributeError "'str' object has no attribute 'keys'")
  | IsScalar _ => Raise (TypeError "argument is not iterable")
  end.

(** ** copy.deepcopy *)

(** [copy.deepcopy(x, memo)]: a scalar is returned as it is; a dict or a
    list already copied is answered from [memo]; otherwise the copy is
    made empty, entered in [memo], and filled with the copies of the
    items. *)
Fixpoint copy_items (f : pyval -> list (nat * nat) -> HM (pyval * list (nat * nat)))
    (items : list (string * pyval)) (memo : list (nat * nat))
  : HM (list (string * pyval) * list (nat * nat)) :=
  match items with
  | [] => ret ([], memo)
  | (key, value) :: items' =>
      let* r := f value memo in
      let* rest := copy_items f items' (snd r) in
      ret ((key, fst r) :: fst rest, snd rest)
  end.

Fixpoint copy_list (f : pyval -> list (nat * nat) -> HM (pyval * list (nat * nat)))
    (items : list pyval) (memo : list (nat * nat))
  : HM (list pyval * list (nat * nat)) :=
  match items with
  | [] => ret ([], memo)
  | value :: items' =>
      let* r := f value memo in
      let* rest := copy_list f items' (snd r) in
      ret (fst r :: fst rest, snd rest)
  end.

Fixpoint deepcopy (fuel : nat) (x : pyval) (memo : list (nat * nat)) {struct fuel}
  : HM (pyval * list (nat * nat)) :=
  match fuel with
  | O => fun st => (OutOfFuel, st)
  | S fuel' =>
      match x with
      | PScalar _ => ret (x, memo)
      | PRef a =>
          match dict_get a memo with
          | Some y => ret (PRef y, memo)
          | None =>
              let* o := deref a in
              match o with
              | PDict items =>
                  let* y := alloc (PDict []) in
                  let* r := copy_items (deepcopy fuel') items (dict_set a y memo) in
                  let* _ := setobj y (PDict (fst r)) in
                  ret (PRef y, snd r)
              | PList items =>
                  let* y := alloc (PList []) in
                  let* r := copy_list (deepcopy fuel') items (dict_set a y memo) in
                  let* _ := setobj y (PList (fst r)) in
                  ret (PRef y, snd r)
              end
          end
      end
  end.

(** ** The engine *)

Record resolver : Type := mkResolver {
  resolution_scope : string;
  resolve_in : list pyobj -> string -> string -> result (string * pyval)
}.

Definition is_known (mapping_key : string) (uri : ParseResult) : HM bool := fun st =>
  (Done (dict_mem uri (default [] (dict_get mapping_key (known st)))), st).

Definition store (mapping_key : string) (uri : ParseResult) (value : pyval) : HM unit :=
  fun st =>
    match dict_get mapping_key (known st) with
    | Some t =>
        (Done tt,
         mkHState (objects st) (dict_set mapping_key (dict_set uri value t) (known st)))
    | None => (Raised (KeyError mapping_key), st)
    end.

(** [resolve(value['$ref'])]: the resolver reads the documents it holds *)
Definition resolving (resolve : list pyobj -> string -> string -> result (string * pyval))
    (scope ref : string) : HM (string * pyval) := fun st =>
  lift (resolve (objects st) scope ref) st.

Section Engine.

Variable resolve : list pyobj -> string -> string -> result (string * pyval).
Variable marshal_uri : ParseResult -> result string.

(** [descend(value)]: every dict and list it returns is a new object *)
Fixpoint descend (fuel : nat) (scope : string) (value : pyval) {struct fuel}
  : HM pyval :=
  match fuel with
  | O => fun st => (OutOfFuel, st)
  | S fuel' =>
      let* sh := shape_of value in
      match ref_target sh with
      | Some ref =>
          let* r := resolving resolve scope ref in
          let '(uri, deref_value) := r in
          let* object_dict := shape_of deref_value in
          let* object_type := lift (_determine_object_type object_dict) in
          if decide (object_type = Some _TYPE_PATH_ITEM) then
            descend fuel' uri deref_value
          else
            let mapping_key := holder_of object_type in
            let scope' := uri in
            let uri := urlparse uri in
            let* known := is_known mapping_key uri in
            let* _ :=
              if known then ret tt
              else
                let* _ := store mapping_key uri (PScalar SNull) in
                let* resolved := descend fuel' scope' deref_value in
                store mapping_key uri resolved in
            let* marshaled := lift (marshal_uri uri) in
            let* a :=
              alloc (PDict [("$ref",
                             PScalar (SStr ("#/" +:+ mapping_key +:+ "/" +:+ marshaled)))]) in
            ret (PRef a)
      | None =>
          match sh with
          | IsDict items =>
              let* items' := mapM_items (descend fuel' scope) items in
              let* a := alloc (PDict items') in
              ret (PRef a)
          | IsList items =>
              let* items' := mapM_list (descend fuel' scope) items in
              let* a := alloc (PList items') in
              ret (PRef a)
          | IsScalar _ => ret value
          end
      end
  end.

(** [resolved_spec.update({mapping_key: bucket})]: the dict behind
    [resolved_spec] is mutated *)
Definition update (resolved_spec : pyval) (mapping_key : string) (bucket : pyval)
  : HM unit :=
  match resolved_spec with
  | PRef a =>
      let* o := deref a in
      match o with
      | PDict items => setobj a (PDict (dict_set mapping_key bucket items))
      | PList _ => raise (AttributeError "'list' object has no attribute 'update'")
      end
  | PScalar _ => raise (AttributeError "object has no attribute 'update'")
  end.

(** the last loop of [flattened_spec] *)
Fixpoint merge_buckets (km : list (string * list (ParseResult * pyval)))
    (resolved_spec : pyval) : HM unit :=
  match km with
  | [] => ret tt
  | (mapping_key, mappings) :: km' =>
      let* _ :=
        lift (_warn_if_uri_clash_on_same_marshaled_representation mappings marshal_uri) in
      let* _ :=
        if (0 <? List.length mappings)%nat then
          let* items := lift (marshal_items marshal_uri mappings) in
          let* bucket := alloc (PDict (dict_of_items items)) in
          update resolved_spec mapping_key (PRef bucket)
        else ret tt in
      merge_buckets km' resolved_spec
  end.

End Engine.

Definition initial_known : list (string * list (ParseResult * pyval)) :=
  dict_of_items (List.map (fun kv => (snd kv, [])) _TYPE_PROPERTY_HOLDER_MAPPING).

Definition current_known : HM (list (string * list (ParseResult * pyval))) :=
  fun st => (Done (known st), st).

(** [flattened_spec(spec_dict, spec_resolver, spec_url, ...)] run in the
    heap [h].  [ref_resolver base_uri referrer] stands for jsonschema's
    [RefResolver(base_uri, referrer, handlers)]. *)
Definition flattened_spec (fuel : nat)
    (ref_resolver : string -> pyval -> resolver)
    (marshal_uri_function : ParseResult -> option ParseResult -> result string)
    (spec_dict : pyval) (spec_resolver : option resolver) (spec_url : option string)
  : HM pyval :=
  let* copied := deepcopy fuel spec_dict [] in
  let spec_dict := fst copied in
  let* spec_resolver :=
    match spec_resolver with
    | Some r => ret r
    | None =>
        match spec_url with
        | Some u =>
            if PyStr.is_empty u
            then raise (ValueError "spec_resolver or spec_url should be defined")
            else ret (ref_resolver u spec_dict)
        | None => raise (ValueError "spec_resolver or spec_url should be defined")
        end
    end in
  let marshal_uri :=
    fun uri =>
      marshal_uri_function uri
        (match spec_url with
         | Some u => if PyStr.is_empty u then None else Some (urlparse u)
         | None => None
         end) in
  let* resolved_spec :=
    descend (resolve_in spec_resolver) marshal_uri fuel
      (resolution_scope spec_resolver) spec_dict in
  let* km := current_known in
  let* _ := merge_buckets marshal_uri km resolved_spec in
  ret resolved_spec.

(** the state in which a call starts: the objects of the caller and the
    empty tables *)
Definition start (h : list pyobj) : hstate := mkHState h initial_known.

(** ** Reading a value back as a document *)

Fixpoint read_items (f : pyval -> option Node) (items : list (string * pyval))
  : option (list (string * Node)) :=
  match items with
  | [] => Some []
  | (key, value) :: items' =>
      match f value, read_items f items' with
      | Some v, Some rest => Some ((key, v) :: rest)
      | _, _ => None
      end
  end.

Fixpoint read_list (f : pyval -> option Node) (items : list pyval)
  : option (list Node) :=
  match items with
  | [] => Some []
  | value :: items' =>
      match f value, read_list f items' with
      | Some v, Some rest => Some (v :: rest)
      | _, _ => None
      end
  end.

(** the document a value stands for in the heap [h], down to the depth
    [fuel]: what [==] compares *)
Fixpoint read (fuel : nat) (h : list pyobj) (value : pyval) : option Node :=
  match fuel with
  | O => None
  | S fuel' =>
      match value with
      | PScalar s => Some (Leaf s)
      | PRef a =>
          match h !! a with
          | Some (PDict items) => Mapping <$> read_items (read fuel' h) items
          | Some (PList items) => Sequence <$> read_list (read fuel' h) items
          | None => None
          end
      end
  end.

(** ** Vocabulary of the statements *)

(** the values held by an object *)
Definition fields (o : pyobj) : list pyval :=
  match o with
  | PDict items => List.map snd items
  | PList items => items
  end.

(** [b] is an object reachable from [value] in [h] *)
Inductive reach (h : list pyobj) : pyval -> nat -> Prop :=
  | reach_here a : reach h (PRef a) a
  | reach_field a o v b :
      h !! a = Some o -> v ∈ fields o -> reach h v b -> reach h (PRef a) b.

(** [value] is a scalar or an object made after the first [n] *)
Definition val_fresh (n : nat) (value : pyval) : Prop :=
  match value with
  | PRef a => n <= a
  | PScalar _ => True
  end.

Definition obj_fresh (n : nat) (o : pyobj) : Prop :=
  Forall (val_fresh n) (fields o).

(** the objects of [h0] are as they were, and the objects made since
    and the tables hold scalars and objects made since *)
Definition framed (h0 : list pyobj) (st : hstate) : Prop :=
  (forall a, a < List.length h0 -> objects st !! a = h0 !! a)
  /\ List.length h0 <= List.length (objects st)
  /\ (forall a o, List.length h0 <= a -> objects st !! a = Some o ->
                  obj_fresh (List.length h0) o)
  /\ (forall mk t u v, (mk, t) ∈ known st -> (u, v) ∈ t ->
                       val_fresh (List.length h0) v).

(** the references held by the objects of [h] and by [value] are to
    objects of [h] *)
Definition val_closed (h : list pyobj) (value : pyval) : Prop :=
  match value with
  | PRef a => a < List.length h
  | PScalar _ => True
  end.

Definition heap_closed (h : list pyobj) : Prop :=
  forall a o, h !! a = Some o -> Forall (val_closed h) (fields o).

(** a caller's heap: the example document, its two dicts shared by a
    reference *)
Definition example_heap : list pyobj :=
  [PDict [("type", PScalar (SStr "object"))];
   PDict [("$ref", PScalar (SStr "#/definitions/Pet"))];
   PDict [("Pet", PRef 0); ("Ref", PRef 1)];
   PDict [("definitions", PRef 2)]].

(** a resolver over the caller's own objects: the reference of the
    example resolves to the dict of [Pet] *)
Definition example_resolver : resolver :=
  mkResolver example_url
    (fun h scope ref =>
       if String.eqb ref "#/definitions/Pet"
       then Ok ("file:///specs/a.json#/definitions/Pet", PRef 0)
       else Raise (RefResolutionError ref)).

Definition example_call : outcome pyval * hstate :=
  flattened_spec 10 (fun _ _ => example_resolver) (_marshal_uri "/srv")
    (PRef 3) (Some example_resolver) (Some example_url) (start example_heap).

(** ** Vocabulary of the refinement *)

(** [value] stands for the document [node] in the heap [h] *)
Definition denotes (h : list pyobj) (value : pyval) (node : Node) : Prop :=
  exists depth, read depth h value = Some node.

Definition items_denote (h : list pyobj) (items : list (string * pyval))
    (nodes : list (string * Node)) : Prop :=
  exists depth, read_items (read depth h) items = Some nodes.

Definition list_denotes (h : list pyobj) (items : list pyval) (nodes : list Node) : Prop :=
  exists depth, read_list (read depth h) items = Some nodes.

(** what [shape_of] finds stands for [node] *)
Definition shape_denotes (h : list pyobj) (sh : shape) (node : Node) : Prop :=
  match sh, node with
  | IsScalar s, Leaf s' => s = s'
  | IsDict items, Mapping nodes => items_denote h items nodes
  | IsList items, Sequence nodes => list_denotes h items nodes
  | _, _ => False
  end.

(** the tables of the two engines hold the same locations in the same
    order, with values that stand for the same documents *)
Definition table_agrees (h : list pyobj) (t : list (ParseResult * pyval)) (t' : table)
  : Prop :=
  Forall2 (fun x y => fst x = fst y /\ denotes h (snd x) (snd y)) t t'.

Definition tables_agree (h : list pyobj)
    (hk : list (string * list (ParseResult * pyval))) (km : list (string * table))
  : Prop :=
  Forall2 (fun a b => fst a = fst b /\ table_agrees h (snd a) (snd b)) hk km.

(** the resolver over objects gives what the resolver over documents
    gives, in every heap that extends [base] *)
Definition resolvers_agree (base : list pyobj)
    (hresolve : list pyobj -> string -> string -> result (string * pyval))
    (resolve : string -> string -> result (string * Node)) : Prop :=
  forall h scope ref,
    base `prefix_of` h ->
    match hresolve h scope ref with
    | Ok (url, value) =>
        exists node, resolve scope ref = Ok (url, node) /\ denotes h value node
    | Raise e => resolve scope ref = Raise e
    end.

(** the two runs end alike: both return, the value over objects standing
    for the document, or both raise the same exception, or both are cut
    short; no object was lost, and the tables agree *)
Definition runs_agree {A B} (same : list pyobj -> A -> B -> Prop) (hst : hstate)
    (hrun : outcome A * hstate) (run : outcome B * state) : Prop :=
  objects hst `prefix_of` objects (snd hrun)
  /\ tables_agree (objects (snd hrun)) (known (snd hrun)) (known_mappings (snd run))
  /\ match fst hrun, fst run with
     | Done a, Done b => same (objects (snd hrun)) a b
     | Raised e, Raised e' => e = e'
     | OutOfFuel, OutOfFuel => True
     | _, _ => False
     end.

(** the two functions [f] and [g] run in step on values that stand for
    the same document, in every heap that extends [base] *)
Definition in_step (base : list pyobj) (f : pyval -> HM pyval) (g : Node -> M Node)
  : Prop :=
  forall value node hst st,
    base `prefix_of` objects hst ->
    tables_agree (objects hst) (known hst) (known_mappings st) ->
    denotes (objects hst) value node ->
    runs_agree denotes hst (f value hst) (g node st).

(** the resolver of the example over documents *)
Definition pet_resolve (scope ref : string) : result (string * Node) :=
  if String.eqb ref "#/definitions/Pet"
  then Ok ("file:///specs/a.json#/definitions/Pet",
           Mapping [("type", Leaf (SStr "object"))])
  else Raise (RefResolutionError ref).

End Heap.

(* ===================================================================== *)
(** * Vocabulary of the further statements about the URI marshaler *)
(* ===================================================================== *)

(** [ParseResult(scheme, *uri[1:])] *)
Definition with_scheme (s : string) (uri : ParseResult) : ParseResult :=
  mkParseResult s (netloc uri) (path uri) (params uri) (query uri) (fragment uri).

(** [uri._replace(fragment=f)] *)
Definition with_fragment (f : string) (uri : ParseResult) : ParseResult :=
  mkParseResult (scheme uri) (netloc uri) (path uri) (params uri) (query uri) f.

(** the last loop of [_marshal_uri]: the replacements of
    [MARSHAL_REPLACEMENT_PATTERNS], one after the other *)
Definition marshal_patterns (s : string) : string :=
  fold_left (fun acc p => PyStr.replace (fst p) (snd p) acc)
    MARSHAL_REPLACEMENT_PATTERNS s.

(** what [urlunsplit] appends for the fragment *)
Definition fragment_suffix (f : string) : string :=
  if PyStr.is_empty f then "" else "#" +:+ f.

(* ===================================================================== *)
(** * Vocabulary of the further statements about the classifier *)
(* ===================================================================== *)

(** [key] is a key of [object_dict] that does not start with [x-]: what
    [object_keys] holds *)
Definition plain_key {V} (object_dict : list (string * V)) (key : string) : Prop :=
  dict_mem key object_dict = true /\ PyStr.startswith "x-" key = false.

(* ===================================================================== *)
(** * Vocabulary of the further statements about the descent *)
(* ===================================================================== *)

(** the targets of the references of a document: the [$ref] of every
    node that [is_ref] holds of *)
Fixpoint ref_targets (v : Node) : list string :=
  match ref_target v with Some target => [target] | None => [] end
  ++ match v with
     | Mapping items => flat_map (fun kv => ref_targets (snd kv)) items
     | Sequence items => flat_map ref_targets items
     | Leaf _ => []
     end.

(** [target] is the pointer [#/<holder>/<key>] to the entry of a location
    known in [st], [key] being what [marshal_uri] gives for the location *)
Definition points_to_known (marshal_uri : ParseResult -> result string)
    (st : state) (target : string) : Prop :=
  exists mapping_key uri key,
    target = "#/" +:+ mapping_key +:+ "/" +:+ key
    /\ known_in mapping_key uri st
    /\ marshal_uri uri = Ok key.

(** every reference of [v] is a pointer to a known location *)
Definition closed_in (marshal_uri : ParseResult -> result string)
    (st : state) (v : Node) : Prop :=
  forall target, target ∈ ref_targets v -> points_to_known marshal_uri st target.

(** [known_mappings[mapping_key].get(uri)] *)
Definition entry (mapping_key : string) (uri : ParseResult) (st : state) : option Node :=
  dict_get uri (km_get mapping_key (known_mappings st)).

(** every value of the tables is closed *)
Definition tables_closed (marshal_uri : ParseResult -> result string)
    (st : state) : Prop :=
  forall mapping_key uri v, entry mapping_key uri st = Some v -> closed_in marshal_uri st v.

(** the entries of [st] are those of [st'] too, with the same values *)
Definition entries_kept (st st' : state) : Prop :=
  forall mapping_key uri,
    known_in mapping_key uri st -> entry mapping_key uri st' = entry mapping_key uri st.

(** the placeholders of [st'] are placeholders of [st] *)
Definition placeholders_le (st' st : state) : Prop :=
  forall mapping_key uri,
    entry mapping_key uri st' = Some (Leaf SNull) ->
    entry mapping_key uri st = Some (Leaf SNull).

(** what [descend] makes of a value, one level deep: a scalar is
    returned as it is, a list becomes a list of the same length, a
    mapping becomes a mapping, with the same keys in the same order and
    again no reference when it was no reference *)
Definition same_kind (v v' : Node) : Prop :=
  match v with
  | Leaf s => v' = Leaf s
  | Sequence items =>
      exists items', v' = Sequence items' /\ List.length items' = List.length items
  | Mapping items =>
      exists items',
        v' = Mapping items'
        /\ (ref_target v = None ->
            dict_keys items' = dict_keys items /\ ref_target v' = None)
  end.

(** what holds of a run of [descend] on [value] from [st], however it
    ends *)
Definition run_kept (marshal_uri : ParseResult -> result string)
    (st st' : state) : Prop :=
  keys_le st st'
  /\ entries_kept st st'
  /\ (tables_closed marshal_uri st -> tables_closed marshal_uri st').

(** what holds of a run of [descend] on [value] from [st] *)
Definition sound_run (marshal_uri : ParseResult -> result string)
    (value : Node) (st : state) : outcome Node -> state -> Prop :=
  fun o st' =>
    run_kept marshal_uri st st'
    /\ forall v', o = Done v' ->
         same_kind value v' /\ closed_in marshal_uri st' v' /\ placeholders_le st' st.

(* ===================================================================== *)
(** * Vocabulary of the further statements about [flattened_spec] *)
(* ===================================================================== *)

(** [urlparse(spec_url) if spec_url else None] *)
Definition origin_of (spec_url : option string) : option ParseResult :=
  match spec_url with
  | Some u => if PyStr.is_empty u then None else Some (urlparse u)
  | None => None
  end.

(** the warning filed first, when no [spec_url] is given *)
Definition origin_warnings (spec_url : option string) : list string :=
  match spec_url with None => [origin_warning] | Some _ => [] end.

(** the names of the three holders *)
Definition holder_names : list string := ["parameters"; "responses"; "definitions"].

(** what [flattened_spec] returns for [pet_twice], and the tables it ends
    with *)
Definition pet_twice_flat : Node :=
  Mapping
    [("a", Mapping [("$ref", Leaf (SStr "#/definitions/lfile:a.json|..definitions..Pet"))]);
     ("b", Mapping [("$ref", Leaf (SStr "#/definitions/lfile:a.json|..definitions..Pet"))]);
     ("definitions", Mapping [("lfile:a.json|..definitions..Pet", pet_schema)])].

Definition pet_twice_state : state :=
  mkState
    [("parameters", []); ("responses", []);
     ("definitions", [(pet_location, pet_schema)])]
    [Resolved "definitions" pet_location].

(** the holders whose bucket is a new key of the document [items]: those
    with a table that is not empty and a name that is no key of [items],
    in the order of the tables *)
Definition added_holders (items : list (string * Node)) (km : list (string * table))
  : list string :=
  List.map fst
    (List.filter
       (fun kt => negb (dict_mem (fst kt) items) && (0 <? List.length (snd kt))%nat)
       km).

(** the resolver [flattened_spec] works with *)
Definition resolver_used (spec_dict : Node) (spec_resolver : option resolver)
    (spec_url : option string) (http_handlers : string -> option Node)
    (rs : resolver) : Prop :=
  match spec_resolver with
  | Some r => rs = r
  | None =>
      exists u, spec_url = Some u /\ PyStr.is_empty u = false
                /\ rs = default_resolver u spec_dict http_handlers
  end.

(** a resolver that gives [clash_doc] two different schemas, and the run
    of [flattened_spec] with it: the two locations have one marshaled
    key *)
Definition clash_values_resolve (scope ref : string) : result (string * Node) :=
  Ok (ref,
      if String.eqb ref "http://h/a#b"
      then Mapping [("type", Leaf (SStr "string"))]
      else pet_schema).

Definition clash_run : outcome Node * list string * state :=
  flattened_spec 5 clash_doc (Some (mkResolver "" clash_values_resolve)) None
    no_handlers (_marshal_uri "/srv").

Definition clash_flat : Node :=
  Eval vm_compute in
    match fst (fst clash_run) with Done r => r | _ => Leaf SNull end.

Definition clash_warnings : list string := Eval vm_compute in snd (fst clash_run).

Definition clash_tables : state := Eval vm_compute in snd clash_run.

(** the items of [clash_doc] *)
Definition clash_items : list (string * Node) :=
  [("a", Mapping [("$ref", Leaf (SStr "http://h/a#b"))]);
   ("b", Mapping [("$ref", Leaf (SStr "http://h/a|b"))])].

Example urlparse_ex1 :
  urlparse "file:///specs/a.json#/definitions/Pet"
  = mkParseResult "file" "" "/specs/a.json" "" "" "/definitions/Pet".
Proof. vm_compute. reflexivity. Qed.

Example urlparse_ex2 :
  urlparse "http://host:80/a/b;x?q=1#f"
  = mkParseResult "http" "host:80" "/a/b" "x" "q=1" "f".
Proof. vm_compute. reflexivity. Qed.

Example urlunparse_ex1 :
  urlunparse (mkParseResult "lfile" "" "a.json" "" "" "/definitions/Pet")
  = "lfile:a.json#/definitions/Pet".
Proof. vm_compute. reflexivity. Qed.

Example urljoin_ex1 :
  urljoin "file:///specs/a.json" "#/definitions/Pet"
  = "file:///specs/a.json#/definitions/Pet".
Proof. vm_compute. reflexivity. Qed.

Example urljoin_ex2 :
  urljoin "http://h/a/b/c.json" "../d/e.json#/x" = "http://h/a/d/e.json#/x".
Proof. vm_compute. reflexivity. Qed.

Example relpath_ex1 :
  PosixPath.relpath "/cwd" "/specs/a.json" (PosixPath.dirname "/specs/a.json") = Ok "a.json".
Proof. vm_compute. reflexivity. Qed.

Example relpath_ex2 :
  PosixPath.relpath "/cwd" "/specs/sub/b.json" "/specs/other" = Ok "../sub/b.json".
Proof. vm_compute. reflexivity. Qed.

Example marshal_ex1 :
  _marshal_uri "/cwd" (urlparse "file:///specs/a.json#/definitions/Pet")
    (Some (urlparse "file:///specs/a.json"))
  = Ok "lfile:a.json|..definitions..Pet".
Proof. vm_compute. reflexivity. Qed.

Example classify_ex1 :
  _determine_object_type (Mapping [("in", Leaf (SStr "query")); ("name", Leaf (SStr "x"))])
  = Ok (Some _TYPE_PARAMETER).
Proof. vm_compute. reflexivity. Qed.

Example classify_ex2 :
  _determine_object_type (Mapping [("get", Mapping []); ("parameters", Sequence [])])
  = Ok (Some _TYPE_PATH_ITEM).
Proof. vm_compute. reflexivity. Qed.

Example classify_ex3 :
  _determine_object_type (Mapping [("description", Leaf (SStr "ok"))])
  = Ok (Some _TYPE_RESPONSE).
Proof. vm_compute. reflexivity. Qed.

Example classify_ex4 :
  _determine_object_type (Mapping [("type", Leaf (SStr "object"))])
  = Ok (Some _TYPE_SCHEMA).
Proof. vm_compute. reflexivity. Qed.

Example classify_ex5 :
  _determine_object_type (Mapping [("get", Mapping []); ("foo", Sequence [])])
  = Ok None.
Proof. vm_compute. reflexivity. Qed.


(* ===================================================================== *)
(** * Strings *)
(* ===================================================================== *)

Lemma is_empty_true (s : string) : PyStr.is_empty s = true <-> s = "".
Proof. destruct s; simpl; split; congruence. Qed.

Lemma is_empty_app (s1 s2 : string) :
  PyStr.is_empty (s1 +:+ s2) = PyStr.is_empty s1 && PyStr.is_empty s2.
Proof. destruct s1; reflexivity. Qed.

Lemma mem_app (c : ascii) (s1 s2 : string) :
  PyStr.mem c (s1 +:+ s2) = PyStr.mem c s1 || PyStr.mem c s2.
Proof.
  induction s1 as [|a s1 IH]; simpl; [reflexivity|].
  rewrite IH. apply orb_assoc.
Qed.

Lemma prefix_single (c a : ascii) (s : string) :
  String.prefix (String c "") (String a s) = Ascii.eqb a c.
Proof.
  simpl. destruct (ascii_dec c a) as [->|Hne].
  - rewrite Ascii.eqb_refl. now destruct s.
  - symmetry. apply Ascii.eqb_neq. congruence.
Qed.

(** Replacing a one-character pattern is a substitution character by
    character. *)
Lemma replace_single_cons (c : ascii) (new : string) (a : ascii) (s : string) :
  PyStr.replace (String c "") new (String a s)
  = if Ascii.eqb a c then new +:+ PyStr.replace (String c "") new s
    else String a (PyStr.replace (String c "") new s).
Proof.
  unfold PyStr.replace. cbn [PyStr.replace_go].
  rewrite prefix_single. reflexivity.
Qed.

Lemma replace_single_nil (c : ascii) (new : string) :
  PyStr.replace (String c "") new "" = "".
Proof. reflexivity. Qed.

Lemma mem_replace_same (c : ascii) (new s : string) :
  PyStr.mem c new = false ->
  PyStr.mem c (PyStr.replace (String c "") new s) = false.
Proof.
  intros Hnew. induction s as [|a s IH]; [reflexivity|].
  rewrite replace_single_cons. destruct (Ascii.eqb a c) eqn:E.
  - rewrite mem_app, Hnew, IH. reflexivity.
  - cbn [PyStr.mem]. rewrite E, IH. reflexivity.
Qed.

Lemma mem_replace_other (d c : ascii) (new s : string) :
  PyStr.mem d new = false -> PyStr.mem d s = false ->
  PyStr.mem d (PyStr.replace (String c "") new s) = false.
Proof.
  intros Hnew. induction s as [|a s IH]; intros Hs; [reflexivity|].
  simpl in Hs. apply orb_false_iff in Hs as [Ha Hs].
  rewrite replace_single_cons. destruct (Ascii.eqb a c).
  - rewrite mem_app, Hnew, IH; auto.
  - cbn [PyStr.mem]. rewrite Ha, IH; auto.
Qed.

(* ===================================================================== *)
(** * The URI marshaler *)
(* ===================================================================== *)

(** what the substitution table does to a serialized uri *)
Lemma patterns_applied (s : string) :
  fold_left (fun acc p => PyStr.replace (fst p) (snd p) acc)
    MARSHAL_REPLACEMENT_PATTERNS s
  = PyStr.replace "#" "|" (PyStr.replace "/" ".." s).
Proof. reflexivity. Qed.

Lemma patterns_safe (s : string) :
  let s' := fold_left (fun acc p => PyStr.replace (fst p) (snd p) acc)
              MARSHAL_REPLACEMENT_PATTERNS s in
  PyStr.mem "/" s' = false /\ PyStr.mem "#" s' = false.
Proof.
  cbv zeta. rewrite patterns_applied. split.
  - apply mem_replace_other; [reflexivity|]. now apply mem_replace_same.
  - now apply mem_replace_same.
Qed.

(** the marshaler returns only through the substitution table *)
Lemma marshal_uri_ok_inv cwd target_uri origin_uri s :
  _marshal_uri cwd target_uri origin_uri = Ok s ->
  exists serialized,
    s = fold_left (fun acc p => PyStr.replace (fst p) (snd p) acc)
          MARSHAL_REPLACEMENT_PATTERNS serialized.
Proof.
  unfold _marshal_uri.
  destruct (negb (PyStr.is_empty (urlunparse target_uri)) && _);
    (destruct (PyStr.is_empty _ || _); [discriminate|]);
    (destruct origin_uri as [o|]; [destruct (String.eqb _ "file")|]);
    cbn; try (destruct (PosixPath.relpath _ _ _); cbn);
    intros H; inversion H; eauto.
Qed.

(** C6: whenever the URI marshaler returns, its result holds neither a
    slash nor a hash: the table of substitutions (slash to two dots, then
    hash to a bar) went over the whole serialized string. *)
Theorem marshal_uri_output_safe cwd target_uri origin_uri s :
  _marshal_uri cwd target_uri origin_uri = Ok s ->
  PyStr.mem "/" s = false /\ PyStr.mem "#" s = false.
Proof.
  intros H. apply marshal_uri_ok_inv in H as [serialized ->].
  apply patterns_safe.
Qed.

Lemma marshal_uri_output_safe_witness :
  PyStr.mem "/" "lfile:a.json|..definitions..Pet" = false
  /\ PyStr.mem "#" "lfile:a.json|..definitions..Pet" = false.
Proof.
  apply (marshal_uri_output_safe "/srv"
           (urlparse "file:///specs/a.json#/definitions/Pet")
           (Some (urlparse "file:///specs/a.json"))).
  vm_compute. reflexivity.
Defined.

Lemma urlunsplit_nonempty (sch nl url q f : string) :
  sch <> "" -> PyStr.is_empty (urlunsplit sch nl url q f) = false.
Proof.
  intros Hs. unfold urlunsplit.
  destruct sch as [|a sch]; [congruence|]. cbn [PyStr.is_empty].
  repeat match goal with
         | |- context [if ?b then _ else _] => destruct b
         end;
    rewrite ?is_empty_app; reflexivity.
Qed.

Lemma urlunparse_nonempty (u : ParseResult) :
  scheme u <> "" -> PyStr.is_empty (urlunparse u) = false.
Proof. intros H. unfold urlunparse. now apply urlunsplit_nonempty. Qed.

Lemma relpath_nonempty (cwd p start : string) :
  p <> "" -> exists r, PosixPath.relpath cwd p start = Ok r.
Proof.
  intros Hp. unfold PosixPath.relpath.
  destruct p; [congruence|]. cbn [PyStr.is_empty].
  match goal with |- context [match ?l with [] => _ | _ => _ end] => destruct l end;
    eauto.
Qed.

Lemma relpath_empty (cwd start : string) :
  PosixPath.relpath cwd "" start = Raise (ValueError "no path specified").
Proof. reflexivity. Qed.

Lemma eqb_empty_false (s : string) : s <> "" -> String.eqb s "" = false.
Proof. intros H. now apply String.eqb_neq. Qed.

(** The marshaler on every input: the explicit guard, then the call of
    [relpath], which refuses an empty path. *)
Lemma marshal_uri_cases cwd t o :
  (urlunparse t = "" \/ str_in (defaulted_scheme t) ["file"; "http"; "https"] = false ->
   exists msg, _marshal_uri cwd t o = Raise (ValueError ("Invalid target: '" +:+ msg +:+ "'")))
  /\ (urlunparse t <> "" ->
      str_in (defaulted_scheme t) ["file"; "http"; "https"] = true ->
      (o = None \/ path t <> "" \/ defaulted_scheme t <> "file") ->
      exists s, _marshal_uri cwd t o = Ok s)
  /\ (urlunparse t <> "" -> defaulted_scheme t = "file" -> path t = "" ->
      o <> None ->
      _marshal_uri cwd t o = Raise (ValueError "no path specified")).
Proof.
  unfold _marshal_uri, defaulted_scheme.
  destruct (PyStr.is_empty (urlunparse t)) eqn:Hempty.
  { cbn [negb andb]. rewrite Hempty. cbn [orb].
    apply is_empty_true in Hempty.
    repeat split; intros; try congruence. eauto. }
  assert (Hne : urlunparse t <> "").
  { intros E. apply is_empty_true in E. congruence. }
  destruct (String.eqb (scheme t) "") eqn:Hsch; cbn [negb andb].
  - rewrite urlunparse_nonempty by (cbn; congruence).
    cbn [scheme str_in existsb String.eqb Ascii.eqb Bool.eqb negb orb
         netloc path params query fragment].
    repeat split.
    + intros [?|?]; congruence.
    + intros _ _ Hside. destruct o as [o|]; [|cbn; eauto].
      destruct Hside as [?|[Hp|?]]; try congruence.
      destruct (relpath_nonempty cwd (path t) (PosixPath.dirname (path o)) Hp)
        as [r ->]. cbn. eauto.
    + intros _ _ Hp Ho. destruct o as [o|]; [|congruence].
      rewrite Hp, relpath_empty. reflexivity.
  - rewrite Hempty. cbn [orb].
    destruct (str_in (scheme t) ["file"; "http"; "https"]) eqn:Hin; cbn [negb].
    + repeat split.
      * intros [?|?]; congruence.
      * intros _ _ Hside. destruct o as [o|]; [|cbn; eauto].
        destruct (String.eqb (scheme t) "file") eqn:Hfile; [|cbn; eauto].
        apply String.eqb_eq in Hfile.
        destruct Hside as [?|[Hp|?]]; try congruence.
        destruct (relpath_nonempty cwd (path t) (PosixPath.dirname (path o)) Hp)
          as [r ->]. cbn. eauto.
      * intros _ Hfile Hp Ho. destruct o as [o|]; [|congruence].
        rewrite Hfile, Hp. cbn [String.eqb Ascii.eqb Bool.eqb].
        rewrite relpath_empty. reflexivity.
    + repeat split; intros; try congruence; eauto.
      exfalso. match goal with H : scheme t = "file" |- _ => rewrite H in Hin end.
      discriminate.
Qed.

(** C5, as the code has it: when no origin is given, or the path of the
    target is not empty, or its scheme is not the local-file one, the
    marshaler raises its invalid-target error exactly when the serialized
    target is empty or the scheme, an empty one taken as [file], is none of
    [file], [http], [https]; on every other such input it returns a
    string. *)
Theorem marshal_uri_fails_iff cwd t o :
  o = None \/ path t <> "" \/ defaulted_scheme t <> "file" ->
  (is_ok (_marshal_uri cwd t o) = false <->
   urlunparse t = "" \/ str_in (defaulted_scheme t) ["file"; "http"; "https"] = false)
  /\ (is_ok (_marshal_uri cwd t o) = false ->
      exists msg, _marshal_uri cwd t o = Raise (ValueError ("Invalid target: '" +:+ msg +:+ "'"))).
Proof.
  intros Hside.
  destruct (marshal_uri_cases cwd t o) as (Hfail & Hok & _).
  destruct (string_dec (urlunparse t) "") as [He|He].
  { destruct (Hfail (or_introl He)) as [msg Hm]. rewrite Hm. cbn.
    split; [split; auto | eauto]. }
  destruct (str_in (defaulted_scheme t) ["file"; "http"; "https"]) eqn:Hin.
  - destruct (Hok He eq_refl Hside) as [s ->]. cbn. split.
    + split; [discriminate|]. intros [?|?]; congruence.
    + discriminate.
  - destruct (Hfail (or_intror eq_refl)) as [msg Hm]. rewrite Hm. cbn.
    split; [split; auto | eauto].
Qed.

Lemma marshal_uri_fails_iff_witness :
  (is_ok (_marshal_uri "/srv" (urlparse "ftp://host/a.json#/x") None) = false <->
   urlunparse (urlparse "ftp://host/a.json#/x") = ""
   \/ str_in (defaulted_scheme (urlparse "ftp://host/a.json#/x"))
        ["file"; "http"; "https"] = false)
  /\ (is_ok (_marshal_uri "/srv" (urlparse "ftp://host/a.json#/x") None) = false ->
      exists msg, _marshal_uri "/srv" (urlparse "ftp://host/a.json#/x") None
                  = Raise (ValueError ("Invalid target: '" +:+ msg +:+ "'"))).
Proof.
  apply (marshal_uri_fails_iff "/srv" (urlparse "ftp://host/a.json#/x") None).
  left. reflexivity.
Defined.

(** C5 as stated fails: with an origin, a [file] target whose path is empty
    has a serialized form that is not empty and an accepted scheme, and
    the marshaler raises all the same, in [os.path.relpath]. *)
Lemma marshal_uri_fails_iff_counterexample :
  ~ (is_ok (_marshal_uri "/srv" fragment_only_target example_origin) = false <->
     urlunparse fragment_only_target = ""
     \/ str_in (defaulted_scheme fragment_only_target) ["file"; "http"; "https"] = false).
Proof.
  intros [Hfwd _].
  destruct Hfwd as [H|H]; [vm_compute; reflexivity | vm_compute in H | vm_compute in H];
    discriminate.
Qed.

(* ===================================================================== *)
(** * The classifier *)
(* ===================================================================== *)

Lemma verb_and_foo_shape : verb_with_other_keys verb_and_foo.
Proof.
  unfold verb_with_other_keys.
  repeat split;
    match goal with
    | |- ?X <> ?Y => apply (bool_decide_eq_false_1 (X = Y))
    end; vm_compute; reflexivity.
Qed.

(** a mapping with a verb among its keys and, the verbs apart, keys that
    are neither none nor [parameters] alone: with both [in] and [name] it
    is a parameter, the first test of the classifier; without one of them
    no test of the classifier holds and no [return] is reached *)
Lemma determine_verb_other_keys (object_dict : list (string * Node)) :
  verb_with_other_keys object_dict ->
  _determine_object_type (Mapping object_dict)
  = Ok (if dict_mem "in" object_dict && dict_mem "name" object_dict
        then Some _TYPE_PARAMETER else None).
Proof.
  intros (Hverb & Hne & Hnp).
  cbn [_determine_object_type]. unfold determine_dict_type.
  destruct (dict_mem "in" object_dict && dict_mem "name" object_dict); [reflexivity|].
  rewrite (bool_decide_eq_false_2 _ Hverb), (bool_decide_eq_false_2 _ Hne),
    (bool_decide_eq_false_2 _ Hnp).
  reflexivity.
Qed.

(** C2 at the mapping [{'get': {}, 'foo': []}]: it has a verb among its
    keys and, the verbs apart, the one key [foo], and the classifier gives
    it none of its four categories: the test for a path item fails, the
    tests for a response and a schema are the [else] of the test for a
    verb, and the function ends without a [return], which is [None] in
    Python.  The docstring of the function promises one of the four
    values, and a schema is what is expected here. *)
Theorem classify_verb_other_keys_none :
  verb_with_other_keys verb_and_foo
  /\ _determine_object_type (Mapping verb_and_foo) = Ok None
  /\ forall t : object_type,
       _determine_object_type (Mapping verb_and_foo) <> Ok (Some t).
Proof.
  split; [exact verb_and_foo_shape|].
  rewrite (determine_verb_other_keys verb_and_foo verb_and_foo_shape).
  split; [reflexivity|]. intros t. cbn. discriminate.
Qed.

(* ===================================================================== *)
(** * The state monad of the descent *)
(* ===================================================================== *)

Lemma bindM_done {St A B} (m : ST St A) (k : A -> ST St B) st a st1 :
  m st = (Done a, st1) -> bindM m k st = k a st1.
Proof. unfold bindM. now intros ->. Qed.

Lemma bindM_raised {St A B} (m : ST St A) (k : A -> ST St B) st e st1 :
  m st = (Raised e, st1) -> bindM m k st = (Raised e, st1).
Proof. unfold bindM. now intros ->. Qed.

Lemma bindM_out {St A B} (m : ST St A) (k : A -> ST St B) st st1 :
  m st = (OutOfFuel, st1) -> bindM m k st = (OutOfFuel, st1).
Proof. unfold bindM. now intros ->. Qed.

Lemma bindM_inv {St A B} (m : ST St A) (k : A -> ST St B) st o st' :
  bindM m k st = (o, st') ->
  (exists a st1, m st = (Done a, st1) /\ k a st1 = (o, st'))
  \/ (exists e, m st = (Raised e, st') /\ o = Raised e)
  \/ (m st = (OutOfFuel, st') /\ o = OutOfFuel).
Proof.
  unfold bindM. destruct (m st) as [[a|e|] st1]; intros H.
  - left. eauto.
  - right. left. inversion H; subst. eauto.
  - right. right. inversion H; subst. eauto.
Qed.

(** [g] does at least what [f] does, whenever [f] does not run out of fuel *)
Definition extends (f g : Node -> M Node) : Prop :=
  forall v st o st', f v st = (o, st') -> o <> OutOfFuel -> g v st = (o, st').

Lemma mapM_items_extends f g items :
  extends f g ->
  forall st o st', mapM_items f items st = (o, st') -> o <> OutOfFuel ->
                   mapM_items g items st = (o, st').
Proof.
  intros Hfg. induction items as [|[key subval] items IH]; intros st o st' H Ho.
  - exact H.
  - cbn [mapM_items] in *.
    apply bindM_inv in H as [(v & st1 & Hv & H)|[(e & Hv & ->)|[_ ->]]]; [| |congruence].
    + rewrite (bindM_done _ _ _ _ _ (Hfg _ _ _ _ Hv ltac:(discriminate))).
      apply bindM_inv in H as [(r & st2 & Hr & H)|[(e & Hr & ->)|[_ ->]]]; [| |congruence].
      * rewrite (bindM_done _ _ _ _ _ (IH _ _ _ Hr ltac:(discriminate))). exact H.
      * rewrite (bindM_raised _ _ _ _ _ (IH _ _ _ Hr ltac:(discriminate))). reflexivity.
    + rewrite (bindM_raised _ _ _ _ _ (Hfg _ _ _ _ Hv ltac:(discriminate))). reflexivity.
Qed.

Lemma mapM_list_extends f g items :
  extends f g ->
  forall st o st', mapM_list f items st = (o, st') -> o <> OutOfFuel ->
                   mapM_list g items st = (o, st').
Proof.
  intros Hfg. induction items as [|subval items IH]; intros st o st' H Ho.
  - exact H.
  - cbn [mapM_list] in *.
    apply bindM_inv in H as [(v & st1 & Hv & H)|[(e & Hv & ->)|[_ ->]]]; [| |congruence].
    + rewrite (bindM_done _ _ _ _ _ (Hfg _ _ _ _ Hv ltac:(discriminate))).
      apply bindM_inv in H as [(r & st2 & Hr & H)|[(e & Hr & ->)|[_ ->]]]; [| |congruence].
      * rewrite (bindM_done _ _ _ _ _ (IH _ _ _ Hr ltac:(discriminate))). exact H.
      * rewrite (bindM_raised _ _ _ _ _ (IH _ _ _ Hr ltac:(discriminate))). reflexivity.
    + rewrite (bindM_raised _ _ _ _ _ (Hfg _ _ _ _ Hv ltac:(discriminate))). reflexivity.
Qed.

Section FuelMonotone.
Variable resolve : string -> string -> result (string * Node).
Variable marshal_uri : ParseResult -> result string.

Abbreviation descend' := (descend resolve marshal_uri).

Lemma descend_unfold fuel scope value :
  descend' (S fuel) scope value =
  match ref_target value with
  | Some ref =>
      let* r := lift (resolve scope ref) in
      let '(uri, deref_value) := r in
      let* object_type := lift (_determine_object_type deref_value) in
      if decide (object_type = Some _TYPE_PATH_ITEM) then
        let* _ := record (Inlined uri) in
        descend' fuel uri deref_value
      else
        let mapping_key := holder_of object_type in
        let scope' := uri in
        let uri := urlparse uri in
        let* known := is_known mapping_key uri in
        let* _ :=
          if known then ret tt
          else
            let* _ := store mapping_key uri (Leaf SNull) in
            let* _ := record (Resolved mapping_key uri) in
            let* resolved := descend' fuel scope' deref_value in
            store mapping_key uri resolved in
        let* marshaled := lift (marshal_uri uri) in
        ret (pointer mapping_key marshaled)
  | None =>
      match value with
      | Mapping items =>
          let* items' := mapM_items (descend' fuel scope) items in
          ret (Mapping items')
      | Sequence items =>
          let* items' := mapM_list (descend' fuel scope) items in
          ret (Sequence items')
      | Leaf _ => ret value
      end
  end.
Proof. reflexivity. Qed.

(** More fuel changes nothing once a run has ended. *)
Lemma descend_fuel_S fuel :
  forall scope, extends (descend' fuel scope) (descend' (S fuel) scope).
Proof.
  induction fuel as [|fuel IH]; intros scope value st o st' H Ho.
  { cbn in H. inversion H; subst. congruence. }
  rewrite descend_unfold in H. rewrite descend_unfold.
  destruct (ref_target value) as [ref|].
  - apply bindM_inv in H as [([uri deref] & st1 & Hr & H)|[(e & Hr & ->)|[_ ->]]];
      [| |congruence].
    2:{ now rewrite (bindM_raised _ _ _ _ _ Hr). }
    rewrite (bindM_done _ _ _ _ _ Hr).
    apply bindM_inv in H as [(ot & st2 & Hc & H)|[(e & Hc & ->)|[_ ->]]];
      [| |congruence].
    2:{ now rewrite (bindM_raised _ _ _ _ _ Hc). }
    rewrite (bindM_done _ _ _ _ _ Hc).
    destruct (decide (ot = Some _TYPE_PATH_ITEM)) as [Hpi|Hpi].
    + apply bindM_inv in H as [(u & st3 & Hrec & H)|[(e & Hrec & ->)|[_ ->]]];
        [| |congruence].
      2:{ now rewrite (bindM_raised _ _ _ _ _ Hrec). }
      rewrite (bindM_done _ _ _ _ _ Hrec). now apply IH.
    + cbv zeta in *.
      apply bindM_inv in H as [(known & st3 & Hk & H)|[(e & Hk & ->)|[_ ->]]];
        [| |congruence].
      2:{ now rewrite (bindM_raised _ _ _ _ _ Hk). }
      rewrite (bindM_done _ _ _ _ _ Hk).
      apply bindM_inv in H as [(u & st4 & Hfill & H)|[(e & Hfill & ->)|[Hfill ->]]];
        [| |congruence].
      * erewrite bindM_done; [exact H|].
        destruct known; [exact Hfill|].
        apply bindM_inv in Hfill
          as [(u1 & st5 & Hs & Hfill)|[(e & Hs & He)|[_ He]]]; [| |congruence].
        2:{ discriminate. }
        rewrite (bindM_done _ _ _ _ _ Hs).
        apply bindM_inv in Hfill
          as [(u2 & st6 & Hrec & Hfill)|[(e & Hrec & He)|[_ He]]]; [| |congruence].
        2:{ discriminate. }
        rewrite (bindM_done _ _ _ _ _ Hrec).
        apply bindM_inv in Hfill
          as [(resolved & st7 & Hd & Hfill)|[(e & Hd & He)|[_ He]]]; [| |congruence].
        2:{ discriminate. }
        rewrite (bindM_done _ _ _ _ _ (IH _ _ _ _ _ Hd ltac:(discriminate))).
        exact Hfill.
      * erewrite bindM_raised; [reflexivity|].
        destruct known; [exact Hfill|].
        apply bindM_inv in Hfill
          as [(u1 & st5 & Hs & Hfill)|[(e' & Hs & He)|[_ He]]]; [| |congruence].
        2:{ inversion He; subst. now rewrite (bindM_raised _ _ _ _ _ Hs). }
        rewrite (bindM_done _ _ _ _ _ Hs).
        apply bindM_inv in Hfill
          as [(u2 & st6 & Hrec & Hfill)|[(e' & Hrec & He)|[_ He]]]; [| |congruence].
        2:{ inversion He; subst. now rewrite (bindM_raised _ _ _ _ _ Hrec). }
        rewrite (bindM_done _ _ _ _ _ Hrec).
        apply bindM_inv in Hfill
          as [(resolved & st7 & Hd & Hfill)|[(e' & Hd & He)|[_ He]]]; [| |congruence].
        2:{ inversion He; subst.
            now rewrite (bindM_raised _ _ _ _ _ (IH _ _ _ _ _ Hd ltac:(discriminate))). }
        rewrite (bindM_done _ _ _ _ _ (IH _ _ _ _ _ Hd ltac:(discriminate))).
        exact Hfill.
  - destruct value as [items|items|s]; [| |exact H].
    + apply bindM_inv in H as [(r & st1 & Hr & H)|[(e & Hr & ->)|[_ ->]]];
        [| |congruence].
      * now rewrite (bindM_done _ _ _ _ _
                       (mapM_items_extends _ _ _ (IH scope) _ _ _ Hr ltac:(discriminate))).
      * now rewrite (bindM_raised _ _ _ _ _
                       (mapM_items_extends _ _ _ (IH scope) _ _ _ Hr ltac:(discriminate))).
    + apply bindM_inv in H as [(r & st1 & Hr & H)|[(e & Hr & ->)|[_ ->]]];
        [| |congruence].
      * now rewrite (bindM_done _ _ _ _ _
                       (mapM_list_extends _ _ _ (IH scope) _ _ _ Hr ltac:(discriminate))).
      * now rewrite (bindM_raised _ _ _ _ _
                       (mapM_list_extends _ _ _ (IH scope) _ _ _ Hr ltac:(discriminate))).
Qed.

Lemma descend_fuel_mono fuel k scope value st o st' :
  descend' fuel scope value st = (o, st') -> o <> OutOfFuel ->
  descend' (k + fuel) scope value st = (o, st').
Proof.
  intros H Ho. induction k as [|k IH]; [exact H|].
  cbn [Nat.add]. now apply descend_fuel_S.
Qed.

End FuelMonotone.

(* ===================================================================== *)
(** * The end-to-end example *)
(* ===================================================================== *)

Lemma example_descent_value cwd k :
  example_descent cwd (k + 5)
  = (Done (Mapping
             [("definitions",
               Mapping [("Pet", pet_schema);
                        ("Ref", pointer "definitions" "lfile:a.json|..definitions..Pet")])]),
     example_final_state).
Proof.
  unfold example_descent. apply descend_fuel_mono; [|discriminate].
  vm_compute. reflexivity.
Qed.

Lemma example_run_unfold cwd fuel :
  example_run cwd fuel
  = match example_descent cwd fuel with
    | (Done resolved_spec, st) =>
        match merge_buckets
                (fun uri => _marshal_uri cwd uri (Some (urlparse example_url)))
                (known_mappings st) resolved_spec [definitions_warning] with
        | Ok (resolved_spec, ws) => (Done resolved_spec, ws, st)
        | Raise e => (Raised e, [definitions_warning], st)
        end
    | (Raised e, st) => (Raised e, [definitions_warning], st)
    | (OutOfFuel, st) => (OutOfFuel, [definitions_warning], st)
    end.
Proof. reflexivity. Qed.

Lemma example_run_value cwd k :
  example_run cwd (k + 5)
  = (Done (Mapping
             [("definitions",
               Mapping [("lfile:a.json|..definitions..Pet", pet_schema)])]),
     [definitions_warning], example_final_state).
Proof.
  rewrite example_run_unfold, example_descent_value. vm_compute. reflexivity.
Qed.

Lemma example_run_short cwd fuel :
  fuel < 5 -> fst (fst (example_run cwd fuel)) = OutOfFuel.
Proof.
  intros H. do 5 (destruct fuel as [|fuel]; [vm_compute; reflexivity|]). lia.
Qed.

(** C1 as stated fails: no run on the example gives a [definitions] bucket
    with the key [a.json|definitions..Pet]. *)
Lemma end_to_end_counterexample :
  ~ (exists fuel r ws st defs,
        example_run "/srv" fuel = (Done r, ws, st)
        /\ node_get "definitions" r = Some defs
        /\ node_get "a.json|definitions..Pet" defs = Some pet_schema).
Proof.
  intros (fuel & r & ws & st & defs & Hrun & Hdefs & Hkey).
  destruct (le_lt_dec 5 fuel) as [Hle|Hlt].
  - replace fuel with ((fuel - 5) + 5) in Hrun by lia.
    rewrite example_run_value in Hrun. inversion Hrun; subst.
    cbn in Hdefs. inversion Hdefs; subst. vm_compute in Hkey. discriminate.
  - pose proof (example_run_short "/srv" fuel Hlt) as Hs.
    rewrite Hrun in Hs. discriminate.
Qed.

(** C1, as the code has it: for the root document of the example, flattened
    with the origin [file:///specs/a.json], the descent rewrites the [Ref]
    node to a reference to [#/definitions/lfile:a.json|..definitions..Pet],
    and the [definitions] of the returned document is the bucket, whose one
    key [lfile:a.json|..definitions..Pet] is mapped to the schema of [Pet]. *)
Theorem end_to_end_example cwd k :
  (exists st,
      example_descent cwd (k + 5) = (Done
        (Mapping
           [("definitions",
             Mapping [("Pet", pet_schema);
                      ("Ref", Mapping [("$ref", Leaf (SStr
                         "#/definitions/lfile:a.json|..definitions..Pet"))])])]), st))
  /\ (exists r ws st,
         example_run cwd (k + 5) = (Done r, ws, st)
         /\ node_get "definitions" r
            = Some (Mapping [("lfile:a.json|..definitions..Pet", pet_schema)])).
Proof.
  split.
  - eexists. apply example_descent_value.
  - do 3 eexists. split; [apply example_run_value|]. reflexivity.
Qed.

(* ===================================================================== *)
(** * Dicts *)
(* ===================================================================== *)

Section DictFacts.
Context {K V : Type} `{EqDecision K}.
Implicit Types (d : list (K * V)) (k : K) (v : V).

Lemma dict_get_set_eq k v d : dict_get k (dict_set k v d) = Some v.
Proof.
  induction d as [|[k' v'] d IH]; cbn.
  - now rewrite decide_True.
  - destruct (decide (k = k')) as [->|Hne]; cbn.
    + now rewrite decide_True.
    + now rewrite decide_False.
Qed.

Lemma dict_get_set_ne k k' v d :
  k' <> k -> dict_get k' (dict_set k v d) = dict_get k' d.
Proof.
  intros Hne. induction d as [|[k0 v0] d IH]; cbn.
  - now rewrite decide_False.
  - destruct (decide (k = k0)) as [->|Hne0]; cbn.
    + now rewrite !decide_False.
    + destruct (decide (k' = k0)); auto.
Qed.

Lemma dict_mem_set k k' v d :
  dict_mem k' (dict_set k v d) = true <-> k' = k \/ dict_mem k' d = true.
Proof.
  unfold dict_mem. destruct (decide (k' = k)) as [->|Hne].
  - rewrite dict_get_set_eq. tauto.
  - rewrite dict_get_set_ne by assumption. split; [tauto|]. intros [?|?]; congruence.
Qed.

Lemma dict_mem_keys k d : dict_mem k d = true <-> k ∈ dict_keys d.
Proof.
  unfold dict_mem, dict_keys. induction d as [|[k' v'] d IH]; cbn.
  - split; [discriminate|]. intros H. inversion H.
  - rewrite elem_of_cons. destruct (decide (k = k')) as [->|Hne].
    + split; auto.
    + rewrite IH. split; [tauto|]. intros [?|?]; [congruence|assumption].
Qed.

Lemma dict_mem_false_keys k d : dict_mem k d = false <-> k ∉ dict_keys d.
Proof.
  rewrite <- dict_mem_keys. destruct (dict_mem k d); split; congruence.
Qed.

Lemma dict_keys_set_known k v d :
  dict_mem k d = true -> dict_keys (dict_set k v d) = dict_keys d.
Proof.
  unfold dict_mem, dict_keys. induction d as [|[k' v'] d IH]; cbn; [discriminate|].
  destruct (decide (k = k')) as [->|Hne]; cbn; [reflexivity|].
  intros H. now rewrite IH.
Qed.

Lemma dict_keys_set_new k v d :
  dict_mem k d = false -> dict_keys (dict_set k v d) = dict_keys d ++ [k].
Proof.
  unfold dict_mem, dict_keys. induction d as [|[k' v'] d IH]; cbn; [reflexivity|].
  destruct (decide (k = k')) as [->|Hne]; cbn; [discriminate|].
  intros H. now rewrite IH.
Qed.

Lemma dict_set_NoDup k v d :
  NoDup (dict_keys d) -> NoDup (dict_keys (dict_set k v d)).
Proof.
  intros Hd. destruct (dict_mem k d) eqn:Hk.
  - now rewrite dict_keys_set_known.
  - rewrite dict_keys_set_new by assumption.
    apply NoDup_app. repeat split; auto.
    + intros x Hx Hx'. apply list_elem_of_singleton in Hx' as ->.
      apply dict_mem_keys in Hx. congruence.
    + apply NoDup_singleton.
Qed.
End DictFacts.

(* ===================================================================== *)
(** * Postconditions of monadic programs *)
(* ===================================================================== *)

Lemma ends_bind {St A B} (m : ST St A) (k : A -> ST St B) st Q :
  ends_with m st (fun o st1 =>
    match o with
    | Done a => ends_with (k a) st1 Q
    | Raised e => Q (Raised e) st1
    | OutOfFuel => Q OutOfFuel st1
    end) ->
  ends_with (bindM m k) st Q.
Proof. unfold ends_with, bindM. destruct (m st) as [[a|e|] st1]; auto. Qed.

Lemma ends_ret {St A} (a : A) (st : St) (Q : outcome A -> St -> Prop) :
  Q (Done a) st -> ends_with (ret a) st Q.
Proof. auto. Qed.

Lemma ends_lift {St A} (r : result A) (st : St) (Q : outcome A -> St -> Prop) :
  (forall a, r = Ok a -> Q (Done a) st) ->
  (forall e, r = Raise e -> Q (Raised e) st) ->
  ends_with (lift r) st Q.
Proof.
  intros H1 H2. destruct r as [a|e]; [exact (H1 a eq_refl)|exact (H2 e eq_refl)].
Qed.

Lemma ends_weaken {St A} (m : ST St A) st (Q Q' : outcome A -> St -> Prop) :
  ends_with m st Q -> (forall o st', Q o st' -> Q' o st') -> ends_with m st Q'.
Proof. unfold ends_with. auto. Qed.

Lemma ends_eq {St A} (m : ST St A) st o st' (Q : outcome A -> St -> Prop) :
  m st = (o, st') -> ends_with m st Q -> Q o st'.
Proof. unfold ends_with. now intros ->. Qed.

Lemma ends_record ev st (Q : outcome unit -> state -> Prop) :
  Q (Done tt) (mkState (known_mappings st) (calls st ++ [ev])) ->
  ends_with (record ev) st Q.
Proof. auto. Qed.

Lemma ends_is_known mapping_key uri st (Q : outcome bool -> state -> Prop) :
  Q (Done (dict_mem uri (km_get mapping_key (known_mappings st)))) st ->
  ends_with (is_known mapping_key uri) st Q.
Proof. auto. Qed.

Lemma ends_store mapping_key uri value st (Q : outcome unit -> state -> Prop) :
  (forall t, dict_get mapping_key (known_mappings st) = Some t ->
     Q (Done tt)
       (mkState (dict_set mapping_key (dict_set uri value t) (known_mappings st))
                (calls st))) ->
  (forall e, Q (Raised e) st) ->
  ends_with (store mapping_key uri value) st Q.
Proof.
  intros Hd Hr. unfold ends_with, store.
  destruct (dict_get mapping_key (known_mappings st)); cbn; auto.
Qed.

(** A postcondition made of [R], which holds however the program ends, and
    [D], which holds when it returns. *)
Definition post {A} (R D : state -> state -> Prop) (st : state)
  : outcome A -> state -> Prop :=
  fun o st' => R st st' /\ (is_done o = true -> D st st').

Section Traversals.
Variables R D : state -> state -> Prop.
Hypothesis R_refl : forall st, R st st.
Hypothesis R_trans : forall st1 st2 st3, R st1 st2 -> R st2 st3 -> R st1 st3.
Hypothesis D_refl : forall st, D st st.
Hypothesis D_trans : forall st1 st2 st3, D st1 st2 -> D st2 st3 -> D st1 st3.

Lemma mapM_items_post (f : Node -> M Node) items :
  (forall v st, ends_with (f v) st (post R D st)) ->
  forall st, ends_with (mapM_items f items) st (post R D st).
Proof using R_refl R_trans D_refl D_trans.
  intros Hf. induction items as [|[key subval] items IH]; intros st.
  - split; auto.
  - cbn [mapM_items]. apply ends_bind.
    eapply ends_weaken; [apply Hf|]. intros [v|e|] st1 [HR HD]; [|split; auto; discriminate..].
    apply ends_bind. eapply ends_weaken; [apply IH|].
    intros [r|e|] st2 [HR2 HD2]; (split; [eauto|]); cbn; try discriminate.
    intros _. eauto.
Qed.

Lemma mapM_list_post (f : Node -> M Node) items :
  (forall v st, ends_with (f v) st (post R D st)) ->
  forall st, ends_with (mapM_list f items) st (post R D st).
Proof using R_refl R_trans D_refl D_trans.
  intros Hf. induction items as [|subval items IH]; intros st.
  - split; auto.
  - cbn [mapM_list]. apply ends_bind.
    eapply ends_weaken; [apply Hf|]. intros [v|e|] st1 [HR HD]; [|split; auto; discriminate..].
    apply ends_bind. eapply ends_weaken; [apply IH|].
    intros [r|e|] st2 [HR2 HD2]; (split; [eauto|]); cbn; try discriminate.
    intros _. eauto.
Qed.
End Traversals.

(* ===================================================================== *)
(** * What every descent preserves *)
(* ===================================================================== *)

Lemma keys_le_refl st : keys_le st st.
Proof. intros mk u H. exact H. Qed.

Lemma keys_le_trans st1 st2 st3 : keys_le st1 st2 -> keys_le st2 st3 -> keys_le st1 st3.
Proof. intros H12 H23 mk u H. auto. Qed.

Lemma known_in_store mk u v (t : table) (km : list (string * table)) c mk' u' :
  dict_get mk km = Some t ->
  known_in mk' u' (mkState (dict_set mk (dict_set u v t) km) c)
  <-> (dict_mem u' (km_get mk' km) = true \/ (mk' = mk /\ u' = u)).
Proof.
  intros Ht. unfold known_in, km_get. cbn [known_mappings].
  destruct (decide (mk' = mk)) as [->|Hne].
  - rewrite dict_get_set_eq, Ht. cbn [from_option id].
    rewrite dict_mem_set. tauto.
  - rewrite dict_get_set_ne by assumption. split; [tauto|]. intros [?|[? _]]; congruence.
Qed.

Lemma keys_le_store st mk u v (t : table) c :
  dict_get mk (known_mappings st) = Some t ->
  keys_le st (mkState (dict_set mk (dict_set u v t) (known_mappings st)) c).
Proof.
  intros Ht mk' u' H. apply known_in_store; [assumption|]. left. exact H.
Qed.

Lemma known_in_stored st mk u v (t : table) c :
  dict_get mk (known_mappings st) = Some t ->
  known_in mk u (mkState (dict_set mk (dict_set u v t) (known_mappings st)) c).
Proof. intros Ht. apply known_in_store; [assumption|]. right. auto. Qed.

Section Invariant.
Variable resolve : string -> string -> result (string * Node).
Variable marshal_uri : ParseResult -> result string.

(** [Inv] is kept by the three changes of state [descend] makes: the
    placeholder stored for a new location with its call recorded, the
    value stored over a known location, the call recorded for a path
    item. *)
Variable Inv : state -> Prop.
Hypothesis Inv_open : forall st mk u (t : table),
  Inv st -> bucketed resolve mk u -> ~ known_in mk u st ->
  dict_get mk (known_mappings st) = Some t ->
  Inv (mkState (dict_set mk (dict_set u (Leaf SNull) t) (known_mappings st))
               (calls st ++ [Resolved mk u])).
Hypothesis Inv_fill : forall st mk u v (t : table),
  Inv st -> bucketed resolve mk u -> known_in mk u st ->
  dict_get mk (known_mappings st) = Some t ->
  Inv (mkState (dict_set mk (dict_set u v t) (known_mappings st)) (calls st)).
Hypothesis Inv_inline : forall st url,
  Inv st -> inlined resolve url ->
  Inv (mkState (known_mappings st) (calls st ++ [Inlined url])).

Abbreviation kept := (kept_by Inv).

Lemma kept_refl st : kept st st.
Proof. intros H. split; [assumption|apply keys_le_refl]. Qed.

Lemma kept_trans st1 st2 st3 : kept st1 st2 -> kept st2 st3 -> kept st1 st3.
Proof.
  intros H12 H23 H1. destruct (H12 H1) as [H2 K12]. destruct (H23 H2) as [H3 K23].
  split; [assumption|]. eapply keys_le_trans; eassumption.
Qed.

Theorem descend_invariant fuel :
  forall scope value st,
    ends_with (descend resolve marshal_uri fuel scope value) st (post kept always st).
Proof using Inv_open Inv_fill Inv_inline.
  induction fuel as [|fuel IH]; intros scope value st.
  { split; [apply kept_refl|intros _; exact Logic.I]. }
  rewrite descend_unfold. destruct (ref_target value) as [ref|] eqn:Href.
  - apply ends_bind, ends_lift; [intros [url deref] Hres|intros e _; split; [apply kept_refl|intros _; exact Logic.I]].
    apply ends_bind, ends_lift; [intros ot Hcl|intros e _; split; [apply kept_refl|intros _; exact Logic.I]].
    destruct (decide (ot = Some _TYPE_PATH_ITEM)) as [Hpi|Hpi].
    + subst ot. apply ends_bind, ends_record.
      eapply ends_weaken; [apply IH|]. intros o st' [HR _]. split; [|intros _; exact Logic.I].
      intros HI. apply HR. apply Inv_inline; [assumption|]. exists scope, ref, deref. auto.
    + assert (Hb : bucketed resolve (holder_of ot) (urlparse url)).
      { exists scope, ref, url, deref, ot. auto. }
      cbv zeta. apply ends_bind, ends_is_known.
      destruct (dict_mem (urlparse url) (km_get (holder_of ot) (known_mappings st))) eqn:Hk.
      * apply ends_bind, ends_ret. apply ends_bind, ends_lift;
          [intros m _; apply ends_ret|intros e _]; (split; [apply kept_refl|intros _; exact Logic.I]).
      * apply ends_bind. apply ends_bind, ends_store;
          [intros t Ht|intros e; split; [apply kept_refl|intros _; exact Logic.I]].
        apply ends_bind, ends_record. cbn [known_mappings calls].
        apply ends_bind. eapply ends_weaken; [apply IH|].
        assert (Hopen : kept st
                  (mkState (dict_set (holder_of ot)
                              (dict_set (urlparse url) (Leaf SNull) t) (known_mappings st))
                           (calls st ++ [Resolved (holder_of ot) (urlparse url)]))).
        { intros HI. split.
          - apply Inv_open; auto. unfold known_in. rewrite Hk. discriminate.
          - apply keys_le_store. assumption. }
        intros [resolved|e|] st3 [HR _];
          [|split; [eapply kept_trans; eassumption|intros _; exact Logic.I]..].
        assert (H3 : kept st st3) by (eapply kept_trans; eassumption).
        apply ends_store; [intros t' Ht'|intros e; split; [assumption|intros _; exact Logic.I]].
        assert (Hfill : kept st
                  (mkState (dict_set (holder_of ot)
                              (dict_set (urlparse url) resolved t') (known_mappings st3))
                           (calls st3))).
        { intros HI. destruct (Hopen HI) as [HIo Ko]. destruct (HR HIo) as [HI3 K3].
          split.
          - apply Inv_fill; auto. apply K3. now apply known_in_stored.
          - eapply keys_le_trans; [exact Ko|].
            eapply keys_le_trans; [exact K3|]. now apply keys_le_store. }
        apply ends_bind, ends_lift; [intros m _; apply ends_ret|intros e _];
          (split; [assumption|intros _; exact Logic.I]).
  - destruct value as [items|items|s].
    + apply ends_bind. eapply ends_weaken.
      { apply (mapM_items_post kept always kept_refl kept_trans); [constructor|constructor|apply IH]. }
      intros [items'|e|] st1 [HR _]; [apply ends_ret|..]; (split; [assumption|intros _; exact Logic.I]).
    + apply ends_bind. eapply ends_weaken.
      { apply (mapM_list_post kept always kept_refl kept_trans); [constructor|constructor|apply IH]. }
      intros [items'|e|] st1 [HR _]; [apply ends_ret|..]; (split; [assumption|intros _; exact Logic.I]).
    + apply ends_ret. split; [apply kept_refl|intros _; exact Logic.I].
Qed.

End Invariant.

(* ===================================================================== *)
(** * One resolution per location *)
(* ===================================================================== *)

Lemma km_get_set mk mk' (t' : table) (km : list (string * table)) :
  km_get mk' (dict_set mk t' km) = if decide (mk' = mk) then t' else km_get mk' km.
Proof.
  unfold km_get. destruct (decide (mk' = mk)) as [->|Hne].
  - now rewrite dict_get_set_eq.
  - now rewrite dict_get_set_ne.
Qed.

Lemma km_get_some mk (t : table) (km : list (string * table)) :
  dict_get mk km = Some t -> km_get mk km = t.
Proof. unfold km_get. now intros ->. Qed.

Lemma times_resolved_record mk u mk' u' km c :
  times_resolved mk' u' (mkState km (c ++ [Resolved mk u]))
  = times_resolved mk' u' (mkState km c)
    + (if decide (mk' = mk /\ u' = u) then 1 else 0).
Proof.
  unfold times_resolved. cbn [calls]. rewrite count_occ_app. f_equal.
  cbn [count_occ].
  destruct (event_eq_dec (Resolved mk u) (Resolved mk' u')) as [E|E].
  - inversion E; subst. now rewrite decide_True.
  - rewrite decide_False; [reflexivity|]. intros [-> ->]. congruence.
Qed.

Lemma times_resolved_inline url mk' u' km c :
  times_resolved mk' u' (mkState km (c ++ [Inlined url]))
  = times_resolved mk' u' (mkState km c).
Proof.
  unfold times_resolved. cbn [calls]. rewrite count_occ_app. cbn [count_occ].
  destruct (event_eq_dec (Inlined url) (Resolved mk' u')); [discriminate|lia].
Qed.

Section SingleResolution.
Variable resolve : string -> string -> result (string * Node).
Variable marshal_uri : ParseResult -> result string.

Lemma resolved_once_kept fuel scope value st :
  resolved_once st ->
  resolved_once (snd (descend resolve marshal_uri fuel scope value st)).
Proof.
  intros H.
  refine (proj1 (proj1 (descend_invariant resolve marshal_uri resolved_once
                          _ _ _ fuel scope value st) H)).
  - intros st0 mk u t H0 _ Hnew Ht mk' u'.
    rewrite times_resolved_record, known_in_store by assumption.
    destruct (H0 mk' u') as [Hk Hn]. fold (known_in mk' u' st0).
    change (times_resolved mk' u' (mkState _ (calls st0)))
      with (times_resolved mk' u' st0).
    destruct (decide (mk' = mk /\ u' = u)) as [[E1 E2]|Hne].
    + subst mk' u'. split; [intros _; rewrite (proj2 (H0 mk u) Hnew); reflexivity|]. tauto.
    + split.
      * intros [Hin|Heq]; [|tauto]. rewrite (Hk Hin). lia.
      * intros Hnot. rewrite Hn; [lia|]. tauto.
  - intros st0 mk u v t H0 _ Hknown Ht mk' u'.
    rewrite known_in_store by assumption. fold (known_in mk' u' st0).
    change (times_resolved mk' u' _) with (times_resolved mk' u' st0).
    destruct (H0 mk' u') as [Hk Hn]. split.
    + intros [Hin|[-> ->]]; auto.
    + intros Hnot. apply Hn. tauto.
  - intros st0 url H0 _ mk' u'. rewrite times_resolved_inline.
    exact (H0 mk' u').
Qed.

Lemma tables_nodup_kept fuel scope value st :
  tables_nodup st ->
  tables_nodup (snd (descend resolve marshal_uri fuel scope value st)).
Proof.
  intros H.
  refine (proj1 (proj1 (descend_invariant resolve marshal_uri tables_nodup
                          _ _ _ fuel scope value st) H)).
  - intros st0 mk u t H0 _ _ Ht mk'. cbn [known_mappings].
    rewrite km_get_set. destruct (decide (mk' = mk)); [|apply H0].
    apply dict_set_NoDup. rewrite <- (km_get_some _ _ _ Ht). apply H0.
  - intros st0 mk u v t H0 _ _ Ht mk'. cbn [known_mappings].
    rewrite km_get_set. destruct (decide (mk' = mk)); [|apply H0].
    apply dict_set_NoDup. rewrite <- (km_get_some _ _ _ Ht). apply H0.
  - intros st0 url H0 _ mk'. apply H0.
Qed.

Lemma holders_fixed_kept fuel scope value st :
  holders_fixed st ->
  holders_fixed (snd (descend resolve marshal_uri fuel scope value st)).
Proof.
  intros H.
  refine (proj1 (proj1 (descend_invariant resolve marshal_uri holders_fixed
                          _ _ _ fuel scope value st) H)).
  - intros st0 mk u t H0 _ _ Ht. unfold holders_fixed. cbn [known_mappings].
    rewrite dict_keys_set_known; [exact H0|]. unfold dict_mem. now rewrite Ht.
  - intros st0 mk u v t H0 _ _ Ht. unfold holders_fixed. cbn [known_mappings].
    rewrite dict_keys_set_known; [exact H0|]. unfold dict_mem. now rewrite Ht.
  - intros st0 url H0 _. exact H0.
Qed.

Lemma descend_keys_le fuel scope value st :
  keys_le st (snd (descend resolve marshal_uri fuel scope value st)).
Proof.
  refine (proj2 (proj1 (descend_invariant resolve marshal_uri (fun _ => True)
                          _ _ _ fuel scope value st) Logic.I)); auto.
Qed.

(** a reference to a value that is no path item, when the descent
    returns: the node is the pointer made of the holder and the
    marshaled location, and the location is known *)
Lemma descend_ref_done fuel scope value st r st' ref url deref ot :
  ref_target value = Some ref ->
  resolve scope ref = Ok (url, deref) ->
  _determine_object_type deref = Ok ot ->
  ot <> Some _TYPE_PATH_ITEM ->
  descend resolve marshal_uri fuel scope value st = (Done r, st') ->
  exists key,
    marshal_uri (urlparse url) = Ok key
    /\ r = pointer (holder_of ot) key
    /\ known_in (holder_of ot) (urlparse url) st'.
Proof.
  intros Href Hres Hcl Hpi H. destruct fuel as [|fuel]; [discriminate|].
  rewrite descend_unfold, Href, Hres in H. cbn [lift] in H.
  rewrite (bindM_done _ _ st (url, deref) st eq_refl) in H.
  rewrite Hcl in H. cbn [lift] in H.
  rewrite (bindM_done _ _ st ot st eq_refl) in H.
  rewrite decide_False in H by assumption. cbv zeta in H.
  apply bindM_inv in H as [(known & st1 & Hk & H)|[(e & _ & He)|[_ He]]];
    [|discriminate..].
  inversion Hk; subst known st1; clear Hk.
  apply bindM_inv in H as [(u & st2 & Hfill & H)|[(e & _ & He)|[_ He]]];
    [|discriminate..].
  assert (Hknown : known_in (holder_of ot) (urlparse url) st2).
  { destruct (dict_mem (urlparse url) (km_get (holder_of ot) (known_mappings st)))
      eqn:Hmem.
    - inversion Hfill; subst. exact Hmem.
    - apply bindM_inv in Hfill as [(u1 & st3 & _ & Hfill)|[(e & _ & He)|[_ He]]];
        [|discriminate..].
      apply bindM_inv in Hfill as [(u2 & st4 & _ & Hfill)|[(e & _ & He)|[_ He]]];
        [|discriminate..].
      apply bindM_inv in Hfill as [(v & st5 & _ & Hfill)|[(e & _ & He)|[_ He]]];
        [|discriminate..].
      unfold store in Hfill.
      destruct (dict_get (holder_of ot) (known_mappings st5)) as [t|] eqn:Ht;
        [|discriminate].
      inversion Hfill; subst. now apply known_in_stored. }
  destruct (marshal_uri (urlparse url)) as [key|e] eqn:Hm; cbn in H.
  - inversion H; subst. eauto.
  - discriminate.
Qed.

End SingleResolution.

Lemma initial_resolved_once : resolved_once initial_state.
Proof.
  intros mk u. split; [|reflexivity].
  unfold known_in, km_get. cbn.
  repeat (case_decide; cbn; try discriminate).
Qed.

Lemma initial_tables_nodup : tables_nodup initial_state.
Proof.
  intros mk. unfold km_get. cbn.
  repeat (case_decide; cbn; try apply NoDup_nil_2).
Qed.

Lemma initial_holders_fixed : holders_fixed initial_state.
Proof. reflexivity. Qed.

(** a schema referred to twice: one resolution, two equal pointers *)
Example pet_twice_run :
  flattened_spec 6 pet_twice None (Some example_url) no_handlers (_marshal_uri "/srv")
  = (Done
       (Mapping
          [("a", Mapping [("$ref", Leaf (SStr
              "#/definitions/lfile:a.json|..definitions..Pet"))]);
           ("b", Mapping [("$ref", Leaf (SStr
              "#/definitions/lfile:a.json|..definitions..Pet"))]);
           ("definitions",
            Mapping [("lfile:a.json|..definitions..Pet", pet_schema)])]),
     [definitions_warning],
     mkState
       [("parameters", []); ("responses", []);
        ("definitions", [(pet_location, pet_schema)])]
       [Resolved "definitions" pet_location]).
Proof. vm_compute. reflexivity. Qed.

(** C3 as stated fails for a path item: referred to twice, its value is
    descended twice, no pointer is made and no table holds it. *)
Lemma single_resolution_counterexample :
  exists r ws st,
    path_item_twice_run = (Done r, ws, st)
    /\ times_inlined "file:///specs/a.json#/x-items/item" st = 2
    /\ times_resolved "definitions"
         (urlparse "file:///specs/a.json#/x-items/item") st = 0
    /\ known_mappings st = initial_known_mappings
    /\ node_get "paths" r
       = Some (Mapping [("/a", Mapping [("get", Mapping [])]);
                        ("/b", Mapping [("get", Mapping [])])]).
Proof. do 3 eexists. vm_compute. repeat split; reflexivity. Qed.

(** C3, as the code has it, for the locations whose value is no path item:
    at the end of a descent every location of a table had its value
    computed once, however many references lead to it, a table holds one
    entry for a location, and every reference to the location becomes the
    same pointer, made of the holder and the marshaled location. *)
Theorem single_resolution resolve marshal_uri fuel scope root :
  let st := snd (descend resolve marshal_uri fuel scope root initial_state) in
  (forall mapping_key uri,
      known_in mapping_key uri st -> times_resolved mapping_key uri st = 1)
  /\ (forall mapping_key uri,
         ~ known_in mapping_key uri st -> times_resolved mapping_key uri st = 0)
  /\ (forall mapping_key, NoDup (dict_keys (km_get mapping_key (known_mappings st))))
  /\ (forall fuel' scope' value st0 r st' ref url deref_value object_type,
         ref_target value = Some ref ->
         resolve scope' ref = Ok (url, deref_value) ->
         _determine_object_type deref_value = Ok object_type ->
         object_type <> Some _TYPE_PATH_ITEM ->
         descend resolve marshal_uri fuel' scope' value st0 = (Done r, st') ->
         exists key,
           marshal_uri (urlparse url) = Ok key
           /\ r = Mapping [("$ref", Leaf (SStr
                   ("#/" +:+ holder_of object_type +:+ "/" +:+ key)))]
           /\ known_in (holder_of object_type) (urlparse url) st').
Proof.
  cbv zeta.
  pose proof (resolved_once_kept resolve marshal_uri fuel scope root _
                initial_resolved_once) as Honce.
  repeat split.
  - intros mk u. apply Honce.
  - intros mk u. apply Honce.
  - apply tables_nodup_kept, initial_tables_nodup.
  - intros. eapply descend_ref_done; eassumption.
Qed.

(* ===================================================================== *)
(** * Path items *)
(* ===================================================================== *)

Lemma non_extension_key_in (key : string) (object_dict : list (string * Node)) :
  dict_mem key object_dict = true -> PyStr.startswith "x-" key = false ->
  key ∈ non_extension_keys object_dict.
Proof.
  intros Hmem Hx. unfold non_extension_keys.
  apply elem_of_list_to_set, list_elem_of_In, filter_In. split.
  - apply list_elem_of_In, dict_mem_keys, Hmem.
  - now rewrite Hx.
Qed.

(** a path item has no [$ref] key: it is no reference *)
Lemma path_item_no_ref_key (object_dict : list (string * Node)) :
  determine_dict_type object_dict = Some _TYPE_PATH_ITEM ->
  dict_get "$ref" object_dict = None.
Proof.
  unfold determine_dict_type. intros H.
  destruct (dict_get "$ref" object_dict) as [v|] eqn:Hget; [|reflexivity].
  exfalso.
  assert (Hin : "$ref" ∈ non_extension_keys object_dict).
  { apply non_extension_key_in; [|reflexivity]. unfold dict_mem. now rewrite Hget. }
  assert (Hverb : "$ref" ∉ http_operations).
  { apply (bool_decide_eq_false_1 ("$ref" ∈ http_operations)). vm_compute. reflexivity. }
  destruct (dict_mem "in" object_dict && dict_mem "name" object_dict); [discriminate|].
  destruct (bool_decide (non_extension_keys object_dict ∩ http_operations = ∅));
    cbn [negb] in H.
  - repeat match type of H with
           | (if ?b then _ else _) = _ => destruct b; try discriminate
           end.
  - destruct (bool_decide (non_extension_keys object_dict ∖ http_operations = ∅))
      eqn:He.
    + apply bool_decide_eq_true_1 in He. set_solver.
    + cbn [orb] in H.
      destruct (bool_decide (non_extension_keys object_dict ∖ http_operations
                             = {[ "parameters" ]})) eqn:Hp; [|discriminate].
      apply bool_decide_eq_true_1 in Hp.
      assert (Hr : "$ref" ∈ non_extension_keys object_dict ∖ http_operations)
        by set_solver.
      rewrite Hp in Hr. apply elem_of_singleton in Hr. discriminate.
Qed.

Lemma path_item_no_ref (object_dict : list (string * Node)) :
  determine_dict_type object_dict = Some _TYPE_PATH_ITEM ->
  ref_target (Mapping object_dict) = None.
Proof. intros H. unfold ref_target. now rewrite (path_item_no_ref_key _ H). Qed.

Lemma mapM_items_keys {St V W} (f : V -> ST St W) (items : list (string * V))
    (st : St) items' st' :
  mapM_items f items st = (Done items', st') ->
  List.map fst items' = List.map fst items.
Proof.
  revert st items'. induction items as [|[key v] items IH]; intros st items' H.
  - inversion H. reflexivity.
  - cbn [mapM_items] in H.
    apply bindM_inv in H as [(v' & st1 & _ & H)|[(e & _ & He)|[_ He]]];
      [|discriminate..].
    apply bindM_inv in H as [(r & st2 & Hr & H)|[(e & _ & He)|[_ He]]];
      [|discriminate..].
    inversion H; subst. cbn. f_equal. eapply IH, Hr.
Qed.

Section PathItems.
Variable resolve : string -> string -> result (string * Node).
Variable marshal_uri : ParseResult -> result string.

Lemma only_bucketed_kept fuel scope value st :
  only_bucketed resolve st ->
  only_bucketed resolve (snd (descend resolve marshal_uri fuel scope value st)).
Proof.
  intros H.
  refine (proj1 (proj1 (descend_invariant resolve marshal_uri (only_bucketed resolve)
                          _ _ _ fuel scope value st) H)).
  - intros st0 mk u t H0 Hb _ Ht mk' u' Hk.
    apply known_in_store in Hk as [Hk|[-> ->]]; auto.
  - intros st0 mk u v t H0 Hb _ Ht mk' u' Hk.
    apply known_in_store in Hk as [Hk|[-> ->]]; auto.
  - intros st0 url H0 _ mk' u' Hk. now apply H0.
Qed.

Lemma initial_only_bucketed : only_bucketed resolve initial_state.
Proof.
  intros mk u Hk. exfalso. revert Hk. unfold known_in, km_get. cbn.
  repeat (case_decide; cbn; try discriminate).
Qed.

Lemma inlined_not_bucketed url mk :
  consistent resolve -> inlined resolve url -> ~ bucketed resolve mk (urlparse url).
Proof.
  intros Hc (scope & ref & deref & Hres & Hcl)
    (scope' & ref' & url' & deref' & ot & Hres' & Hcl' & Hpi & _ & Hu).
  pose proof (Hc _ _ _ _ _ _ _ _ Hres Hres' Hu) as E.
  rewrite Hcl, Hcl' in E. congruence.
Qed.

(** C7: a reference whose value is classified as a path item gives the
    descent of that value, under the scope of its location: the step
    stores nothing and makes no pointer.  The value descended is a
    mapping with the keys of the path item, so no pointer node; and, when
    the resolver gives one category to a location, no table ever holds
    the location. *)
Theorem path_item_inlined scope value ref url deref_value :
  ref_target value = Some ref ->
  resolve scope ref = Ok (url, deref_value) ->
  _determine_object_type deref_value = Ok (Some _TYPE_PATH_ITEM) ->
  (forall fuel st,
      descend resolve marshal_uri (S fuel) scope value st
      = descend resolve marshal_uri fuel url deref_value
          (mkState (known_mappings st) (calls st ++ [Inlined url])))
  /\ (forall fuel st r st',
         descend resolve marshal_uri fuel url deref_value st = (Done r, st') ->
         exists items items',
           deref_value = Mapping items /\ r = Mapping items'
           /\ List.map fst items' = List.map fst items
           /\ ref_target r = None)
  /\ (consistent resolve ->
      forall fuel scope0 root mapping_key,
        ~ known_in mapping_key (urlparse url)
            (snd (descend resolve marshal_uri fuel scope0 root initial_state))).
Proof.
  intros Href Hres Hcl. repeat split.
  - intros fuel st. rewrite descend_unfold, Href, Hres. cbn [lift].
    rewrite (bindM_done _ _ st (url, deref_value) st eq_refl).
    rewrite Hcl. cbn [lift].
    rewrite (bindM_done _ _ st (Some _TYPE_PATH_ITEM) st eq_refl).
    rewrite decide_True by reflexivity. reflexivity.
  - intros fuel st r st' H.
    destruct deref_value as [items|items|s].
    + cbn in Hcl. inversion Hcl as [Hd]. pose proof (path_item_no_ref _ Hd) as Hno.
      destruct fuel as [|fuel]; [discriminate|].
      rewrite descend_unfold, Hno in H.
      apply bindM_inv in H as [(items' & st1 & Hmap & H)|[(e & _ & He)|[_ He]]];
        [|discriminate..].
      inversion H; subst. exists items, items'.
      pose proof (mapM_items_keys _ _ _ _ _ Hmap) as Hkeys.
      repeat split; auto.
      unfold ref_target.
      destruct (dict_get "$ref" items') as [v|] eqn:Hget; [|reflexivity].
      exfalso.
      assert (Hin : "$ref" ∈ dict_keys items').
      { apply dict_mem_keys. unfold dict_mem. now rewrite Hget. }
      unfold dict_keys in Hin. rewrite Hkeys in Hin.
      apply (dict_mem_keys (V:=Node)) in Hin. unfold dict_mem in Hin.
      rewrite (path_item_no_ref_key _ Hd) in Hin. discriminate.
    + cbn in Hcl.
      destruct (existsb (is_str_leaf "in") items && existsb (is_str_leaf "name") items);
        discriminate.
    + destruct s as [s| | | |]; cbn in Hcl; try discriminate.
      destruct (PyStr.contains "in" s && PyStr.contains "name" s); discriminate.
  - intros Hcons fuel scope0 root mk Hk.
    apply (only_bucketed_kept fuel scope0 root _ initial_only_bucketed) in Hk.
    eapply inlined_not_bucketed; [exact Hcons| |exact Hk].
    exists scope, ref, deref_value. auto.
Qed.

End PathItems.

Lemma pets_resolve_consistent : consistent pets_resolve.
Proof.
  intros scope ref url v scope' ref' url' v' H H' _. unfold pets_resolve in *.
  destruct (String.eqb ref "#/x-paths/pets"); [|discriminate].
  destruct (String.eqb ref' "#/x-paths/pets"); [|discriminate].
  inversion H; inversion H'; subst. reflexivity.
Qed.

Lemma path_item_inlined_witness :
  (forall fuel st,
      descend pets_resolve plain_marshal (S fuel) "" pets_ref st
      = descend pets_resolve plain_marshal fuel "file:///specs/a.json#/x-paths/pets"
          pets_item
          (mkState (known_mappings st)
             (calls st ++ [Inlined "file:///specs/a.json#/x-paths/pets"])))
  /\ (forall mapping_key,
         ~ known_in mapping_key (urlparse "file:///specs/a.json#/x-paths/pets")
             (snd (descend pets_resolve plain_marshal 6 "" path_item_doc initial_state))).
Proof.
  destruct (path_item_inlined pets_resolve plain_marshal "" pets_ref "#/x-paths/pets"
              "file:///specs/a.json#/x-paths/pets" pets_item)
    as (Hstep & _ & Hnever).
  - reflexivity.
  - reflexivity.
  - vm_compute. reflexivity.
  - split; [exact Hstep|]. intros mapping_key.
    apply Hnever. exact pets_resolve_consistent.
Defined.

Example path_item_doc_run :
  flattened_spec 6 path_item_doc (Some (mkResolver "" pets_resolve)) (Some example_url)
    no_handlers (_marshal_uri "/srv")
  = (Done
       (Mapping
          [("paths", Mapping [("/pets", pets_item)]);
           ("x-paths", Mapping [("pets", pets_item)])]),
     [definitions_warning],
     mkState [("parameters", []); ("responses", []); ("definitions", [])]
       [Inlined "file:///specs/a.json#/x-paths/pets"]).
Proof. vm_compute. reflexivity. Qed.

(* ===================================================================== *)
(** * The buckets of the returned document *)
(* ===================================================================== *)

Lemma node_depth_item key (child : Node) items :
  (key, child) ∈ items -> node_depth child < node_depth (Mapping items).
Proof.
  cbn [node_depth]. induction items as [|kv items IH]; intros Hin.
  - inversion Hin.
  - apply elem_of_cons in Hin as [<-|Hin]; cbn [fold_right snd]; [lia|].
    specialize (IH Hin). lia.
Qed.

Lemma node_depth_elem (child : Node) items :
  child ∈ items -> node_depth child < node_depth (Sequence items).
Proof.
  cbn [node_depth]. induction items as [|x items IH]; intros Hin.
  - inversion Hin.
  - apply elem_of_cons in Hin as [<-|Hin]; cbn [fold_right]; [lia|].
    specialize (IH Hin). lia.
Qed.

Lemma mapM_items_id (f : Node -> M Node) items st :
  (forall key child, (key, child) ∈ items -> f child st = (Done child, st)) ->
  mapM_items f items st = (Done items, st).
Proof.
  induction items as [|[key child] items IH]; intros Hf; [reflexivity|].
  cbn [mapM_items].
  rewrite (bindM_done _ _ _ _ _ (Hf key child ltac:(left))).
  rewrite (bindM_done _ _ _ _ _ (IH ltac:(intros; apply (Hf key0); now right))).
  reflexivity.
Qed.

Lemma mapM_list_id (f : Node -> M Node) items st :
  (forall child, child ∈ items -> f child st = (Done child, st)) ->
  mapM_list f items st = (Done items, st).
Proof.
  induction items as [|child items IH]; intros Hf; [reflexivity|].
  cbn [mapM_list].
  rewrite (bindM_done _ _ _ _ _ (Hf child ltac:(left))).
  rewrite (bindM_done _ _ _ _ _ (IH ltac:(intros; apply Hf; now right))).
  reflexivity.
Qed.

Lemma ref_free_target v : ref_free v = true -> ref_target v = None.
Proof.
  intros H. assert (Hr : is_ref v = false).
  { destruct v; cbn [ref_free] in H; apply andb_true_iff in H as [H _];
      now apply negb_true_iff in H. }
  unfold is_ref in Hr. destruct (ref_target v); [discriminate|reflexivity].
Qed.

Section ReferenceFree.
Variable resolve : string -> string -> result (string * Node).
Variable marshal_uri : ParseResult -> result string.

(** a document without references is returned as it is, and nothing is
    stored *)
Lemma descend_ref_free fuel :
  forall scope value st,
    ref_free value = true -> node_depth value <= fuel ->
    descend resolve marshal_uri fuel scope value st = (Done value, st).
Proof.
  induction fuel as [|fuel IH]; intros scope value st Hfree Hdepth.
  { destruct value; cbn in Hdepth; lia. }
  rewrite descend_unfold, (ref_free_target _ Hfree).
  destruct value as [items|items|s]; [| |reflexivity].
  - erewrite bindM_done; [reflexivity|].
    apply mapM_items_id. intros key child Hin. apply IH.
    + cbn [ref_free] in Hfree. apply andb_true_iff in Hfree as [_ Hall].
      rewrite forallb_forall in Hall.
      apply (Hall (key, child)), list_elem_of_In, Hin.
    + pose proof (node_depth_item _ _ _ Hin). lia.
  - erewrite bindM_done; [reflexivity|].
    apply mapM_list_id. intros child Hin. apply IH.
    + cbn [ref_free] in Hfree. apply andb_true_iff in Hfree as [_ Hall].
      rewrite forallb_forall in Hall. apply Hall, list_elem_of_In, Hin.
    + pose proof (node_depth_elem _ _ Hin). lia.
Qed.

(** the last loop leaves alone every key whose tables are empty *)
Lemma merge_buckets_skip km :
  forall resolved warned r ws key,
    merge_buckets marshal_uri km resolved warned = Ok (r, ws) ->
    (forall t : table, (key, t) ∈ km -> t = []) ->
    node_get key r = node_get key resolved.
Proof.
  induction km as [|[mk mappings] km IH]; intros resolved warned r ws key H Hempty.
  { inversion H. reflexivity. }
  cbn [merge_buckets] in H.
  destruct (_warn_if_uri_clash_on_same_marshaled_representation mappings marshal_uri)
    as [ws1|e]; [|discriminate]. cbn in H.
  assert (Htail : forall t : table, (key, t) ∈ km -> t = []).
  { intros t Ht. apply Hempty. now right. }
  destruct mappings as [|entry mappings].
  - cbn in H. exact (IH _ _ _ _ _ H Htail).
  - assert (Hne : key <> mk).
    { intros ->. specialize (Hempty (entry :: mappings) ltac:(left)). discriminate. }
    change (0 <? length (entry :: mappings))%nat with true in H.
    cbn iota in H.
    destruct (marshal_items marshal_uri (entry :: mappings)) as [items|e];
      [|discriminate]. cbn in H.
    destruct resolved as [items0|items0|s]; try discriminate. cbn in H.
    rewrite (IH _ _ _ _ _ H Htail). cbn [node_get].
    now apply dict_get_set_ne.
Qed.

End ReferenceFree.

Lemma dict_get_in {K V} `{EqDecision K} (k : K) (v : V) (d : list (K * V)) :
  NoDup (dict_keys d) -> (k, v) ∈ d -> dict_get k d = Some v.
Proof.
  unfold dict_keys. induction d as [|[k' v'] d IH]; intros Hnd Hin.
  - inversion Hin.
  - cbn in *. apply NoDup_cons in Hnd as [Hk' Hnd].
    apply elem_of_cons in Hin as [E|Hin].
    + inversion E; subst. now rewrite decide_True.
    + rewrite decide_False; [auto|]. intros ->. apply Hk'.
      apply (list_elem_of_fmap_2 fst) in Hin. exact Hin.
Qed.

Lemma initial_known_mappings_eq :
  initial_known_mappings = [("parameters", []); ("responses", []); ("definitions", [])].
Proof. vm_compute. reflexivity. Qed.

Lemma merge_initial marshal_uri resolved warned :
  merge_buckets marshal_uri initial_known_mappings resolved warned
  = Ok (resolved, warned).
Proof. rewrite initial_known_mappings_eq. cbn. now rewrite !app_nil_r. Qed.

(** [flattened_spec], when it returns, is a descent followed by the merge
    of the buckets *)
Lemma flattened_spec_done fuel spec spec_resolver spec_url handlers marshal_fn r ws st :
  flattened_spec fuel spec spec_resolver spec_url handlers marshal_fn = (Done r, ws, st) ->
  exists rs marshal_uri resolved warned,
    descend (resolve_in rs) marshal_uri fuel (resolution_scope rs) spec initial_state
    = (Done resolved, st)
    /\ merge_buckets marshal_uri (known_mappings st) resolved warned = Ok (r, ws).
Proof.
  unfold flattened_spec. intros H.
  match type of H with
  | match ?x with Ok _ => _ | Raise _ => _ end = _ => destruct x as [rs|e]; [|discriminate]
  end.
  match type of H with
  | context [descend ?res ?m fuel ?sc spec initial_state] =>
      destruct (descend res m fuel sc spec initial_state) as [[resolved|e|] st1] eqn:Hd;
      try discriminate;
      exists rs, m, resolved
  end.
  match type of H with
  | context [merge_buckets ?m ?km ?rsv ?w] =>
      destruct (merge_buckets m km rsv w) as [[r' ws']|e] eqn:Hm; [|discriminate];
      exists w
  end.
  inversion H; subst. auto.
Qed.

Lemma flattened_spec_ref_free fuel spec spec_resolver spec_url handlers marshal_fn :
  ref_free spec = true -> node_depth spec <= fuel ->
  resolver_available spec_resolver spec_url = true ->
  exists ws,
    flattened_spec fuel spec spec_resolver spec_url handlers marshal_fn
    = (Done spec, ws, initial_state).
Proof.
  intros Hfree Hdepth Hav. unfold flattened_spec.
  destruct spec_resolver as [rs|]; [|destruct spec_url as [u|]; [|discriminate]].
  - rewrite descend_ref_free by assumption. cbn [known_mappings initial_state].
    rewrite merge_initial. eauto.
  - cbn in Hav. destruct (PyStr.is_empty u); [discriminate|].
    rewrite descend_ref_free by assumption. cbn [known_mappings initial_state].
    rewrite merge_initial. eauto.
Qed.

(** C10: in the document [flattened_spec] returns, a key whose table stayed
    empty is what it is in the descended document: only the tables with an
    entry are attached.  A document without references, given enough
    depth and a resolver, is returned as it is, no table having an entry,
    and so has no new key; any run on it that returns, returns it. *)
Theorem empty_buckets_not_attached fuel spec spec_resolver spec_url handlers marshal_fn :
  (forall r ws st,
      flattened_spec fuel spec spec_resolver spec_url handlers marshal_fn
      = (Done r, ws, st) ->
      (exists rs marshal_uri resolved,
          descend (resolve_in rs) marshal_uri fuel (resolution_scope rs) spec
            initial_state = (Done resolved, st)
          /\ forall key,
               km_get key (known_mappings st) = [] ->
               node_get key r = node_get key resolved)
      /\ (ref_free spec = true ->
          r = spec /\ known_mappings st = initial_known_mappings))
  /\ (ref_free spec = true -> node_depth spec <= fuel ->
      resolver_available spec_resolver spec_url = true ->
      exists ws,
        flattened_spec fuel spec spec_resolver spec_url handlers marshal_fn
        = (Done spec, ws, initial_state)).
Proof.
  split; [|apply flattened_spec_ref_free].
  intros r ws st H. pose proof H as H0.
  apply flattened_spec_done in H as (rs & marshal_uri & resolved & warned & Hd & Hm).
  split.
  - exists rs, marshal_uri, resolved. split; [exact Hd|].
    intros key Hkey. eapply merge_buckets_skip; [exact Hm|].
    intros t Ht. rewrite <- Hkey. symmetry. apply km_get_some, dict_get_in; [|exact Ht].
    pose proof (holders_fixed_kept (resolve_in rs) marshal_uri fuel
                  (resolution_scope rs) spec _ initial_holders_fixed) as Hk.
    rewrite Hd in Hk. cbn [snd] in Hk. rewrite Hk.
    repeat (apply NoDup_cons; split; [set_solver|]). apply NoDup_nil_2.
  - intros Hfree.
    pose proof (descend_fuel_mono (resolve_in rs) marshal_uri fuel (node_depth spec)
                  (resolution_scope rs) spec initial_state _ _ Hd ltac:(discriminate))
      as Hmore.
    rewrite descend_ref_free in Hmore by (auto; lia).
    inversion Hmore; subst. rewrite merge_initial in Hm. inversion Hm; subst. auto.
Qed.

Lemma empty_buckets_not_attached_witness :
  exists ws,
    flattened_spec 5 plain_spec None (Some example_url) no_handlers (_marshal_uri "/srv")
    = (Done plain_spec, ws, initial_state).
Proof.
  apply (empty_buckets_not_attached 5 plain_spec None (Some example_url) no_handlers
           (_marshal_uri "/srv")).
  - reflexivity.
  - vm_compute. lia.
  - reflexivity.
Defined.

Example clash_table_warning :
  _warn_if_uri_clash_on_same_marshaled_representation clash_table plain_marshal
  = Ok ["http://h/a#b, http://h/a|b clashed to http:....h..a|b"].
Proof. vm_compute. reflexivity. Qed.

(* ===================================================================== *)
(** * The collision reporter *)
(* ===================================================================== *)

Lemma insert_sorted_perm x l : Permutation (PyStr.insert_sorted x l) (x :: l).
Proof.
  induction l as [|y l IH]; cbn; [reflexivity|].
  destruct (String.leb x y); [reflexivity|].
  rewrite IH. apply perm_swap.
Qed.

Lemma sorted_perm l : Permutation (PyStr.sorted l) l.
Proof.
  induction l as [|x l IH]; cbn; [reflexivity|].
  rewrite insert_sorted_perm. now constructor.
Qed.

Lemma insert_sorted_sorted x l :
  Sorted str_le l -> Sorted str_le (PyStr.insert_sorted x l).
Proof.
  induction l as [|y l IH]; intros Hs; cbn.
  - repeat constructor.
  - destruct (String.leb x y) eqn:Hxy.
    + constructor; [assumption|]. constructor. exact Hxy.
    + inversion Hs as [|? ? Hs' Hhd]; subst.
      constructor; [auto|].
      assert (Hyx : str_le y x).
      { unfold str_le. destruct (String.leb_total x y); congruence. }
      destruct l as [|z l]; cbn.
      * constructor. exact Hyx.
      * inversion Hhd; subst. destruct (String.leb x z); constructor; assumption.
Qed.

Lemma sorted_sorted l : Sorted str_le (PyStr.sorted l).
Proof.
  induction l as [|x l IH]; cbn; [constructor|]. now apply insert_sorted_sorted.
Qed.

Lemma dict_get_some_in {K V} `{EqDecision K} (k : K) (v : V) (d : list (K * V)) :
  dict_get k d = Some v -> (k, v) ∈ d.
Proof.
  induction d as [|[k' v'] d IH]; cbn; [discriminate|].
  destruct (decide (k = k')) as [->|Hne]; intros H.
  - inversion H; subst. left.
  - right. auto.
Qed.

Lemma dict_set_length {K V} `{EqDecision K} (k : K) (v : V) (d : list (K * V)) :
  List.length (dict_set k v d)
  = if dict_mem k d then List.length d else S (List.length d).
Proof.
  unfold dict_mem. induction d as [|[k' v'] d IH]; cbn; [reflexivity|].
  destruct (decide (k = k')); cbn; [reflexivity|].
  rewrite IH. now destruct (dict_get k d).
Qed.

Lemma filter_keys_NoDup {V} (f : string * V -> bool) (d : list (string * V)) :
  NoDup (dict_keys d) -> NoDup (List.map fst (List.filter f d)).
Proof.
  unfold dict_keys. induction d as [|kv d IH]; cbn; intros Hnd; [constructor|].
  apply NoDup_cons in Hnd as [Hk Hnd]. destruct (f kv); cbn; [|auto].
  apply NoDup_cons. split; [|auto].
  intros Hin. apply Hk. apply list_elem_of_fmap in Hin as (kv' & -> & Hin).
  apply list_elem_of_fmap. exists kv'. split; [reflexivity|].
  apply list_elem_of_In. apply list_elem_of_In, filter_In in Hin. tauto.
Qed.

Lemma filter_all_false {A} (f : A -> bool) (l : list A) :
  (forall x, In x l -> f x = false) -> List.filter f l = [].
Proof.
  induction l as [|x l IH]; cbn; intros H; [reflexivity|].
  rewrite (H x (or_introl eq_refl)). apply IH. intros y Hy. apply H. now right.
Qed.

Section Reporter.
Variable marshal_uri : ParseResult -> result string.

Abbreviation group := (clash_group marshal_uri).

Lemma set_add_fresh uri s : uri ∉ s -> set_add uri s = s ++ [uri].
Proof. intros H. unfold set_add. now rewrite decide_False. Qed.

Lemma group_snoc key k uri seen :
  marshal_uri uri = Ok k ->
  group key (seen ++ [uri])
  = group key seen ++ (if String.eqb k key then [uri] else []).
Proof.
  intros Hm. unfold clash_group. rewrite List.filter_app. f_equal. cbn.
  unfold marshals_to. rewrite Hm. now destruct (String.eqb k key).
Qed.

Lemma group_subset key seen uri : uri ∈ group key seen -> uri ∈ seen.
Proof.
  unfold clash_group. intros H. apply list_elem_of_In.
  apply list_elem_of_In, filter_In in H. tauto.
Qed.

Lemma grouped_nil : grouped marshal_uri [] [].
Proof.
  repeat split; cbn; auto.
  - constructor.
  - intros _ key s H. discriminate.
Qed.

Lemma grouped_step d seen uri k :
  grouped marshal_uri d seen -> uri ∉ seen -> marshal_uri uri = Ok k ->
  grouped marshal_uri (defaultdict_add k uri d) (seen ++ [uri]).
Proof.
  intros (Hnd & Hget & Hlen & Hone) Hfresh Hm.
  assert (Hadd : defaultdict_add k uri d = dict_set k (group k seen ++ [uri]) d).
  { unfold defaultdict_add. rewrite (Hget k).
    destruct (group k seen) as [|u s] eqn:Hg; [reflexivity|].
    rewrite set_add_fresh; [reflexivity|].
    intros Hin. apply Hfresh. apply (group_subset k). now rewrite Hg. }
  rewrite Hadd. clear Hadd.
  assert (Hmem : dict_mem k d = match group k seen with [] => false | _ => true end).
  { unfold dict_mem. rewrite (Hget k). now destruct (group k seen). }
  repeat split.
  - now apply dict_set_NoDup.
  - intros key. rewrite (group_snoc key k uri seen Hm).
    destruct (String.eqb k key) eqn:Hk.
    + apply String.eqb_eq in Hk as <-. rewrite dict_get_set_eq.
      now destruct (group k seen).
    + apply String.eqb_neq in Hk. rewrite dict_get_set_ne by congruence.
      rewrite app_nil_r. apply Hget.
  - rewrite dict_set_length, length_app. cbn. destruct (dict_mem k d); lia.
  - rewrite dict_set_length, length_app, Hmem. cbn.
    destruct (group k seen) as [|u s] eqn:Hg; [|lia].
    intros Heq key s0 Hs0. assert (Hd : List.length d = List.length seen) by lia.
    destruct (decide (key = k)) as [->|Hne].
    + rewrite dict_get_set_eq in Hs0. inversion Hs0; subst. cbn. lia.
    + rewrite dict_get_set_ne in Hs0 by assumption. eapply Hone; eassumption.
Qed.

Lemma group_by_marshaled_grouped uris :
  forall seen d,
    grouped marshal_uri d seen -> NoDup (seen ++ uris) ->
    Forall (fun uri => is_ok (marshal_uri uri) = true) uris ->
    exists d',
      group_by_marshaled marshal_uri uris d = Ok d'
      /\ grouped marshal_uri d' (seen ++ uris).
Proof.
  induction uris as [|uri uris IH]; intros seen d Hg Hnd Hok.
  - exists d. rewrite app_nil_r. auto.
  - apply Forall_cons in Hok as [Hu Hok].
    destruct (marshal_uri uri) as [k|e] eqn:Hm; [|discriminate].
    cbn [group_by_marshaled]. rewrite Hm. cbn.
    replace (seen ++ uri :: uris) with ((seen ++ [uri]) ++ uris) in *
      by now rewrite <- app_assoc.
    apply IH; [|assumption..].
    apply grouped_step; [assumption| |assumption].
    apply NoDup_app in Hnd as (Hnd & _ & _).
    apply NoDup_app in Hnd as (_ & Hdis & _).
    intros Hin. apply (Hdis _ Hin). left.
Qed.

(** distinct marshaled keys leave no group of two *)
Lemma group_small key uris :
  NoDup (List.map marshal_uri uris) -> List.length (group key uris) <= 1.
Proof.
  unfold clash_group. induction uris as [|uri uris IH]; cbn; intros Hnd; [lia|].
  apply NoDup_cons in Hnd as [Hfresh Hnd]. specialize (IH Hnd).
  destruct (marshals_to marshal_uri key uri) eqn:Hm; [|assumption].
  cbn. destruct (List.filter (marshals_to marshal_uri key) uris) as [|u s] eqn:Hf;
    [cbn; lia|].
  exfalso. apply Hfresh.
  assert (Hu : In u (List.filter (marshals_to marshal_uri key) uris))
    by (rewrite Hf; now left).
  apply filter_In in Hu as [Hin Hu].
  unfold marshals_to in Hm, Hu.
  destruct (marshal_uri uri) as [k|] eqn:E1; [|discriminate].
  destruct (marshal_uri u) as [k'|] eqn:E2; [|discriminate].
  apply String.eqb_eq in Hm, Hu. subst k k'.
  apply list_elem_of_fmap. exists u. split; [congruence|]. now apply list_elem_of_In.
Qed.

(** the reporter on a table whose locations are distinct and can be
    marshaled *)
Lemma reporter_spec {V} (uri_schema_mappings : list (ParseResult * V)) :
  let uris := dict_keys uri_schema_mappings in
  NoDup uris ->
  Forall (fun uri => is_ok (marshal_uri uri) = true) uris ->
  exists keys,
    _warn_if_uri_clash_on_same_marshaled_representation uri_schema_mappings marshal_uri
    = Ok (List.map (fun key => clash_message (group key uris) key) keys)
    /\ NoDup keys
    /\ (forall key, key ∈ keys <-> 2 <= List.length (group key uris))
    /\ (NoDup (List.map marshal_uri uris) -> keys = []).
Proof.
  intros uris Hnd Hok.
  destruct (group_by_marshaled_grouped uris [] [] grouped_nil Hnd Hok)
    as (d & Hrun & Hnd' & Hget & Hlen & Hone).
  cbn [app] in *.
  set (big := fun kv : string * list ParseResult => (1 <? List.length (snd kv))%nat).
  exists (List.map fst (List.filter big d)).
  assert (Hkeys : forall key,
             key ∈ List.map fst (List.filter big d) <-> 2 <= List.length (group key uris)).
  { intros key. split.
    - intros Hin. apply list_elem_of_fmap in Hin as ([k s] & -> & Hin).
      apply list_elem_of_In, filter_In in Hin as [Hin Hbig].
      apply list_elem_of_In, (dict_get_in _ _ _ Hnd') in Hin.
      rewrite Hget in Hin. unfold big in Hbig. cbn [fst snd] in *.
      apply Nat.ltb_lt in Hbig.
      destruct (group k uris); [discriminate|]. inversion Hin; subst. lia.
    - intros Hbig. apply list_elem_of_fmap. exists (key, group key uris).
      split; [reflexivity|]. apply list_elem_of_In, filter_In. split.
      + apply list_elem_of_In, dict_get_some_in. rewrite Hget.
        destruct (group key uris); [cbn in Hbig; lia|reflexivity].
      + unfold big. cbn [snd]. apply Nat.ltb_lt. lia. }
  assert (Hmsg : List.map (fun kv => clash_message (snd kv) (fst kv)) (List.filter big d)
                 = List.map (fun key => clash_message (group key uris) key)
                     (List.map fst (List.filter big d))).
  { rewrite List.map_map. apply List.map_ext_in. intros [k s] Hin. cbn.
    apply filter_In in Hin as [Hin _].
    apply list_elem_of_In, (dict_get_in _ _ _ Hnd') in Hin.
    rewrite Hget in Hin. destruct (group k uris); [discriminate|].
    now inversion Hin. }
  repeat split.
  - unfold _warn_if_uri_clash_on_same_marshaled_representation.
    fold uris. rewrite Hrun. cbn.
    destruct (List.length d =? List.length uri_schema_mappings)%nat eqn:Heq; cbn.
    + apply Nat.eqb_eq in Heq.
      assert (Hnone : List.filter big d = []).
      { apply filter_all_false. intros [k s] Hin. unfold big. cbn [snd].
        apply Nat.ltb_ge. apply (Hone ltac:(unfold uris, dict_keys;
                                             rewrite length_map; exact Heq) k).
        apply dict_get_in; [assumption|]. now apply list_elem_of_In. }
      rewrite Hnone. reflexivity.
    + f_equal. exact Hmsg.
  - now apply filter_keys_NoDup.
  - apply Hkeys.
  - apply Hkeys.
  - intros Hdis. destruct (List.map fst (List.filter big d)) as [|key keys] eqn:E;
      [reflexivity|].
    exfalso. assert (Hin : key ∈ key :: keys) by left.
    apply Hkeys in Hin.
    pose proof (group_small key uris Hdis). lia.
Qed.

End Reporter.

Section FinalTable.
Variable resolve : string -> string -> result (string * Node).
Variable marshal_uri : ParseResult -> result string.

Abbreviation since := (marshaled_since marshal_uri).

Lemma since_refl st : since st st.
Proof. intros mk u H. now left. Qed.

Lemma since_trans st1 st2 st3 : since st1 st2 -> since st2 st3 -> since st1 st3.
Proof.
  intros H12 H23 mk u H. destruct (H23 mk u H) as [H2|?]; [|now right]. auto.
Qed.

Lemma always_refl st : always st st.
Proof. exact Logic.I. Qed.

Lemma always_trans st1 st2 st3 : always st1 st2 -> always st2 st3 -> always st1 st3.
Proof. intros _ _. exact Logic.I. Qed.

(** when a descent returns, every location it stored was marshaled on
    the way: the pointer to it was made *)
Lemma descend_marshaled fuel :
  forall scope value st,
    ends_with (descend resolve marshal_uri fuel scope value) st (post always since st).
Proof.
  induction fuel as [|fuel IH]; intros scope value st.
  { split; [exact Logic.I|discriminate]. }
  rewrite descend_unfold. destruct (ref_target value) as [ref|] eqn:Href.
  - apply ends_bind, ends_lift;
      [intros [url deref] Hres|intros e _; split; [exact Logic.I|discriminate]].
    apply ends_bind, ends_lift;
      [intros ot Hcl|intros e _; split; [exact Logic.I|discriminate]].
    destruct (decide (ot = Some _TYPE_PATH_ITEM)) as [Hpi|Hpi].
    + apply ends_bind, ends_record.
      eapply ends_weaken; [apply IH|]. intros o st' [_ HD].
      split; [exact Logic.I|]. intros Hdone mk u Hk. exact (HD Hdone mk u Hk).
    + cbv zeta. apply ends_bind, ends_is_known.
      destruct (dict_mem (urlparse url) (km_get (holder_of ot) (known_mappings st))) eqn:Hk.
      * apply ends_bind, ends_ret. apply ends_bind, ends_lift;
          [intros m _; apply ends_ret|intros e _];
          (split; [exact Logic.I|intros _; apply since_refl]).
      * apply ends_bind. apply ends_bind, ends_store;
          [intros t Ht|intros e; split; [exact Logic.I|discriminate]].
        apply ends_bind, ends_record. cbn [known_mappings calls].
        apply ends_bind. eapply ends_weaken; [apply IH|].
        intros [resolved|e|] st3 [_ HD]; [|split; [exact Logic.I|discriminate]..].
        specialize (HD eq_refl).
        apply ends_store; [intros t' Ht'|intros e; split; [exact Logic.I|discriminate]].
        apply ends_bind, ends_lift;
          [intros m Hm; apply ends_ret|intros e _; split; [exact Logic.I|discriminate]].
        split; [exact Logic.I|]. intros _ mk u Hin.
        assert (Hhere : is_ok (marshal_uri (urlparse url)) = true) by now rewrite Hm.
        apply known_in_store in Hin as [Hin|[-> ->]]; [|now right|assumption].
        destruct (HD mk u Hin) as [Hin2|?]; [|now right].
        apply known_in_store in Hin2 as [Hin2|[-> ->]]; [now left|now right|assumption].
  - destruct value as [items|items|s].
    + apply ends_bind. eapply ends_weaken.
      { apply (mapM_items_post always since always_refl always_trans
                 since_refl since_trans), IH. }
      intros [items'|e|] st1 [_ HD]; [apply ends_ret|..];
        (split; [exact Logic.I|try discriminate]). exact HD.
    + apply ends_bind. eapply ends_weaken.
      { apply (mapM_list_post always since always_refl always_trans
                 since_refl since_trans), IH. }
      intros [items'|e|] st1 [_ HD]; [apply ends_ret|..];
        (split; [exact Logic.I|try discriminate]). exact HD.
    + apply ends_ret. split; [exact Logic.I|intros _; apply since_refl].
Qed.

Lemma initial_unknown mk u : ~ known_in mk u initial_state.
Proof.
  unfold known_in, km_get.
  change (known_mappings initial_state) with initial_known_mappings.
  rewrite initial_known_mappings_eq. cbn.
  repeat (case_decide; cbn; try discriminate).
Qed.


End FinalTable.


Example clash_doc_warnings :
  snd (fst (flattened_spec 5 clash_doc (Some (mkResolver "" clash_resolve))
              (Some "http://h/spec.json") no_handlers (_marshal_uri "/srv")))
  = [definitions_warning; "http://h/a#b, http://h/a|b clashed to http:....h..a|b"].
Proof. vm_compute. reflexivity. Qed.

(* ===================================================================== *)
(** * Termination *)
(* ===================================================================== *)

Lemma filter_length_mono {A} (f g : A -> bool) (l : list A) :
  (forall x, In x l -> g x = true -> f x = true) ->
  List.length (List.filter g l) <= List.length (List.filter f l).
Proof.
  induction l as [|x l IH]; cbn; intros H; [lia|].
  assert (IH' := IH (fun y Hy => H y (or_intror Hy))).
  destruct (g x) eqn:Hg.
  - rewrite (H x (or_introl eq_refl) Hg). cbn. lia.
  - destruct (f x); cbn; lia.
Qed.

Lemma filter_length_strict {A} (f g : A -> bool) (l : list A) (x : A) :
  (forall y, In y l -> g y = true -> f y = true) ->
  In x l -> f x = true -> g x = false ->
  List.length (List.filter g l) < List.length (List.filter f l).
Proof.
  induction l as [|y l IH]; cbn; intros H Hin Hf Hg; [tauto|].
  assert (Hmono := filter_length_mono f g l (fun z Hz => H z (or_intror Hz))).
  destruct Hin as [->|Hin].
  - rewrite Hf, Hg. cbn. lia.
  - specialize (IH (fun z Hz => H z (or_intror Hz)) Hin Hf Hg).
    destruct (g y) eqn:Hgy.
    + rewrite (H y (or_introl eq_refl) Hgy). cbn. lia.
    + destruct (f y); cbn; lia.
Qed.

Lemma node_depth_pos v : 1 <= node_depth v.
Proof. destruct v; cbn; lia. Qed.

Section Termination.
Variable resolve : string -> string -> result (string * Node).
Variable marshal_uri : ParseResult -> result string.
Variable universe : list (string * ParseResult).
Variable bound : nat.
Variable rank : string -> nat.
Variable top : nat.

Lemma unknown_le st st' :
  keys_le st st' -> unknown universe st' <= unknown universe st.
Proof.
  intros Hle. unfold unknown. apply filter_length_mono.
  intros [mk u] _. cbn [fst snd]. intros Hg.
  apply negb_true_iff in Hg. apply negb_true_iff.
  destruct (dict_mem u (km_get mk (known_mappings st))) eqn:E; [|reflexivity].
  apply (Hle mk u) in E. unfold known_in in E. congruence.
Qed.

Lemma unknown_store_lt st mk u v (t : table) c :
  (mk, u) ∈ universe -> ~ known_in mk u st ->
  dict_get mk (known_mappings st) = Some t ->
  unknown universe
    (mkState (dict_set mk (dict_set u v t) (known_mappings st)) c)
  < unknown universe st.
Proof.
  intros Hin Hnew Ht. unfold unknown.
  apply (filter_length_strict _ _ universe (mk, u)).
  - intros [mk' u'] _. cbn [fst snd]. intros Hg.
    apply negb_true_iff in Hg. apply negb_true_iff.
    destruct (dict_mem u' (km_get mk' (known_mappings st))) eqn:E; [|reflexivity].
    pose proof (keys_le_store st mk u v t c Ht mk' u' E) as Hk.
    unfold known_in in Hk. congruence.
  - now apply list_elem_of_In.
  - cbn [fst snd]. apply negb_true_iff.
    unfold known_in in Hnew. now destruct (dict_mem u (km_get mk (known_mappings st))).
  - cbn [fst snd]. apply negb_false_iff.
    exact (known_in_stored st mk u v t c Ht).
Qed.

Lemma mapM_items_terminated (f : Node -> M Node) items k :
  (forall key child st,
      (key, child) ∈ items -> unknown universe st <= k ->
      ends_with (f child) st (terminated universe st)) ->
  forall st, unknown universe st <= k ->
             ends_with (mapM_items f items) st
               (fun o st' => o <> OutOfFuel
                             /\ unknown universe st' <= unknown universe st).
Proof using Type.
  induction items as [|[key child] items IH]; intros Hf st Hk.
  - split; [discriminate|reflexivity].
  - cbn [mapM_items]. apply ends_bind.
    eapply ends_weaken; [apply (Hf key child st); [left|exact Hk]|].
    intros [v|e|] st1 [Ho H1]; [|split; [discriminate|exact H1]|congruence].
    apply ends_bind. eapply ends_weaken.
    { apply IH; [|lia]. intros key' child' st' Hin. apply (Hf key'). now right. }
    intros [r|e|] st2 [Ho2 H2]; [apply ends_ret|..];
      (split; [first [discriminate|congruence]|lia]).
Qed.

Lemma mapM_list_terminated (f : Node -> M Node) items k :
  (forall child st,
      child ∈ items -> unknown universe st <= k ->
      ends_with (f child) st (terminated universe st)) ->
  forall st, unknown universe st <= k ->
             ends_with (mapM_list f items) st
               (fun o st' => o <> OutOfFuel
                             /\ unknown universe st' <= unknown universe st).
Proof using Type.
  induction items as [|child items IH]; intros Hf st Hk.
  - split; [discriminate|reflexivity].
  - cbn [mapM_list]. apply ends_bind.
    eapply ends_weaken; [apply (Hf child st); [left|exact Hk]|].
    intros [v|e|] st1 [Ho H1]; [|split; [discriminate|exact H1]|congruence].
    apply ends_bind. eapply ends_weaken.
    { apply IH; [|lia]. intros child' st' Hin. apply Hf. now right. }
    intros [r|e|] st2 [Ho2 H2]; [apply ends_ret|..];
      (split; [first [discriminate|congruence]|lia]).
Qed.

(** the bounds on the references a value meets hold of those met from a
    part of it, and from the value one of its references resolves to *)
Lemma bounded_references_sub scope value scope' value' :
  (forall scope'' ref,
      met resolve scope' value' scope'' ref -> met resolve scope value scope'' ref) ->
  bounded_references resolve scope value universe bound rank top ->
  bounded_references resolve scope' value' universe bound rank top.
Proof using Type.
  intros Hsub Hb scope'' ref url deref Hmet. apply Hb, Hsub, Hmet.
Qed.

(** enough fuel: the depth of the value and the depth of a resolved value
    for every location not yet known and every rank below that of the
    scope *)
Lemma descend_terminates fuel :
  forall scope value st,
    bounded_references resolve scope value universe bound rank top ->
    node_depth value + (unknown universe st * (top + 1) + rank scope) * bound <= fuel ->
    ends_with (descend resolve marshal_uri fuel scope value) st
      (terminated universe st).
Proof using Type.
  induction fuel as [|fuel IH]; intros scope value st Hb Hfuel.
  { destruct value; cbn in Hfuel; lia. }
  pose proof (node_depth_pos value) as Hpos.
  rewrite descend_unfold. destruct (ref_target value) as [ref|] eqn:Href.
  - apply ends_bind, ends_lift;
      [intros [url deref] Hres|intros e _; split; [discriminate|reflexivity]].
    destruct (Hb scope ref url deref (met_here resolve scope value ref Href) Hres)
      as [Hdepth Hclass].
    apply ends_bind, ends_lift;
      [intros ot Hcl|intros e _; split; [discriminate|reflexivity]].
    destruct (Hclass ot Hcl) as [Hpath Hbucket].
    assert (Hb' : bounded_references resolve url deref universe bound rank top).
    { apply (bounded_references_sub scope value); [|exact Hb].
      intros scope' ref' Hmet. exact (met_target resolve _ _ _ _ _ _ _ _ Href Hres Hcl Hmet). }
    destruct (decide (ot = Some _TYPE_PATH_ITEM)) as [Hpi|Hpi].
    + specialize (Hpath Hpi). apply ends_bind, ends_record.
      eapply ends_weaken.
      { apply IH; [exact Hb'|]. unfold unknown in *. cbn [known_mappings].
        match goal with
        | |- _ + (?k * _ + rank url) * _ <= _ =>
            assert ((k * (top + 1) + rank url) * bound + bound
                    <= (k * (top + 1) + rank scope) * bound) by nia
        end. lia. }
      intros o st' [Ho Hle]. split; [assumption|exact Hle].
    + destruct (Hbucket Hpi) as [Hin Hrank]. cbv zeta.
      apply ends_bind, ends_is_known.
      destruct (dict_mem (urlparse url) (km_get (holder_of ot) (known_mappings st))) eqn:Hk.
      * apply ends_bind, ends_ret. apply ends_bind, ends_lift;
          [intros m _; apply ends_ret|intros e _]; (split; [discriminate|reflexivity]).
      * apply ends_bind. apply ends_bind, ends_store;
          [intros t Ht|intros e; split; [discriminate|reflexivity]].
        apply ends_bind, ends_record. cbn [known_mappings calls].
        assert (Hlt : unknown universe
                  (mkState (dict_set (holder_of ot)
                              (dict_set (urlparse url) (Leaf SNull) t) (known_mappings st))
                           (calls st ++ [Resolved (holder_of ot) (urlparse url)]))
                < unknown universe st).
        { apply unknown_store_lt; auto. unfold known_in. rewrite Hk. discriminate. }
        apply ends_bind. eapply ends_weaken.
        { apply IH; [exact Hb'|].
          match type of Hlt with
          | ?k2 < ?k =>
              assert ((k2 * (top + 1) + rank url) * bound + bound
                      <= (k * (top + 1) + rank scope) * bound) by nia
          end. lia. }
        intros [resolved|e|] st3 [Ho H3]; [|split; [discriminate|lia]|congruence].
        apply ends_store; [intros t' Ht'|intros e; split; [discriminate|lia]].
        assert (H4 : unknown universe
                  (mkState (dict_set (holder_of ot)
                              (dict_set (urlparse url) resolved t') (known_mappings st3))
                           (calls st3))
                <= unknown universe st3).
        { apply unknown_le, keys_le_store. assumption. }
        apply ends_bind, ends_lift; [intros m _; apply ends_ret|intros e _];
          (split; [discriminate|lia]).
  - destruct value as [items|items|s].
    + apply ends_bind. eapply ends_weaken.
      { apply (mapM_items_terminated _ _ (unknown universe st)); [|lia].
        intros key child st' Hin Hst'. apply IH.
        { apply (bounded_references_sub scope (Mapping items)); [|exact Hb].
          intros scope' ref' Hmet. exact (met_item resolve _ _ _ _ _ _ Href Hin Hmet). }
        pose proof (node_depth_item _ _ _ Hin).
        assert ((unknown universe st' * (top + 1) + rank scope) * bound
                <= (unknown universe st * (top + 1) + rank scope) * bound)
          by (apply Nat.mul_le_mono_r; nia).
        lia. }
      intros [items'|e|] st1 [Ho H1]; [apply ends_ret|..];
        (split; [first [discriminate|congruence]|lia]).
    + apply ends_bind. eapply ends_weaken.
      { apply (mapM_list_terminated _ _ (unknown universe st)); [|lia].
        intros child st' Hin Hst'. apply IH.
        { apply (bounded_references_sub scope (Sequence items)); [|exact Hb].
          intros scope' ref' Hmet. exact (met_element resolve _ _ _ _ _ Hin Hmet). }
        pose proof (node_depth_elem _ _ Hin).
        assert ((unknown universe st' * (top + 1) + rank scope) * bound
                <= (unknown universe st * (top + 1) + rank scope) * bound)
          by (apply Nat.mul_le_mono_r; nia).
        lia. }
      intros [items'|e|] st1 [Ho H1]; [apply ends_ret|..];
        (split; [first [discriminate|congruence]|lia]).
    + apply ends_ret. split; [discriminate|reflexivity].
Qed.

Lemma unknown_universe st : unknown universe st <= List.length universe.
Proof. unfold unknown. apply List.filter_length_le. Qed.

End Termination.

(** a reference to a location that is known, be it with the placeholder
    of a resolution in progress, gives the pointer at once *)
Lemma descend_known resolve marshal_uri fuel scope value st ref url deref ot key :
  ref_target value = Some ref ->
  resolve scope ref = Ok (url, deref) ->
  _determine_object_type deref = Ok ot ->
  ot <> Some _TYPE_PATH_ITEM ->
  known_in (holder_of ot) (urlparse url) st ->
  marshal_uri (urlparse url) = Ok key ->
  descend resolve marshal_uri (S fuel) scope value st
  = (Done (pointer (holder_of ot) key), st).
Proof.
  intros Href Hres Hcl Hpi Hk Hm. rewrite descend_unfold, Href, Hres. cbn [lift].
  rewrite (bindM_done _ _ st (url, deref) st eq_refl).
  rewrite Hcl. cbn [lift].
  rewrite (bindM_done _ _ st ot st eq_refl).
  rewrite decide_False by assumption. cbv zeta.
  unfold known_in in Hk.
  rewrite (bindM_done _ _ st true st); [|unfold is_known; now rewrite Hk].
  rewrite (bindM_done _ _ st tt st eq_refl).
  rewrite Hm. reflexivity.
Qed.

(** with the bounds on the references it meets and that much fuel, the
    descent of a document ends: it returns or raises *)
Lemma descend_ends resolve marshal_uri universe bound rank top scope root fuel :
  bounded_references resolve scope root universe bound rank top ->
  rank scope <= top ->
  node_depth root + (List.length universe * (top + 1) + top) * bound <= fuel ->
  exists o st,
    descend resolve marshal_uri fuel scope root initial_state = (o, st)
    /\ o <> OutOfFuel.
Proof.
  intros Hb Hscope Hfuel.
  pose proof (descend_terminates resolve marshal_uri universe bound rank top
                fuel scope root initial_state Hb) as H.
  destruct (descend resolve marshal_uri fuel scope root initial_state) as [o st] eqn:E.
  exists o, st. split; [reflexivity|].
  unfold ends_with in H. rewrite E in H. apply H.
  pose proof (unknown_universe universe initial_state). nia.
Qed.

(** ** The references a document meets *)

Lemma ref_targets_here value ref :
  ref_target value = Some ref -> ref ∈ ref_targets value.
Proof.
  intros H. destruct value; cbn [ref_targets]; rewrite H; apply elem_of_app; left; left.
Qed.

Lemma ref_targets_value key v items target :
  (key, v) ∈ items -> target ∈ ref_targets v -> target ∈ ref_targets (Mapping items).
Proof.
  intros Hin Ht. cbn [ref_targets]. apply elem_of_app. right.
  apply list_elem_of_In, List.in_flat_map. exists (key, v).
  split; [now apply list_elem_of_In|]. now apply list_elem_of_In.
Qed.

Lemma ref_targets_element v items target :
  v ∈ items -> target ∈ ref_targets v -> target ∈ ref_targets (Sequence items).
Proof.
  intros Hin Ht. cbn [ref_targets]. apply elem_of_app. right.
  apply list_elem_of_In, List.in_flat_map. exists v.
  split; now apply list_elem_of_In.
Qed.

(** the references met are among [references], a list of scopes and
    references that holds the references of the value with its scope and,
    with a scope and a reference, the references of the value it resolves
    to with the scope of its location *)
Lemma met_within resolve (references : list (string * string)) :
  (forall scope target url deref_value object_type ref,
      (scope, target) ∈ references ->
      resolve scope target = Ok (url, deref_value) ->
      _determine_object_type deref_value = Ok object_type ->
      ref ∈ ref_targets deref_value ->
      (url, ref) ∈ references) ->
  forall scope value scope' ref,
    met resolve scope value scope' ref ->
    (forall target, target ∈ ref_targets value -> (scope, target) ∈ references) ->
    (scope', ref) ∈ references.
Proof.
  intros Hclosed scope value scope' ref Hmet.
  induction Hmet as [scope value ref Href
                    |scope items key child scope' ref Hnone Hin Hmet IH
                    |scope items child scope' ref Hin Hmet IH
                    |scope value target url deref ot scope' ref Href Hres Hcl Hmet IH];
    intros Hvalue.
  - apply Hvalue, ref_targets_here, Href.
  - apply IH. intros t Ht. apply Hvalue. eapply ref_targets_value; eassumption.
  - apply IH. intros t Ht. apply Hvalue. eapply ref_targets_element; eassumption.
  - apply IH. intros t Ht. eapply Hclosed; [|exact Hres|exact Hcl|exact Ht].
    apply Hvalue, ref_targets_here, Href.
Qed.

(** a scope and a reference of a list written out: one case for each *)
Ltac each_reference H :=
  apply list_elem_of_In in H; vm_compute in H;
  repeat (destruct H as [H|H]); try contradiction;
  inversion H; subst; clear H.

(** the references of [node_doc], with the resolver the code builds for
    it: the descent meets those of [node_doc_references] only *)
Lemma node_doc_met scope ref :
  met (resolve_in node_doc_resolver) example_url node_doc scope ref ->
  (scope, ref) ∈ node_doc_references.
Proof.
  intros Hmet.
  apply (met_within (resolve_in node_doc_resolver) node_doc_references)
    with (scope := example_url) (value := node_doc); [|exact Hmet|].
  - clear. intros scope target url deref ot ref Hin Hres _ Href.
    each_reference Hin; vm_compute in Hres; inversion Hres; subst; clear Hres;
      each_reference Href; repeat constructor.
  - clear. intros target Ht. each_reference Ht; repeat constructor.
Qed.

(** the path item of [node_doc] is met in the document, of a higher rank;
    the schema is the one location of the universe *)
Lemma node_doc_bounded :
  bounded_references (resolve_in node_doc_resolver) example_url node_doc
    [("definitions", urlparse node_url)] 4 node_doc_rank 1.
Proof.
  intros scope ref url deref Hmet Hres. apply node_doc_met in Hmet.
  each_reference Hmet; vm_compute in Hres; inversion Hres; subst; clear Hres;
    (split; [vm_compute; lia|]);
    intros ot Hot; vm_compute in Hot; inversion Hot; subst; clear Hot;
    (split; [intros Hpi; first [discriminate|vm_compute; lia]
            |intros Hpi; first [congruence|split; [vm_compute; left|vm_compute; lia]]]).
Qed.

(** the reference of [path_item_doc], with the resolver the code builds
    for it: the path item holds no reference, and is met in the document *)
Lemma path_item_doc_bounded :
  bounded_references
    (resolve_in (default_resolver example_url path_item_doc no_handlers))
    example_url path_item_doc [] 2 node_doc_rank 1.
Proof.
  intros scope ref url deref Hmet Hres.
  assert (Hin : (scope, ref) ∈ path_item_doc_references).
  { apply (met_within (resolve_in (default_resolver example_url path_item_doc no_handlers))
             path_item_doc_references)
      with (scope := example_url) (value := path_item_doc); [|exact Hmet|].
    - clear. intros scope target url deref ot ref Hin Hres _ Href.
      each_reference Hin; vm_compute in Hres; inversion Hres; subst; clear Hres;
        each_reference Href.
    - clear. intros target Ht. each_reference Ht; repeat constructor. }
  clear Hmet.
  each_reference Hin; vm_compute in Hres; inversion Hres; subst; clear Hres;
    (split; [vm_compute; lia|]);
    intros ot Hot; vm_compute in Hot; inversion Hot; subst; clear Hot;
    (split; [intros Hpi; vm_compute; lia|intros Hpi; congruence]).
Qed.

(** the descent of [path_item_doc] ends within eight levels *)
Example path_item_doc_ends :
  exists o st,
    descend (resolve_in (default_resolver example_url path_item_doc no_handlers))
      cycle_marshal 8 example_url path_item_doc initial_state = (o, st)
    /\ o <> OutOfFuel.
Proof.
  apply (descend_ends _ _ [] 2 node_doc_rank 1).
  - exact path_item_doc_bounded.
  - vm_compute. lia.
  - vm_compute. lia.
Qed.

(** C4, as the code has it, when the references to path items make no
    cycle.  Take the references the descent of the document can meet: those
    of the document, in its scope, and those of every value one of them
    resolves to, in the scope of its location.  If the values they resolve
    to are [bound] deep at most, those that are no path items belong to the
    locations of a finite [universe], and every path item is met in a
    scope of a higher rank, then the descent ends within a recursion depth
    of the depth of the document plus [bound] for each location and rank;
    and a reference to a location that is known, its resolution being in
    progress or over, gives a pointer without any recursion, so that a
    cycle through it is closed by a pointer. *)
Theorem cycle_terminates resolve marshal_uri universe bound rank top scope root fuel :
  bounded_references resolve scope root universe bound rank top ->
  rank scope <= top ->
  node_depth root + (List.length universe * (top + 1) + top) * bound <= fuel ->
  (exists o st,
      descend resolve marshal_uri fuel scope root initial_state = (o, st)
      /\ o <> OutOfFuel)
  /\ (forall fuel' scope' value st ref url deref_value object_type key,
         ref_target value = Some ref ->
         resolve scope' ref = Ok (url, deref_value) ->
         _determine_object_type deref_value = Ok object_type ->
         object_type <> Some _TYPE_PATH_ITEM ->
         known_in (holder_of object_type) (urlparse url) st ->
         marshal_uri (urlparse url) = Ok key ->
         descend resolve marshal_uri (S fuel') scope' value st
         = (Done (Mapping [("$ref", Leaf (SStr
                    ("#/" +:+ holder_of object_type +:+ "/" +:+ key)))]), st)).
Proof.
  intros Hb Hscope Hfuel. split.
  - eapply descend_ends; eassumption.
  - intros fuel' scope' value st ref url deref ot key Href Hres Hcl Hpi Hk Hm.
    eapply descend_known; eassumption.
Qed.

Lemma cycle_terminates_witness :
  exists o st,
    descend (resolve_in node_doc_resolver) cycle_marshal 18 example_url node_doc
      initial_state = (o, st)
    /\ o <> OutOfFuel.
Proof.
  apply (cycle_terminates (resolve_in node_doc_resolver) cycle_marshal
           [("definitions", urlparse node_url)] 4 node_doc_rank 1
           example_url node_doc 18).
  - exact node_doc_bounded.
  - vm_compute. lia.
  - vm_compute. lia.
Defined.

(** the run on [node_doc]: the path item is inlined where it is referred
    to, the schema is moved under [definitions], and the reference
    inside it, which closes the cycle, is a pointer to the entry being
    filled *)
Example node_doc_run :
  flattened_spec 18 node_doc None (Some example_url) no_handlers (_marshal_uri "/srv")
  = (Done
       (Mapping
          [("paths",
            Mapping
              [("/nodes",
                Mapping
                  [("get",
                    Mapping
                      [("schema", Mapping [("$ref", Leaf (SStr
                          "#/definitions/lfile:a.json|..definitions..Node"))])])])]);
           ("x-paths",
            Mapping
              [("nodes",
                Mapping
                  [("get",
                    Mapping
                      [("schema", Mapping [("$ref", Leaf (SStr
                          "#/definitions/lfile:a.json|..definitions..Node"))])])])]);
           ("definitions",
            Mapping
              [("lfile:a.json|..definitions..Node",
                Mapping
                  [("type", Leaf (SStr "object"));
                   ("properties",
                    Mapping [("next", Mapping [("$ref", Leaf (SStr
                       "#/definitions/lfile:a.json|..definitions..Node"))])])])])]),
     [definitions_warning],
     mkState
       [("parameters", []); ("responses", []);
        ("definitions",
         [(urlparse node_url,
           Mapping
             [("type", Leaf (SStr "object"));
              ("properties",
               Mapping [("next", Mapping [("$ref", Leaf (SStr
                  "#/definitions/lfile:a.json|..definitions..Node"))])])])])]
       [Inlined nodes_url; Resolved "definitions" (urlparse node_url)]).
Proof. vm_compute. reflexivity. Qed.
(** ** A path item that refers to itself *)

Lemma loop_resolve scope :
  scope = example_url \/ scope = loop_url ->
  resolve_in cycle_resolver scope "#/x-paths/A" = Ok (loop_url, loop_item).
Proof. intros [->| ->]; vm_compute; reflexivity. Qed.

Lemma loop_ref_out fuel :
  forall scope st,
    scope = example_url \/ scope = loop_url ->
    ends_with (descend (resolve_in cycle_resolver) cycle_marshal fuel scope loop_ref) st
      out_of_fuel.
Proof.
  induction fuel as [fuel IH] using lt_wf_ind. intros scope st Hscope.
  destruct fuel as [|fuel]; [reflexivity|].
  rewrite descend_unfold.
  change (ref_target loop_ref) with (Some "#/x-paths/A").
  cbv iota beta. rewrite (loop_resolve scope Hscope).
  apply ends_bind, ends_lift; [intros r Hr; inversion Hr; subst; clear Hr|discriminate].
  change (_determine_object_type loop_item) with (Ok (A:=option object_type) (Some _TYPE_PATH_ITEM)).
  apply ends_bind, ends_lift; [intros ot Hot; inversion Hot; subst; clear Hot|discriminate].
  rewrite decide_True by reflexivity.
  apply ends_bind, ends_record.
  destruct fuel as [|fuel]; [reflexivity|].
  rewrite descend_unfold.
  change (ref_target loop_item) with (@None string). cbv iota beta.
  unfold loop_item. apply ends_bind. cbn [mapM_items]. apply ends_bind.
  eapply ends_weaken; [apply IH; [lia|now right]|].
  intros o st' Ho. unfold out_of_fuel in Ho. now subst o.
Qed.

Lemma path_item_cycle_out fuel :
  ends_with
    (descend (resolve_in cycle_resolver) cycle_marshal fuel example_url path_item_cycle)
    initial_state out_of_fuel.
Proof.
  destruct fuel as [|fuel]; [reflexivity|].
  rewrite descend_unfold. change (ref_target path_item_cycle) with (@None string).
  unfold path_item_cycle. cbv iota beta.
  apply ends_bind. cbn [mapM_items]. apply ends_bind.
  destruct fuel as [|fuel]; [reflexivity|].
  rewrite descend_unfold.
  change (ref_target (Mapping [("A", loop_item)])) with (@None string). cbv iota beta.
  apply ends_bind. cbn [mapM_items]. apply ends_bind.
  destruct fuel as [|fuel]; [reflexivity|].
  rewrite descend_unfold.
  change (ref_target loop_item) with (@None string). unfold loop_item at 1. cbv iota beta.
  apply ends_bind. cbn [mapM_items]. apply ends_bind.
  eapply ends_weaken; [apply loop_ref_out; now left|].
  intros o st' Ho. unfold out_of_fuel in Ho. now subst o.
Qed.

(** C4 as stated fails: the path item that refers to itself is inlined
    again and again, and no depth is enough for the run to end. *)
Lemma cycle_terminates_counterexample :
  ~ (exists fuel, fst (fst (path_item_cycle_run fuel)) <> OutOfFuel).
Proof.
  intros [fuel H]. apply H. clear H.
  pose proof (path_item_cycle_out fuel) as Hout. unfold ends_with, out_of_fuel in Hout.
  unfold path_item_cycle_run, flattened_spec.
  change (PyStr.is_empty example_url) with false. cbv iota beta.
  change (resolve_in (default_resolver example_url path_item_cycle no_handlers))
    with (resolve_in cycle_resolver).
  change (resolution_scope (default_resolver example_url path_item_cycle no_handlers))
    with example_url.
  match goal with
  | |- context [descend ?r ?m fuel example_url path_item_cycle initial_state] =>
      change (descend r m fuel example_url path_item_cycle initial_state)
        with (descend (resolve_in cycle_resolver) cycle_marshal fuel example_url
                path_item_cycle initial_state)
  end.
  destruct (descend (resolve_in cycle_resolver) cycle_marshal fuel example_url
              path_item_cycle initial_state) as [o st].
  cbn [fst] in Hout. subst o. reflexivity.
Qed.

(* ===================================================================== *)
(** * The input is not mutated *)
(* ===================================================================== *)

Example heap_example_call :
  Heap.example_call
  = (Done (Heap.PRef 12),
     Heap.mkHState
       (Heap.example_heap ++
        [Heap.PDict [("definitions", Heap.PRef 5)];
         Heap.PDict [("Pet", Heap.PRef 6); ("Ref", Heap.PRef 7)];
         Heap.PDict [("type", Heap.PScalar (SStr "object"))];
         Heap.PDict [("$ref", Heap.PScalar (SStr "#/definitions/Pet"))];
         Heap.PDict [("type", Heap.PScalar (SStr "object"))];
         Heap.PDict [("type", Heap.PScalar (SStr "object"))];
         Heap.PDict [("$ref", Heap.PScalar (SStr
            "#/definitions/lfile:a.json|..definitions..Pet"))];
         Heap.PDict [("Pet", Heap.PRef 8); ("Ref", Heap.PRef 10)];
         Heap.PDict [("definitions", Heap.PRef 13)];
         Heap.PDict [("lfile:a.json|..definitions..Pet", Heap.PRef 9)]])
       [("parameters", []); ("responses", []);
        ("definitions", [(pet_location, Heap.PRef 9)])]).
Proof. vm_compute. reflexivity. Qed.

Lemma dict_set_in {K V} `{EqDecision K} (k k' : K) (v v' : V) (d : list (K * V)) :
  (k', v') ∈ dict_set k v d -> (k', v') ∈ d \/ (k', v') = (k, v).
Proof.
  induction d as [|[k0 v0] d IH]; cbn.
  - intros H. apply list_elem_of_singleton in H. now right.
  - destruct (decide (k = k0)) as [->|Hne]; intros H.
    + apply elem_of_cons in H as [H|H]; [now right|]. left. now right.
    + apply elem_of_cons in H as [H|H]; [left; rewrite H; left|].
      destruct (IH H) as [?|?]; [left; now right|now right].
Qed.

Lemma dict_of_items_in {K V} `{EqDecision K} (items : list (K * V)) (k : K) (v : V) :
  (k, v) ∈ dict_of_items items -> (k, v) ∈ items.
Proof.
  unfold dict_of_items, dict_update.
  assert (H : forall acc, (k, v) ∈ fold_left
                (fun acc kv => dict_set (fst kv) (snd kv) acc) items acc ->
              (k, v) ∈ acc \/ (k, v) ∈ items).
  { induction items as [|[k0 v0] items IH]; cbn; intros acc Hin; [now left|].
    destruct (IH _ Hin) as [Hacc|Hitems]; [|right; now right].
    apply dict_set_in in Hacc as [?|E]; [now left|]. right. rewrite E. left. }
  intros Hin. destruct (H [] Hin) as [Hnil|?]; [inversion Hnil|assumption].
Qed.

Lemma marshal_items_values {V} marshal_uri (mappings : list (ParseResult * V)) items :
  marshal_items marshal_uri mappings = Ok items ->
  forall k v, (k, v) ∈ items -> exists u, (u, v) ∈ mappings.
Proof.
  revert items. induction mappings as [|[u v0] mappings IH]; cbn; intros items H k v Hin.
  - inversion H; subst. inversion Hin.
  - destruct (marshal_uri u) as [key|]; [|discriminate]. cbn in H.
    destruct (marshal_items marshal_uri mappings) as [rest|]; [|discriminate].
    cbn in H. inversion H; subst.
    apply elem_of_cons in Hin as [E|Hin].
    + inversion E; subst. exists u. left.
    + destruct (IH _ eq_refl _ _ Hin) as [u' Hu']. exists u'. now right.
Qed.

Lemma ends_pure {St A} (m : ST St A) (st : St) (Q : outcome A -> St -> Prop) :
  snd (m st) = st -> (forall o, Q o st) -> ends_with m st Q.
Proof. unfold ends_with. intros -> H. apply H. Qed.

Lemma lift_pure {St A} (r : result A) (st : St) : snd (lift r st) = st.
Proof. now destruct r. Qed.

Module HeapFacts.
Import Heap.

Lemma shape_of_pure value st : snd (shape_of value st) = st.
Proof.
  destruct value as [s|a]; [reflexivity|]. cbn. unfold bindM, deref.
  destruct (objects st !! a) as [[items|items]|]; reflexivity.
Qed.

Lemma resolving_pure resolve scope ref st : snd (resolving resolve scope ref st) = st.
Proof. unfold resolving. apply lift_pure. Qed.

Lemma ends_shape_of value st (Q : outcome shape -> hstate -> Prop) :
  (forall s, value = PScalar s -> Q (Done (IsScalar s)) st) ->
  (forall a items, value = PRef a -> objects st !! a = Some (PDict items) ->
                   Q (Done (IsDict items)) st) ->
  (forall a items, value = PRef a -> objects st !! a = Some (PList items) ->
                   Q (Done (IsList items)) st) ->
  (forall e, Q (Raised e) st) ->
  ends_with (shape_of value) st Q.
Proof.
  intros Hs Hd Hl He. destruct value as [s|a]; [now apply Hs|].
  unfold ends_with. cbn. unfold bindM, deref.
  destruct (objects st !! a) as [[items|items]|] eqn:E; cbn; eauto.
Qed.

Lemma ends_alloc o st (Q : outcome nat -> hstate -> Prop) :
  Q (Done (List.length (objects st))) (mkHState (objects st ++ [o]) (known st)) ->
  ends_with (alloc o) st Q.
Proof. auto. Qed.

Lemma ends_deref a st (Q : outcome pyobj -> hstate -> Prop) :
  (forall o, objects st !! a = Some o -> Q (Done o) st) ->
  (forall e, Q (Raised e) st) ->
  ends_with (deref a) st Q.
Proof.
  intros Ho He. unfold ends_with, deref.
  destruct (objects st !! a) eqn:E; cbn; auto.
Qed.

Lemma ends_setobj a o st (Q : outcome unit -> hstate -> Prop) :
  Q (Done tt) (mkHState (<[a := o]> (objects st)) (known st)) ->
  ends_with (setobj a o) st Q.
Proof. auto. Qed.

Lemma ends_hstore mapping_key uri value st (Q : outcome unit -> hstate -> Prop) :
  (forall t, dict_get mapping_key (known st) = Some t ->
     Q (Done tt)
       (mkHState (objects st)
          (dict_set mapping_key (dict_set uri value t) (known st)))) ->
  (forall e, Q (Raised e) st) ->
  ends_with (store mapping_key uri value) st Q.
Proof.
  intros Hd Hr. unfold ends_with, store.
  destruct (dict_get mapping_key (known st)); cbn; auto.
Qed.

Section Frame.
Variable h0 : list pyobj.

Abbreviation n0 := (List.length h0).

Lemma framed_alloc st o :
  framed h0 st -> obj_fresh n0 o ->
  framed h0 (mkHState (objects st ++ [o]) (known st)).
Proof.
  intros (Hpre & Hlen & Hclosed & Hknown) Ho. repeat split; cbn [objects known].
  - intros a Ha. rewrite lookup_app_l by lia. now apply Hpre.
  - rewrite length_app. lia.
  - intros a o' Ha Hget.
    destruct (decide (a < List.length (objects st))) as [Hlt|Hge].
    + rewrite lookup_app_l in Hget by assumption. eapply Hclosed; eassumption.
    + rewrite lookup_app_r in Hget by lia.
      destruct (a - List.length (objects st)) as [|k]; cbn in Hget; [|discriminate].
      now inversion Hget; subst.
  - exact Hknown.
Qed.

Lemma framed_setobj st a o :
  framed h0 st -> n0 <= a -> obj_fresh n0 o ->
  framed h0 (mkHState (<[a := o]> (objects st)) (known st)).
Proof.
  intros (Hpre & Hlen & Hclosed & Hknown) Ha Ho. repeat split; cbn [objects known].
  - intros b Hb. rewrite list_lookup_insert_ne by lia. now apply Hpre.
  - rewrite length_insert. lia.
  - intros b o' Hb Hget. destruct (decide (a = b)) as [->|Hne].
    + destruct (decide (b < List.length (objects st))) as [Hlt|Hge].
      * rewrite list_lookup_insert_eq in Hget by assumption. now inversion Hget; subst.
      * rewrite list_insert_ge in Hget by lia. eapply Hclosed; eassumption.
    + rewrite list_lookup_insert_ne in Hget by assumption. eapply Hclosed; eassumption.
  - exact Hknown.
Qed.

Lemma framed_store st mk u v (t : list (ParseResult * pyval)) :
  framed h0 st -> dict_get mk (known st) = Some t -> val_fresh n0 v ->
  framed h0 (mkHState (objects st) (dict_set mk (dict_set u v t) (known st))).
Proof.
  intros (Hpre & Hlen & Hclosed & Hknown) Ht Hv. repeat split; cbn [objects known]; auto.
  intros mk' t' u' v' Hin Hin'.
  apply dict_set_in in Hin as [Hin|E].
  - eapply Hknown; eassumption.
  - inversion E; subst. apply dict_set_in in Hin' as [Hin'|E'].
    + eapply Hknown; [|exact Hin']. apply dict_get_some_in, Ht.
    + now inversion E'; subst.
Qed.

(** the run keeps the frame and returns a scalar or a new object *)
Abbreviation fresh_result :=
  (fun (o : outcome pyval) (st' : hstate) =>
     framed h0 st' /\ forall r, o = Done r -> val_fresh n0 r).

Abbreviation fresh_items :=
  (fun (o : outcome (list (string * pyval))) (st' : hstate) =>
     framed h0 st' /\ forall r, o = Done r -> Forall (val_fresh n0) (List.map snd r)).

Abbreviation fresh_list :=
  (fun (o : outcome (list pyval)) (st' : hstate) =>
     framed h0 st' /\ forall r, o = Done r -> Forall (val_fresh n0) r).

Ltac failed := split; [assumption|intros ? ?; discriminate].

Lemma mapM_items_fresh (f : pyval -> HM pyval) items :
  (forall v st, framed h0 st -> ends_with (f v) st fresh_result) ->
  forall st, framed h0 st -> ends_with (mapM_items f items) st fresh_items.
Proof.
  intros Hf. induction items as [|[key v] items IH]; intros st Hst.
  - split; [assumption|]. intros r Hr. inversion Hr. constructor.
  - cbn [mapM_items]. apply ends_bind.
    eapply ends_weaken; [apply Hf, Hst|]. intros [v'|e|] st1 [H1 Hv]; [|failed..].
    apply ends_bind. eapply ends_weaken; [apply IH, H1|].
    intros [rest|e|] st2 [H2 Hrest]; [|failed..].
    apply ends_ret. split; [assumption|]. intros r Hr. inversion Hr; subst.
    cbn. constructor; auto.
Qed.

Lemma mapM_list_fresh (f : pyval -> HM pyval) items :
  (forall v st, framed h0 st -> ends_with (f v) st fresh_result) ->
  forall st, framed h0 st -> ends_with (mapM_list f items) st fresh_list.
Proof.
  intros Hf. induction items as [|v items IH]; intros st Hst.
  - split; [assumption|]. intros r Hr. inversion Hr. constructor.
  - cbn [mapM_list]. apply ends_bind.
    eapply ends_weaken; [apply Hf, Hst|]. intros [v'|e|] st1 [H1 Hv]; [|failed..].
    apply ends_bind. eapply ends_weaken; [apply IH, H1|].
    intros [rest|e|] st2 [H2 Hrest]; [|failed..].
    apply ends_ret. split; [assumption|]. intros r Hr. inversion Hr; subst.
    constructor; auto.
Qed.

Lemma alloc_fresh o st :
  framed h0 st -> obj_fresh n0 o ->
  ends_with (let* a := alloc o in ret (PRef a)) st fresh_result.
Proof.
  intros Hst Ho. apply ends_bind, ends_alloc, ends_ret. split.
  - now apply framed_alloc.
  - intros r Hr. inversion Hr; subst. cbn. apply Hst.
Qed.

Section Descent.
Variable resolve : list pyobj -> string -> string -> result (string * pyval).
Variable marshal_uri : ParseResult -> result string.

Lemma pointer_fresh mapping_key uri st :
  framed h0 st ->
  ends_with
    (let* marshaled := lift (marshal_uri uri) in
     let* a :=
       alloc (PDict [("$ref",
                      PScalar (SStr ("#/" +:+ mapping_key +:+ "/" +:+ marshaled)))]) in
     ret (PRef a)) st fresh_result.
Proof.
  intros Hst. apply ends_bind, ends_lift; [intros m _|intros e _; failed].
  apply alloc_fresh; [assumption|]. repeat constructor.
Qed.

(** [descend] writes to no object and returns a scalar or a new object *)
Lemma descend_fresh fuel :
  forall scope value st,
    framed h0 st ->
    ends_with (descend resolve marshal_uri fuel scope value) st fresh_result.
Proof.
  induction fuel as [|fuel IH]; intros scope value st Hst.
  { failed. }
  cbn [descend]. apply ends_bind, ends_shape_of; [| | |intros e; failed].
  - intros s ->. cbn [ref_target]. apply ends_ret. split; [assumption|].
    intros r Hr. now inversion Hr.
  - intros a items -> Hobj.
    destruct (ref_target (IsDict items)) as [ref|].
    + apply ends_bind, ends_pure; [apply resolving_pure|].
      intros [[uri deref_value]|e|]; [|failed..].
      apply ends_bind, ends_pure; [apply shape_of_pure|]. intros [dsh|e|]; [|failed..].
      apply ends_bind, ends_pure; [apply lift_pure|]. intros [ot|e|]; [|failed..].
      destruct (decide (ot = Some _TYPE_PATH_ITEM)); [now apply IH|].
      cbv zeta. apply ends_bind, ends_pure; [reflexivity|].
      intros [known|e|]; [|failed..].
      apply ends_bind. destruct known.
      * apply ends_ret. now apply pointer_fresh.
      * apply ends_bind, ends_hstore; [intros t Ht|intros e; failed].
        apply ends_bind. eapply ends_weaken.
        { apply IH. apply framed_store; [assumption..|exact Logic.I]. }
        intros [resolved|e|] st3 [H3 Hr]; [|failed..].
        apply ends_hstore; [intros t' Ht'|intros e; failed].
        apply pointer_fresh. apply framed_store; auto.
    + apply ends_bind. eapply ends_weaken; [apply mapM_items_fresh; [apply IH|exact Hst]|].
      intros [items'|e|] st1 [H1 Hfresh]; [|failed..].
      apply alloc_fresh; [assumption|]. now apply Hfresh.
  - intros a items -> Hobj. cbn [ref_target].
    apply ends_bind. eapply ends_weaken; [apply mapM_list_fresh; [apply IH|exact Hst]|].
    intros [items'|e|] st1 [H1 Hfresh]; [|failed..].
    apply alloc_fresh; [assumption|]. now apply Hfresh.
Qed.

(** the last loop mutates the new root only *)
Lemma merge_buckets_framed km :
  forall resolved_spec st,
    framed h0 st -> val_fresh n0 resolved_spec ->
    (forall mk t u v, (mk, t) ∈ km -> (u, v) ∈ t -> val_fresh n0 v) ->
    ends_with (merge_buckets marshal_uri km resolved_spec) st
      (fun _ st' => framed h0 st').
Proof.
  induction km as [|[mk mappings] km IH]; intros resolved_spec st Hst Hr Hkm.
  { exact Hst. }
  cbn [merge_buckets].
  assert (Htail : forall mk' t u v, (mk', t) ∈ km -> (u, v) ∈ t -> val_fresh n0 v).
  { intros mk' t u v Hin. apply (Hkm mk'). now right. }
  apply ends_bind, ends_pure; [apply lift_pure|]. intros [ws|e|]; [|assumption..].
  apply ends_bind.
  destruct (0 <? List.length mappings)%nat.
  - apply ends_bind, ends_lift; [intros items Hitems|intros e _; exact Hst].
    apply ends_bind, ends_alloc.
    assert (Hbucket : obj_fresh n0 (PDict (dict_of_items items))).
    { apply Forall_forall. intros v Hv. cbn [fields] in Hv.
      apply list_elem_of_fmap in Hv as ([k v'] & -> & Hin). cbn.
      apply dict_of_items_in in Hin.
      destruct (marshal_items_values _ _ _ Hitems _ _ Hin) as [u Hu].
      apply (Hkm mk mappings u v'); [left|exact Hu]. }
    pose proof (framed_alloc st _ Hst Hbucket) as H1.
    destruct resolved_spec as [s|a]; [exact H1|].
    cbn [update]. apply ends_bind, ends_deref; [intros o Ho|intros e; exact H1].
    destruct o as [items0|items0]; [|exact H1].
    apply ends_setobj.
    apply IH; [|assumption|assumption].
    apply framed_setobj; [assumption|exact Hr|].
    apply Forall_forall. intros v Hv. cbn [fields] in Hv.
    apply list_elem_of_fmap in Hv as ([k v'] & -> & Hin). cbn.
    apply dict_set_in in Hin as [Hin|E].
    + destruct H1 as (_ & _ & Hclosed & _).
      pose proof (Hclosed a _ Hr Ho) as Hfresh.
      apply (proj1 (Forall_forall _ _) Hfresh). cbn [fields].
      apply list_elem_of_fmap. exists (k, v'). split; [reflexivity|assumption].
    + inversion E; subst. cbn. apply Hst.
  - apply ends_ret. apply IH; assumption.
Qed.

End Descent.

(** ** deepcopy *)

Abbreviation memo_fresh :=
  (fun memo : list (nat * nat) => forall x y, (x, y) ∈ memo -> n0 <= y).

Abbreviation fresh_copy :=
  (fun (o : outcome (pyval * list (nat * nat))) (st' : hstate) =>
     framed h0 st'
     /\ forall r, o = Done r -> val_fresh n0 (fst r) /\ memo_fresh (snd r)).

Lemma copy_items_fresh f items :
  (forall v memo st, framed h0 st -> memo_fresh memo ->
                     ends_with (f v memo) st fresh_copy) ->
  forall memo st, framed h0 st -> memo_fresh memo ->
    ends_with (copy_items f items memo) st
      (fun o st' =>
         framed h0 st'
         /\ forall r, o = Done r ->
                      Forall (val_fresh n0) (List.map snd (fst r))
                      /\ memo_fresh (snd r)).
Proof.
  intros Hf. induction items as [|[key v] items IH]; intros memo st Hst Hmemo.
  - split; [assumption|]. intros r Hr. inversion Hr. split; [constructor|assumption].
  - cbn [copy_items]. apply ends_bind.
    eapply ends_weaken; [apply Hf; eassumption|].
    intros [[v' memo1]|e|] st1 [H1 Hv]; [|failed..].
    destruct (Hv _ eq_refl) as [Hv' Hm1].
    apply ends_bind. eapply ends_weaken; [apply IH; eassumption|].
    intros [[rest memo2]|e|] st2 [H2 Hrest]; [|failed..].
    destruct (Hrest _ eq_refl) as [Hrest' Hm2].
    apply ends_ret. split; [assumption|]. intros r Hr. inversion Hr; subst.
    split; [constructor; assumption|assumption].
Qed.

Lemma copy_list_fresh f items :
  (forall v memo st, framed h0 st -> memo_fresh memo ->
                     ends_with (f v memo) st fresh_copy) ->
  forall memo st, framed h0 st -> memo_fresh memo ->
    ends_with (copy_list f items memo) st
      (fun o st' =>
         framed h0 st'
         /\ forall r, o = Done r ->
                      Forall (val_fresh n0) (fst r) /\ memo_fresh (snd r)).
Proof.
  intros Hf. induction items as [|v items IH]; intros memo st Hst Hmemo.
  - split; [assumption|]. intros r Hr. inversion Hr. split; [constructor|assumption].
  - cbn [copy_list]. apply ends_bind.
    eapply ends_weaken; [apply Hf; eassumption|].
    intros [[v' memo1]|e|] st1 [H1 Hv]; [|failed..].
    destruct (Hv _ eq_refl) as [Hv' Hm1].
    apply ends_bind. eapply ends_weaken; [apply IH; eassumption|].
    intros [[rest memo2]|e|] st2 [H2 Hrest]; [|failed..].
    destruct (Hrest _ eq_refl) as [Hrest' Hm2].
    apply ends_ret. split; [assumption|]. intros r Hr. inversion Hr; subst.
    split; [constructor; assumption|assumption].
Qed.

(** [deepcopy] fills new objects only, and its copy is a scalar or new *)
Lemma deepcopy_fresh fuel :
  forall x memo st,
    framed h0 st -> memo_fresh memo ->
    ends_with (deepcopy fuel x memo) st fresh_copy.
Proof.
  induction fuel as [|fuel IH]; intros x memo st Hst Hmemo.
  { failed. }
  cbn [deepcopy]. destruct x as [s|a].
  { apply ends_ret. split; [assumption|]. intros r Hr. inversion Hr.
    split; [exact Logic.I|assumption]. }
  destruct (dict_get a memo) as [y|] eqn:Hy.
  { apply ends_ret. split; [assumption|]. intros r Hr. inversion Hr. split; [|assumption].
    cbn. apply (Hmemo a y), dict_get_some_in, Hy. }
  apply ends_bind, ends_deref; [intros o Ho|intros e; failed].
  assert (Hlen : n0 <= List.length (objects st)) by apply Hst.
  assert (Hmemo' : memo_fresh (dict_set a (List.length (objects st)) memo)).
  { intros x y Hin. apply dict_set_in in Hin as [Hin|E]; [eauto|].
    inversion E; subst. assumption. }
  destruct o as [items|items].
  - apply ends_bind, ends_alloc. apply ends_bind. eapply ends_weaken.
    { apply (copy_items_fresh _ items IH); [|exact Hmemo'].
      apply framed_alloc; [assumption|constructor]. }
    intros [[items' memo1]|e|] st1 [H1 Hr]; [|failed..].
    destruct (Hr _ eq_refl) as [Hitems Hm1].
    apply ends_bind, ends_setobj, ends_ret. split.
    + apply framed_setobj; assumption.
    + intros r Hr'. inversion Hr'; subst. split; [exact Hlen|assumption].
  - apply ends_bind, ends_alloc. apply ends_bind. eapply ends_weaken.
    { apply (copy_list_fresh _ items IH); [|exact Hmemo'].
      apply framed_alloc; [assumption|constructor]. }
    intros [[items' memo1]|e|] st1 [H1 Hr]; [|failed..].
    destruct (Hr _ eq_refl) as [Hitems Hm1].
    apply ends_bind, ends_setobj, ends_ret. split.
    + apply framed_setobj; assumption.
    + intros r Hr'. inversion Hr'; subst. split; [exact Hlen|assumption].
Qed.

End Frame.

Lemma initial_known_eq :
  initial_known = [("parameters", []); ("responses", []); ("definitions", [])].
Proof. vm_compute. reflexivity. Qed.

Lemma start_framed h : framed h (start h).
Proof.
  repeat split; cbn [start objects known]; auto.
  - intros a o Ha Hget. apply lookup_lt_Some in Hget. lia.
  - intros mk t u v Hin Hin'. rewrite initial_known_eq in Hin.
    repeat (apply elem_of_cons in Hin as [E|Hin];
            [inversion E; subst; inversion Hin'|]).
    inversion Hin.
Qed.

(** a whole call keeps the frame and returns a scalar or a new object *)
Lemma flattened_spec_fresh fuel ref_resolver marshal_fn spec_dict spec_resolver
    spec_url h :
  ends_with
    (flattened_spec fuel ref_resolver marshal_fn spec_dict spec_resolver spec_url)
    (start h)
    (fun o st' => framed h st' /\ forall r, o = Done r -> val_fresh (List.length h) r).
Proof.
  unfold flattened_spec. apply ends_bind.
  eapply ends_weaken.
  { apply deepcopy_fresh; [apply start_framed|]. intros x y Hin. inversion Hin. }
  intros [[copy memo]|e|] st1 [H1 Hc]; [|split; [assumption|intros ? ?; discriminate]..].
  cbn [fst]. apply ends_bind, ends_pure.
  { destruct spec_resolver as [r|]; [reflexivity|].
    destruct spec_url as [u|]; [|reflexivity]. now destruct (PyStr.is_empty u). }
  intros [rs|e|]; [|split; [assumption|intros ? ?; discriminate]..].
  cbv zeta. apply ends_bind. eapply ends_weaken; [apply descend_fresh, H1|].
  intros [resolved|e|] st2 [H2 Hr]; [|split; [assumption|intros ? ?; discriminate]..].
  apply ends_bind. unfold ends_with at 1, current_known. cbn [fst snd].
  apply ends_bind. eapply ends_weaken.
  { apply merge_buckets_framed; [exact H2|now apply Hr|]. apply H2. }
  intros [u|e|] st3 H3; [|split; [assumption|intros ? ?; discriminate]..].
  apply ends_ret. split; [assumption|]. intros r Hr'. inversion Hr'; subst. now apply Hr.
Qed.

(** from a new object only new objects are reached *)
Lemma reach_fresh h0 st value b :
  framed h0 st -> reach (objects st) value b ->
  val_fresh (List.length h0) value -> List.length h0 <= b.
Proof.
  intros (_ & _ & Hclosed & _) Hreach.
  induction Hreach as [a|a o v b Hobj Hin _ IH]; intros Hv; [exact Hv|].
  apply IH. pose proof (Hclosed a o Hv Hobj) as Ho.
  exact (proj1 (Forall_forall _ _) Ho v Hin).
Qed.

Lemma read_items_ext f g items :
  (forall v, v ∈ List.map snd items -> f v = g v) ->
  read_items f items = read_items g items.
Proof.
  induction items as [|[key v] items IH]; intros H; [reflexivity|]. cbn.
  rewrite (H v) by left. rewrite IH; [reflexivity|]. intros v' Hv'. apply H. now right.
Qed.

Lemma read_list_ext f g items :
  (forall v, v ∈ items -> f v = g v) ->
  read_list f items = read_list g items.
Proof.
  induction items as [|v items IH]; intros H; [reflexivity|]. cbn.
  rewrite (H v) by left. rewrite IH; [reflexivity|]. intros v' Hv'. apply H. now right.
Qed.

(** a document whose objects are as they were reads as it did *)
Lemma read_frame h0 h' :
  heap_closed h0 ->
  (forall a, a < List.length h0 -> h' !! a = h0 !! a) ->
  forall fuel value, val_closed h0 value -> read fuel h' value = read fuel h0 value.
Proof.
  intros Hclosed Hpre. induction fuel as [|fuel IH]; intros value Hv; [reflexivity|].
  cbn [read]. destruct value as [s|a]; [reflexivity|].
  rewrite (Hpre a Hv).
  destruct (h0 !! a) as [[items|items]|] eqn:E; [| |reflexivity].
  - rewrite (read_items_ext (read fuel h') (read fuel h0)); [reflexivity|].
    intros v Hin. apply IH.
    exact (proj1 (Forall_forall _ _) (Hclosed a _ E) v Hin).
  - rewrite (read_list_ext (read fuel h') (read fuel h0)); [reflexivity|].
    intros v Hin. apply IH.
    exact (proj1 (Forall_forall _ _) (Hclosed a _ E) v Hin).
Qed.

(** C8: whatever the call of [flattened_spec] does and however it ends,
    every object the caller had is as it was; the document returned
    reaches new objects only, none of the caller's; and the input, read
    in the heap after the call, is the document it was before. *)
Theorem input_not_mutated fuel ref_resolver marshal_fn spec_dict spec_resolver
    spec_url h :
  let run :=
    flattened_spec fuel ref_resolver marshal_fn spec_dict spec_resolver spec_url
      (start h) in
  (forall a, a < List.length h -> objects (snd run) !! a = h !! a)
  /\ (forall r b, fst run = Done r -> reach (objects (snd run)) r b ->
                  List.length h <= b)
  /\ (heap_closed h -> val_closed h spec_dict ->
      forall depth, read depth (objects (snd run)) spec_dict = read depth h spec_dict).
Proof.
  cbv zeta.
  pose proof (flattened_spec_fresh fuel ref_resolver marshal_fn spec_dict spec_resolver
                spec_url h) as [Hframed Hfresh].
  repeat split.
  - apply Hframed.
  - intros r b Hr Hreach. eapply reach_fresh; [exact Hframed|exact Hreach|].
    now apply Hfresh.
  - intros Hclosed Hv depth. apply read_frame; [assumption| |assumption].
    apply Hframed.
Qed.

Lemma example_heap_closed : heap_closed example_heap.
Proof.
  intros a o Ha.
  do 4 (destruct a as [|a]; [inversion Ha; subst; repeat constructor|]).
  discriminate.
Qed.

Lemma input_not_mutated_witness :
  read 6 (objects (snd example_call)) (PRef 3) = read 6 example_heap (PRef 3).
Proof.
  apply (input_not_mutated 10 (fun _ _ => example_resolver) (_marshal_uri "/srv")
           (PRef 3) (Some example_resolver) (Some example_url) example_heap).
  - exact example_heap_closed.
  - vm_compute. lia.
Defined.

End HeapFacts.

(* ===================================================================== *)
(** * The engine over objects refines the engine over documents *)
(* ===================================================================== *)

Section AgreeingDicts.
Context {K V W : Type} `{EqDecision K}.
Variable R : V -> W -> Prop.

Abbreviation entries_agree :=
  (Forall2 (fun (x : K * V) (y : K * W) => fst x = fst y /\ R (snd x) (snd y))).

Lemma agree_dict_get k d1 d2 :
  entries_agree d1 d2 ->
  match dict_get k d1, dict_get k d2 with
  | Some x, Some y => R x y
  | None, None => True
  | _, _ => False
  end.
Proof.
  induction 1 as [|[k1 v1] [k2 v2] d1 d2 [Hk Hv] _ IH]; cbn; [exact Logic.I|].
  cbn in Hk, Hv. subst k2. destruct (decide (k = k1)); [exact Hv|exact IH].
Qed.

Lemma agree_dict_mem k d1 d2 :
  entries_agree d1 d2 -> dict_mem k d1 = dict_mem k d2.
Proof.
  intros H. pose proof (agree_dict_get k d1 d2 H) as Hget. unfold dict_mem.
  destruct (dict_get k d1), (dict_get k d2); tauto.
Qed.

Lemma agree_dict_set k v w d1 d2 :
  entries_agree d1 d2 -> R v w -> entries_agree (dict_set k v d1) (dict_set k w d2).
Proof.
  intros H Hvw. induction H as [|[k1 v1] [k2 v2] d1 d2 [Hk Hv] Hrest IH]; cbn.
  - repeat constructor; assumption.
  - cbn in Hk, Hv. subst k2. destruct (decide (k = k1)).
    + constructor; [split; [reflexivity|exact Hvw]|exact Hrest].
    + constructor; [split; [reflexivity|exact Hv]|exact IH].
Qed.

End AgreeingDicts.

Module Refinement.

(** the engine over documents, named apart from the engine over objects *)
Abbreviation doc_ref_target := ref_target.
Abbreviation doc_determine_object_type := _determine_object_type.
Abbreviation doc_is_known := is_known.
Abbreviation doc_store := store.
Abbreviation doc_descend := descend.

Import Heap.

Lemma read_items_some f g items nodes :
  (forall v node, v ∈ List.map snd items -> f v = Some node -> g v = Some node) ->
  read_items f items = Some nodes -> read_items g items = Some nodes.
Proof.
  revert nodes. induction items as [|[key v] items IH]; intros nodes Hfg H; [exact H|].
  cbn in *. destruct (f v) as [node|] eqn:Hv; [|discriminate].
  destruct (read_items f items) as [rest|] eqn:Hrest; [|discriminate].
  rewrite (Hfg v node ltac:(left) Hv).
  rewrite (IH rest); [exact H| |reflexivity].
  intros v' node' Hin. apply Hfg. now right.
Qed.

Lemma read_list_some f g items nodes :
  (forall v node, v ∈ items -> f v = Some node -> g v = Some node) ->
  read_list f items = Some nodes -> read_list g items = Some nodes.
Proof.
  revert nodes. induction items as [|v items IH]; intros nodes Hfg H; [exact H|].
  cbn in *. destruct (f v) as [node|] eqn:Hv; [|discriminate].
  destruct (read_list f items) as [rest|] eqn:Hrest; [|discriminate].
  rewrite (Hfg v node ltac:(left) Hv).
  rewrite (IH rest); [exact H| |reflexivity].
  intros v' node' Hin. apply Hfg. now right.
Qed.

Lemma read_unfold depth h value :
  read (S depth) h value =
  match value with
  | PScalar s => Some (Leaf s)
  | PRef a =>
      match h !! a with
      | Some (PDict items) => Mapping <$> read_items (read depth h) items
      | Some (PList items) => Sequence <$> read_list (read depth h) items
      | None => None
      end
  end.
Proof. reflexivity. Qed.

(** more depth reads the same document *)
Lemma read_S depth h :
  forall value node, read depth h value = Some node -> read (S depth) h value = Some node.
Proof.
  induction depth as [|depth IH]; intros value node H; [discriminate|].
  rewrite read_unfold in H. rewrite read_unfold. destruct value as [s|a]; [exact H|].
  destruct (h !! a) as [[items|items]|]; [| |discriminate].
  - destruct (read_items (read depth h) items) as [nodes|] eqn:E; [|discriminate].
    rewrite (read_items_some _ (read (S depth) h) _ _ (fun v n _ => IH v n) E). exact H.
  - destruct (read_list (read depth h) items) as [nodes|] eqn:E; [|discriminate].
    rewrite (read_list_some _ (read (S depth) h) _ _ (fun v n _ => IH v n) E). exact H.
Qed.

Lemma read_le depth depth' h value node :
  depth <= depth' -> read depth h value = Some node -> read depth' h value = Some node.
Proof.
  induction 1 as [|depth' _ IH]; intros H; [exact H|]. apply read_S. auto.
Qed.

(** new objects change no reading *)
Lemma read_app depth h new :
  forall value node,
    read depth h value = Some node -> read depth (h ++ new) value = Some node.
Proof.
  induction depth as [|depth IH]; intros value node H; [discriminate|].
  rewrite read_unfold in H. rewrite read_unfold. destruct value as [s|a]; [exact H|].
  destruct (h !! a) as [o|] eqn:Ho; [|discriminate].
  rewrite (lookup_app_l_Some _ _ _ _ Ho). destruct o as [items|items].
  - destruct (read_items (read depth h) items) as [nodes|] eqn:E; [|discriminate].
    rewrite (read_items_some _ (read depth (h ++ new)) _ _ (fun v n _ => IH v n) E).
    exact H.
  - destruct (read_list (read depth h) items) as [nodes|] eqn:E; [|discriminate].
    rewrite (read_list_some _ (read depth (h ++ new)) _ _ (fun v n _ => IH v n) E).
    exact H.
Qed.

Lemma denotes_ext h h' value node :
  h `prefix_of` h' -> denotes h value node -> denotes h' value node.
Proof. intros [new ->] [depth H]. exists depth. now apply read_app. Qed.

Lemma items_denote_ext h h' items nodes :
  h `prefix_of` h' -> items_denote h items nodes -> items_denote h' items nodes.
Proof.
  intros [new ->] [depth H]. exists depth.
  apply (read_items_some (read depth h)); [|exact H].
  intros v node _. apply read_app.
Qed.

Lemma list_denotes_ext h h' items nodes :
  h `prefix_of` h' -> list_denotes h items nodes -> list_denotes h' items nodes.
Proof.
  intros [new ->] [depth H]. exists depth.
  apply (read_list_some (read depth h)); [|exact H].
  intros v node _. apply read_app.
Qed.

Lemma items_denote_nil h : items_denote h [] [].
Proof. now exists 0. Qed.

Lemma items_denote_cons h key value node items nodes :
  denotes h value node -> items_denote h items nodes ->
  items_denote h ((key, value) :: items) ((key, node) :: nodes).
Proof.
  intros [d1 H1] [d2 H2]. exists (Nat.max d1 d2). cbn.
  rewrite (read_le d1 _ _ _ _ (Nat.le_max_l d1 d2) H1).
  rewrite (read_items_some (read d2 h) (read (Nat.max d1 d2) h) _ _
             (fun v n _ => read_le d2 _ h v n (Nat.le_max_r d1 d2)) H2).
  reflexivity.
Qed.

Lemma items_denote_inv h key value items nodes :
  items_denote h ((key, value) :: items) nodes ->
  exists node nodes',
    nodes = (key, node) :: nodes' /\ denotes h value node /\ items_denote h items nodes'.
Proof.
  intros [depth H]. cbn in H.
  destruct (read depth h value) as [node|] eqn:Hv; [|discriminate].
  destruct (read_items (read depth h) items) as [rest|] eqn:Hrest; [|discriminate].
  inversion H; subst. exists node, rest. repeat split; [now exists depth..].
Qed.

Lemma list_denotes_nil h : list_denotes h [] [].
Proof. now exists 0. Qed.

Lemma list_denotes_cons h value node items nodes :
  denotes h value node -> list_denotes h items nodes ->
  list_denotes h (value :: items) (node :: nodes).
Proof.
  intros [d1 H1] [d2 H2]. exists (Nat.max d1 d2). cbn.
  rewrite (read_le d1 _ _ _ _ (Nat.le_max_l d1 d2) H1).
  rewrite (read_list_some (read d2 h) (read (Nat.max d1 d2) h) _ _
             (fun v n _ => read_le d2 _ h v n (Nat.le_max_r d1 d2)) H2).
  reflexivity.
Qed.

Lemma list_denotes_inv h value items nodes :
  list_denotes h (value :: items) nodes ->
  exists node nodes',
    nodes = node :: nodes' /\ denotes h value node /\ list_denotes h items nodes'.
Proof.
  intros [depth H]. cbn in H.
  destruct (read depth h value) as [node|] eqn:Hv; [|discriminate].
  destruct (read_list (read depth h) items) as [rest|] eqn:Hrest; [|discriminate].
  inversion H; subst. exists node, rest. repeat split; [now exists depth..].
Qed.

Lemma items_denote_nil_inv h nodes : items_denote h [] nodes -> nodes = [].
Proof. intros [depth H]. now inversion H. Qed.

Lemma list_denotes_nil_inv h nodes : list_denotes h [] nodes -> nodes = [].
Proof. intros [depth H]. now inversion H. Qed.

(** what a value that stands for a document looks like *)
Lemma denotes_inv h value node :
  denotes h value node ->
  match value with
  | PScalar s => node = Leaf s
  | PRef a =>
      (exists items nodes, h !! a = Some (PDict items) /\ node = Mapping nodes
                           /\ items_denote h items nodes)
      \/ (exists items nodes, h !! a = Some (PList items) /\ node = Sequence nodes
                              /\ list_denotes h items nodes)
  end.
Proof.
  intros [depth H]. destruct depth as [|depth]; [discriminate|].
  rewrite read_unfold in H. destruct value as [s|a]; [now inversion H|].
  destruct (h !! a) as [[items|items]|]; [| |discriminate].
  - destruct (read_items (read depth h) items) as [nodes|] eqn:E; [|discriminate].
    inversion H. left. exists items, nodes. repeat split. now exists depth.
  - destruct (read_list (read depth h) items) as [nodes|] eqn:E; [|discriminate].
    inversion H. right. exists items, nodes. repeat split. now exists depth.
Qed.

Lemma denotes_scalar h s : denotes h (PScalar s) (Leaf s).
Proof. now exists 1. Qed.

Lemma denotes_dict h a items nodes :
  h !! a = Some (PDict items) -> items_denote h items nodes ->
  denotes h (PRef a) (Mapping nodes).
Proof. intros Ha [depth H]. exists (S depth). now rewrite read_unfold, Ha, H. Qed.

Lemma denotes_list h a items nodes :
  h !! a = Some (PList items) -> list_denotes h items nodes ->
  denotes h (PRef a) (Sequence nodes).
Proof. intros Ha [depth H]. exists (S depth). now rewrite read_unfold, Ha, H. Qed.

Lemma shape_of_denotes value node hst :
  denotes (objects hst) value node ->
  exists sh, shape_of value hst = (Done sh, hst) /\ shape_denotes (objects hst) sh node.
Proof.
  intros H. apply denotes_inv in H. destruct value as [s|a].
  - subst node. exists (IsScalar s). split; reflexivity.
  - cbn [shape_of]. unfold bindM, deref.
    destruct H as [(items & nodes & Ha & -> & Hitems)|(items & nodes & Ha & -> & Hitems)];
      rewrite Ha; cbn.
    + exists (IsDict items). split; [reflexivity|exact Hitems].
    + exists (IsList items). split; [reflexivity|exact Hitems].
Qed.

Lemma items_denote_keys h items nodes :
  items_denote h items nodes -> dict_keys items = dict_keys nodes.
Proof.
  revert nodes. induction items as [|[key v] items IH]; intros nodes H.
  - now rewrite (items_denote_nil_inv _ _ H).
  - apply items_denote_inv in H as (node & nodes' & -> & _ & H').
    unfold dict_keys in *. cbn. f_equal. auto.
Qed.

Lemma items_denote_get h key items nodes :
  items_denote h items nodes ->
  match dict_get key items, dict_get key nodes with
  | Some v, Some node => denotes h v node
  | None, None => True
  | _, _ => False
  end.
Proof.
  revert nodes. induction items as [|[k v] items IH]; intros nodes H.
  - now rewrite (items_denote_nil_inv _ _ H).
  - apply items_denote_inv in H as (node & nodes' & -> & Hv & H'). cbn.
    destruct (decide (key = k)); [exact Hv|]. now apply IH.
Qed.

Lemma ref_target_agree h sh node :
  shape_denotes h sh node -> Heap.ref_target sh = doc_ref_target node.
Proof.
  destruct sh as [items|items|s], node as [nodes|nodes|s']; cbn; try tauto.
  intros H. pose proof (items_denote_get h "$ref" items nodes H) as Hget.
  destruct (dict_get "$ref" items) as [v|], (dict_get "$ref" nodes) as [n|];
    try tauto.
  apply denotes_inv in Hget. destruct v as [s|a].
  - subst n. reflexivity.
  - destruct Hget as [(? & ? & _ & -> & _)|(? & ? & _ & -> & _)]; reflexivity.
Qed.

Lemma dict_mem_by_keys {V W} (key : string) (d1 : list (string * V))
    (d2 : list (string * W)) :
  dict_keys d1 = dict_keys d2 -> dict_mem key d1 = dict_mem key d2.
Proof.
  intros Hk. destruct (dict_mem key d1) eqn:E1, (dict_mem key d2) eqn:E2; auto.
  - apply dict_mem_keys in E1. rewrite Hk in E1. apply dict_mem_keys in E1. congruence.
  - apply dict_mem_keys in E2. rewrite <- Hk in E2. apply dict_mem_keys in E2. congruence.
Qed.

Lemma determine_dict_type_by_keys {V W} (d1 : list (string * V)) (d2 : list (string * W)) :
  dict_keys d1 = dict_keys d2 -> determine_dict_type d1 = determine_dict_type d2.
Proof.
  intros Hk. unfold determine_dict_type, non_extension_keys.
  now rewrite (dict_mem_by_keys "in" d1 d2 Hk), (dict_mem_by_keys "name" d1 d2 Hk), Hk.
Qed.

Lemma is_str_agree h s items nodes :
  list_denotes h items nodes ->
  existsb (is_str s) items = existsb (is_str_leaf s) nodes.
Proof.
  revert nodes. induction items as [|v items IH]; intros nodes H.
  - now rewrite (list_denotes_nil_inv _ _ H).
  - apply list_denotes_inv in H as (node & nodes' & -> & Hv & H'). cbn.
    rewrite (IH _ H'). f_equal. apply denotes_inv in Hv. destruct v as [s'|a].
    + now subst node.
    + destruct Hv as [(? & ? & _ & -> & _)|(? & ? & _ & -> & _)]; reflexivity.
Qed.

Lemma classify_agree h sh node :
  shape_denotes h sh node ->
  Heap._determine_object_type sh = doc_determine_object_type node.
Proof.
  destruct sh as [items|items|s], node as [nodes|nodes|s']; cbn; try tauto.
  - intros H. f_equal. apply determine_dict_type_by_keys.
    eapply items_denote_keys, H.
  - intros H. now rewrite !(is_str_agree h _ items nodes H).
  - now intros ->.
Qed.

Lemma table_agrees_ext h h' t t' :
  h `prefix_of` h' -> table_agrees h t t' -> table_agrees h' t t'.
Proof.
  intros Hp H. eapply Forall2_impl; [exact H|]. intros x y [Hk Hv].
  split; [exact Hk|]. eapply denotes_ext; eassumption.
Qed.

Lemma tables_agree_ext h h' hk km :
  h `prefix_of` h' -> tables_agree h hk km -> tables_agree h' hk km.
Proof.
  intros Hp H. eapply Forall2_impl; [exact H|]. intros x y [Hk Hv].
  split; [exact Hk|]. eapply table_agrees_ext; eassumption.
Qed.

(** ** Runs in step *)

Lemma sim_bind {A B A' B'} (same : list pyobj -> A -> B -> Prop)
    (same' : list pyobj -> A' -> B' -> Prop)
    (hm : HM A) (m : M B) (hk : A -> HM A') (k : B -> M B') hst st :
  runs_agree same hst (hm hst) (m st) ->
  (forall a b hst' st',
      objects hst `prefix_of` objects hst' ->
      tables_agree (objects hst') (known hst') (known_mappings st') ->
      same (objects hst') a b ->
      runs_agree same' hst' (hk a hst') (k b st')) ->
  runs_agree same' hst (bindM hm hk hst) (bindM m k st).
Proof.
  unfold runs_agree, bindM.
  destruct (hm hst) as [[a|e|] hst1], (m st) as [[b|e'|] st1]; cbn [fst snd];
    intros (Hp & Ht & Hs) Hk; try tauto.
  destruct (Hk a b hst1 st1 Hp Ht Hs) as (Hp' & Ht' & Hs').
  split; [etrans; eassumption|]. split; assumption.
Qed.

Lemma sim_ret {A B} (same : list pyobj -> A -> B -> Prop) a b hst st :
  tables_agree (objects hst) (known hst) (known_mappings st) ->
  same (objects hst) a b ->
  runs_agree same hst (ret a hst) (ret b st).
Proof. intros Ht Hs. split; [reflexivity|]. split; assumption. Qed.

Lemma sim_raise {A B} (same : list pyobj -> A -> B -> Prop) e hst st :
  tables_agree (objects hst) (known hst) (known_mappings st) ->
  runs_agree same hst (raise e hst) (raise e st).
Proof. intros Ht. split; [reflexivity|]. split; [assumption|reflexivity]. Qed.

Lemma sim_lift {A} (r : result A) hst st :
  tables_agree (objects hst) (known hst) (known_mappings st) ->
  runs_agree (fun _ a b => a = b) hst (lift r hst) (lift r st).
Proof.
  intros Ht. destruct r as [a|e]; [now apply sim_ret|now apply sim_raise].
Qed.

(** the ghost record of a call is a step of the engine over documents
    alone *)
Lemma sim_record {A B} (same : list pyobj -> A -> B -> Prop) ev
    (hrun : outcome A * hstate) (m : M B) hst st :
  runs_agree same hst hrun (m (mkState (known_mappings st) (calls st ++ [ev]))) ->
  runs_agree same hst hrun (bindM (record ev) (fun _ => m) st).
Proof. exact (fun H => H). Qed.

Lemma sim_is_known mapping_key uri hst st :
  tables_agree (objects hst) (known hst) (known_mappings st) ->
  runs_agree (fun _ a b => a = b) hst
    (Heap.is_known mapping_key uri hst) (doc_is_known mapping_key uri st).
Proof.
  intros Ht. apply sim_ret; [assumption|]. unfold km_get.
  pose proof (agree_dict_get _ mapping_key _ _ Ht) as Hget. cbn beta in Hget.
  destruct (dict_get mapping_key (known hst)) as [t|],
           (dict_get mapping_key (known_mappings st)) as [t'|]; try tauto.
  cbn [default from_option id]. exact (agree_dict_mem _ uri _ _ Hget).
Qed.

Lemma sim_store mapping_key uri value node hst st :
  tables_agree (objects hst) (known hst) (known_mappings st) ->
  denotes (objects hst) value node ->
  runs_agree (fun _ _ _ => True) hst
    (Heap.store mapping_key uri value hst) (doc_store mapping_key uri node st).
Proof.
  intros Ht Hv. unfold Heap.store, doc_store.
  pose proof (agree_dict_get _ mapping_key _ _ Ht) as Hget. cbn beta in Hget.
  destruct (dict_get mapping_key (known hst)) as [t|],
           (dict_get mapping_key (known_mappings st)) as [t'|]; try tauto.
  - split; [reflexivity|]. split; [|exact Logic.I]. cbn [snd objects known known_mappings].
    apply (agree_dict_set (table_agrees (objects hst))); [exact Ht|].
    apply (agree_dict_set (denotes (objects hst))); assumption.
  - now apply sim_raise.
Qed.

Lemma lookup_new (h : list pyobj) o : (h ++ [o]) !! List.length h = Some o.
Proof. now apply list_lookup_middle. Qed.

Lemma prefix_new (h : list pyobj) o : h `prefix_of` h ++ [o].
Proof. now exists [o]. Qed.

(** a new dict stands for the mapping its items stand for *)
Lemma sim_alloc_dict items nodes hst st :
  tables_agree (objects hst) (known hst) (known_mappings st) ->
  items_denote (objects hst) items nodes ->
  runs_agree denotes hst
    ((let* a := alloc (PDict items) in ret (PRef a)) hst) (ret (Mapping nodes) st).
Proof.
  intros Ht Hitems. split; [apply prefix_new|]. cbn [fst snd objects known].
  split; [eapply tables_agree_ext; [apply prefix_new|exact Ht]|].
  eapply denotes_dict; [apply lookup_new|].
  eapply items_denote_ext; [apply prefix_new|exact Hitems].
Qed.

Lemma sim_alloc_list items nodes hst st :
  tables_agree (objects hst) (known hst) (known_mappings st) ->
  list_denotes (objects hst) items nodes ->
  runs_agree denotes hst
    ((let* a := alloc (PList items) in ret (PRef a)) hst) (ret (Sequence nodes) st).
Proof.
  intros Ht Hitems. split; [apply prefix_new|]. cbn [fst snd objects known].
  split; [eapply tables_agree_ext; [apply prefix_new|exact Ht]|].
  eapply denotes_list; [apply lookup_new|].
  eapply list_denotes_ext; [apply prefix_new|exact Hitems].
Qed.

Section Simulation.
Variable base : list pyobj.

Lemma sim_mapM_items f g :
  in_step base f g ->
  forall items nodes hst st,
    base `prefix_of` objects hst ->
    tables_agree (objects hst) (known hst) (known_mappings st) ->
    items_denote (objects hst) items nodes ->
    runs_agree items_denote hst (mapM_items f items hst) (mapM_items g nodes st).
Proof.
  intros Hfg. induction items as [|[key value] items IH]; intros nodes hst st Hb Ht Hd.
  - rewrite (items_denote_nil_inv _ _ Hd). apply sim_ret; [assumption|].
    apply items_denote_nil.
  - apply items_denote_inv in Hd as (node & nodes' & -> & Hv & Hrest).
    cbn [mapM_items]. eapply sim_bind; [now apply Hfg|].
    intros v' node' hst1 st1 Hp1 Ht1 Hv'. cbn beta.
    eapply sim_bind.
    { apply IH; [etrans; eassumption|assumption|].
      eapply items_denote_ext; eassumption. }
    intros rest rest' hst2 st2 Hp2 Ht2 Hrest'. cbn beta.
    apply sim_ret; [assumption|]. apply items_denote_cons; [|assumption].
    eapply denotes_ext; eassumption.
Qed.

Lemma sim_mapM_list f g :
  in_step base f g ->
  forall items nodes hst st,
    base `prefix_of` objects hst ->
    tables_agree (objects hst) (known hst) (known_mappings st) ->
    list_denotes (objects hst) items nodes ->
    runs_agree list_denotes hst (mapM_list f items hst) (mapM_list g nodes st).
Proof.
  intros Hfg. induction items as [|value items IH]; intros nodes hst st Hb Ht Hd.
  - rewrite (list_denotes_nil_inv _ _ Hd). apply sim_ret; [assumption|].
    apply list_denotes_nil.
  - apply list_denotes_inv in Hd as (node & nodes' & -> & Hv & Hrest).
    cbn [mapM_list]. eapply sim_bind; [now apply Hfg|].
    intros v' node' hst1 st1 Hp1 Ht1 Hv'. cbn beta.
    eapply sim_bind.
    { apply IH; [etrans; eassumption|assumption|].
      eapply list_denotes_ext; eassumption. }
    intros rest rest' hst2 st2 Hp2 Ht2 Hrest'. cbn beta.
    apply sim_ret; [assumption|]. apply list_denotes_cons; [|assumption].
    eapply denotes_ext; eassumption.
Qed.

Variable hresolve : list pyobj -> string -> string -> result (string * pyval).
Variable resolve : string -> string -> result (string * Node).
Variable marshal_uri : ParseResult -> result string.
Hypothesis resolvers : resolvers_agree base hresolve resolve.

Lemma heap_descend_unfold fuel scope value :
  Heap.descend hresolve marshal_uri (S fuel) scope value =
  let* sh := shape_of value in
  match Heap.ref_target sh with
  | Some ref =>
      let* r := resolving hresolve scope ref in
      let '(uri, deref_value) := r in
      let* object_dict := shape_of deref_value in
      let* object_type := lift (Heap._determine_object_type object_dict) in
      if decide (object_type = Some _TYPE_PATH_ITEM) then
        Heap.descend hresolve marshal_uri fuel uri deref_value
      else
        let mapping_key := holder_of object_type in
        let scope' := uri in
        let uri := urlparse uri in
        let* known := Heap.is_known mapping_key uri in
        let* _ :=
          if known then ret tt
          else
            let* _ := Heap.store mapping_key uri (PScalar SNull) in
            let* resolved := Heap.descend hresolve marshal_uri fuel scope' deref_value in
            Heap.store mapping_key uri resolved in
        let* marshaled := lift (marshal_uri uri) in
        let* a :=
          alloc (PDict [("$ref",
                         PScalar (SStr ("#/" +:+ mapping_key +:+ "/" +:+ marshaled)))]) in
        ret (PRef a)
  | None =>
      match sh with
      | IsDict items =>
          let* items' := mapM_items (Heap.descend hresolve marshal_uri fuel scope) items in
          let* a := alloc (PDict items') in
          ret (PRef a)
      | IsList items =>
          let* items' := mapM_list (Heap.descend hresolve marshal_uri fuel scope) items in
          let* a := alloc (PList items') in
          ret (PRef a)
      | IsScalar _ => ret value
      end
  end.
Proof. reflexivity. Qed.

(** The engine over objects and the engine over documents run in step:
    from tables that agree and on a value that stands for the document,
    both return, the returned object standing for the returned document,
    or both raise the same exception, or both run out of fuel; and the
    tables agree again. *)
Theorem descend_refines fuel :
  forall scope,
    in_step base (Heap.descend hresolve marshal_uri fuel scope)
                 (doc_descend resolve marshal_uri fuel scope).
Proof using resolvers.
  induction fuel as [|fuel IH]; intros scope value node hst st Hb Ht Hd.
  { split; [reflexivity|]. split; [assumption|exact Logic.I]. }
  rewrite heap_descend_unfold, descend_unfold.
  destruct (shape_of_denotes _ _ _ Hd) as (sh & Hsh & Hshape).
  rewrite (bindM_done _ _ _ _ _ Hsh).
  rewrite (ref_target_agree _ _ _ Hshape).
  destruct (doc_ref_target node) as [ref|] eqn:Href.
  - pose proof (resolvers (objects hst) scope ref Hb) as Hres.
    destruct (hresolve (objects hst) scope ref) as [[url target]|e] eqn:Hh.
    2:{ assert (Hr : resolving hresolve scope ref hst = (Raised e, hst))
          by (unfold resolving; now rewrite Hh).
        rewrite (bindM_raised _ _ _ _ _ Hr), Hres,
                (bindM_raised (lift (Raise e)) _ st e st eq_refl).
        split; [reflexivity|]. split; [assumption|reflexivity]. }
    destruct Hres as (deref & -> & Htarget).
    assert (Hr : resolving hresolve scope ref hst = (Done (url, target), hst))
      by (unfold resolving; now rewrite Hh).
    rewrite (bindM_done _ _ _ _ _ Hr).
    rewrite (bindM_done (lift (Ok (url, deref))) _ st (url, deref) st eq_refl).
    destruct (shape_of_denotes _ _ _ Htarget) as (sh' & Hsh' & Hshape').
    rewrite (bindM_done _ _ _ _ _ Hsh').
    rewrite (classify_agree _ _ _ Hshape').
    eapply sim_bind; [now apply sim_lift|].
    intros ot ? hst1 st1 Hp1 Ht1 <-.
    assert (Hb1 : base `prefix_of` objects hst1) by exact (transitivity Hb Hp1).
    assert (Htarget1 : denotes (objects hst1) target deref)
      by (eapply denotes_ext; [exact Hp1|exact Htarget]).
    destruct (decide (ot = Some _TYPE_PATH_ITEM)) as [Hpi|Hpi].
    + apply sim_record. now apply IH.
    + cbv zeta. eapply sim_bind; [now apply sim_is_known|].
      intros known ? hst2 st2 Hp2 Ht2 <-.
      assert (Hb2 : base `prefix_of` objects hst2) by exact (transitivity Hb1 Hp2).
      eapply sim_bind with (same := fun _ _ _ => True).
      { destruct known; [now apply sim_ret|].
        eapply sim_bind; [apply sim_store; [assumption|apply denotes_scalar]|].
        intros _ _ hst3 st3 Hp3 Ht3 _. apply sim_record.
        eapply sim_bind.
        { apply IH; [exact (transitivity Hb2 Hp3)|exact Ht3|].
          eapply denotes_ext; [exact (transitivity Hp2 Hp3)|exact Htarget1]. }
        intros resolved resolved' hst4 st4 Hp4 Ht4 Hres4.
        now apply sim_store. }
      intros _ _ hst5 st5 Hp5 Ht5 _.
      eapply sim_bind; [now apply sim_lift|].
      intros marshaled ? hst6 st6 Hp6 Ht6 <-.
      apply sim_alloc_dict; [assumption|].
      apply items_denote_cons; [apply denotes_scalar|apply items_denote_nil].
  - destruct sh as [items|items|s], node as [nodes|nodes|s']; cbn in Hshape; try tauto.
    + eapply sim_bind; [apply sim_mapM_items; [apply IH|assumption..]|].
      intros items' nodes' hst1 st1 Hp1 Ht1 Hitems. now apply sim_alloc_dict.
    + eapply sim_bind; [apply sim_mapM_list; [apply IH|assumption..]|].
      intros items' nodes' hst1 st1 Hp1 Ht1 Hitems. now apply sim_alloc_list.
    + now apply sim_ret.
Qed.

End Simulation.

(** the resolver of the example over objects gives what a resolver over
    documents gives *)
Lemma example_resolvers_agree :
  resolvers_agree example_heap (resolve_in example_resolver) pet_resolve.
Proof.
  intros h scope ref Hp. cbn [resolve_in example_resolver]. unfold pet_resolve.
  destruct (String.eqb ref "#/definitions/Pet"); [|reflexivity].
  eexists. split; [reflexivity|].
  eapply denotes_ext; [exact Hp|]. now exists 2.
Qed.

(** the two engines on the example: the same tables, and an object that
    stands for the document returned *)
Example example_descend_refines :
  runs_agree denotes (start example_heap)
    (Heap.descend (resolve_in example_resolver) plain_marshal 10 example_url (PRef 3)
       (start example_heap))
    (doc_descend pet_resolve plain_marshal 10 example_url
       (Mapping [("definitions",
                  Mapping [("Pet", Mapping [("type", Leaf (SStr "object"))]);
                           ("Ref", Mapping [("$ref", Leaf (SStr "#/definitions/Pet"))])])])
       initial_state).
Proof.
  apply (descend_refines example_heap _ _ _ example_resolvers_agree).
  - reflexivity.
  - change (known (start example_heap)) with initial_known.
    change (known_mappings initial_state) with initial_known_mappings.
    rewrite HeapFacts.initial_known_eq, initial_known_mappings_eq.
    repeat (constructor; [split; [reflexivity|constructor]|]). constructor.
  - now exists 5.
Qed.

End Refinement.

(* ===================================================================== *)
(** * More about the URI marshaler *)
(* ===================================================================== *)

(** [_marshal_uri], its two tests on the scheme taken together *)
Lemma marshal_uri_unfold cwd t o :
  _marshal_uri cwd t o =
  if PyStr.is_empty (urlunparse t)
  then Raise (ValueError ("Invalid target: '" +:+ urlunparse t +:+ "'"))
  else
    let t' := with_scheme (defaulted_scheme t) t in
    if negb (str_in (defaulted_scheme t) ["file"; "http"; "https"])
    then Raise (ValueError ("Invalid target: '" +:+ urlunparse t' +:+ "'"))
    else
      s ← match o with
          | Some origin =>
              if String.eqb (defaulted_scheme t) "file" then
                p ← PosixPath.relpath cwd (path t) (PosixPath.dirname (path origin));
                Ok (urlunparse
                      (mkParseResult "lfile" (netloc t) p (params t) (query t)
                         (fragment t)))
              else Ok (urlunparse t')
          | None => Ok (urlunparse t')
          end;
      Ok (marshal_patterns s).
Proof.
  destruct t as [sch nl p pa q f].
  unfold _marshal_uri, defaulted_scheme, with_scheme, marshal_patterns.
  cbn [scheme netloc path params query fragment].
  destruct (PyStr.is_empty (urlunparse (mkParseResult sch nl p pa q f))) eqn:Hempty.
  { cbn [negb andb]. rewrite Hempty. reflexivity. }
  destruct (String.eqb sch "") eqn:Hsch; cbn [negb andb].
  - rewrite urlunparse_nonempty by (cbn; congruence).
    cbn [scheme netloc path params query fragment orb]. reflexivity.
  - rewrite Hempty. cbn [scheme netloc path params query fragment orb]. reflexivity.
Qed.

Lemma defaulted_scheme_with_scheme s t :
  s <> "" -> defaulted_scheme (with_scheme s t) = s.
Proof.
  intros Hs. unfold defaulted_scheme, with_scheme. cbn [scheme].
  now rewrite eqb_empty_false.
Qed.

(** X1: a target without a scheme whose serialization is not empty is
    marshaled as the same target with the scheme [file]: the two calls
    give the same key or raise the same exception, whatever the origin. *)
Theorem marshal_uri_relative_as_file cwd t o :
  scheme t = "" -> urlunparse t <> "" ->
  _marshal_uri cwd t o = _marshal_uri cwd (with_scheme "file" t) o.
Proof.
  intros Hs Hne. rewrite !marshal_uri_unfold.
  assert (He : PyStr.is_empty (urlunparse t) = false).
  { destruct (PyStr.is_empty (urlunparse t)) eqn:E; [|reflexivity].
    apply is_empty_true in E. congruence. }
  rewrite He, (urlunparse_nonempty (with_scheme "file" t)) by (cbn; congruence).
  rewrite defaulted_scheme_with_scheme by congruence.
  unfold defaulted_scheme. rewrite Hs. reflexivity.
Qed.

Lemma marshal_uri_relative_as_file_witness :
  _marshal_uri "/srv" (mkParseResult "" "" "/specs/b.json" "" "" "/definitions/Pet")
    example_origin
  = _marshal_uri "/srv"
      (with_scheme "file"
         (mkParseResult "" "" "/specs/b.json" "" "" "/definitions/Pet"))
      example_origin.
Proof.
  apply marshal_uri_relative_as_file; [reflexivity|].
  vm_compute. discriminate.
Defined.

(** X2: for a target whose scheme is neither empty nor [file] the origin
    and the working directory are not looked at: the key, or the
    exception, is the one of the call without an origin. *)
Theorem marshal_uri_remote_ignores_origin cwd cwd' t o :
  scheme t <> "" -> scheme t <> "file" ->
  _marshal_uri cwd t o = _marshal_uri cwd' t None.
Proof.
  intros Hs Hf. rewrite !marshal_uri_unfold.
  destruct (PyStr.is_empty (urlunparse t)); [reflexivity|]. cbv zeta.
  destruct (negb (str_in (defaulted_scheme t) ["file"; "http"; "https"]));
    [reflexivity|].
  destruct o as [origin|]; [|reflexivity].
  unfold defaulted_scheme. rewrite (eqb_empty_false _ Hs).
  now rewrite (proj2 (String.eqb_neq _ _) Hf).
Qed.

Lemma marshal_uri_remote_ignores_origin_witness :
  _marshal_uri "/srv" (urlparse "http://host/api/pet.json#/definitions/Pet")
    example_origin
  = _marshal_uri "/" (urlparse "http://host/api/pet.json#/definitions/Pet") None.
Proof.
  apply marshal_uri_remote_ignores_origin; vm_compute; discriminate.
Defined.

Lemma str_app_cons (a : ascii) (s1 s2 : string) :
  String a s1 +:+ s2 = String a (s1 +:+ s2).
Proof. reflexivity. Qed.

Lemma str_app_assoc (s1 s2 s3 : string) : (s1 +:+ s2) +:+ s3 = s1 +:+ (s2 +:+ s3).
Proof.
  induction s1 as [|a s1 IH]; [reflexivity|]. now rewrite !str_app_cons, IH.
Qed.

Lemma str_app_nil_r (s : string) : s +:+ "" = s.
Proof. induction s as [|a s IH]; [reflexivity|]. now rewrite str_app_cons, IH. Qed.

(** the replacement of one character goes through a string piece by
    piece *)
Lemma replace_single_app (c : ascii) (new s1 s2 : string) :
  PyStr.replace (String c "") new (s1 +:+ s2)
  = PyStr.replace (String c "") new s1 +:+ PyStr.replace (String c "") new s2.
Proof.
  induction s1 as [|a s1 IH]; [reflexivity|].
  rewrite str_app_cons, !replace_single_cons, IH.
  destruct (Ascii.eqb a c); [now rewrite str_app_assoc|reflexivity].
Qed.

Lemma replace_single_is_empty (c : ascii) (new s : string) :
  new <> "" ->
  PyStr.is_empty (PyStr.replace (String c "") new s) = PyStr.is_empty s.
Proof.
  intros Hnew. destruct s as [|a s]; [reflexivity|].
  rewrite replace_single_cons. destruct (Ascii.eqb a c); [|reflexivity].
  destruct new; [congruence|reflexivity].
Qed.

Lemma marshal_patterns_eq (s : string) :
  marshal_patterns s = PyStr.replace "#" "|" (PyStr.replace "/" ".." s).
Proof. reflexivity. Qed.

Lemma marshal_patterns_app (s1 s2 : string) :
  marshal_patterns (s1 +:+ s2) = marshal_patterns s1 +:+ marshal_patterns s2.
Proof. now rewrite !marshal_patterns_eq, !replace_single_app. Qed.

Lemma marshal_patterns_is_empty (s : string) :
  PyStr.is_empty (marshal_patterns s) = PyStr.is_empty s.
Proof.
  rewrite marshal_patterns_eq, !replace_single_is_empty; [reflexivity|discriminate..].
Qed.

(** the fragment is the last piece of a serialized location *)
Lemma urlunparse_fragment (u : ParseResult) :
  urlunparse u
  = urlunparse (with_fragment "" u)
    +:+ (if PyStr.is_empty (fragment u) then "" else "#" +:+ fragment u).
Proof.
  destruct u as [sch nl p pa q f]. unfold urlunparse, urlunsplit, with_fragment.
  cbn [scheme netloc path params query fragment PyStr.is_empty].
  destruct (PyStr.is_empty f).
  - destruct f; now rewrite str_app_nil_r.
  - destruct f; reflexivity.
Qed.

Lemma urlunparse_with_fragment (f : string) (u : ParseResult) :
  urlunparse (with_fragment f u)
  = urlunparse (with_fragment "" u) +:+ fragment_suffix f.
Proof. now rewrite urlunparse_fragment. Qed.

Lemma fragment_suffix_is_empty f :
  PyStr.is_empty (fragment_suffix f) = PyStr.is_empty f.
Proof. unfold fragment_suffix. now destruct f. Qed.

(** the key of a target, as a function of its fragment *)
Lemma marshal_uri_with_fragment cwd t o f key :
  _marshal_uri cwd (with_fragment f t) o = Ok key ->
  exists pre,
    key = pre +:+ marshal_patterns (fragment_suffix f)
    /\ forall f',
         PyStr.is_empty f' = PyStr.is_empty f ->
         _marshal_uri cwd (with_fragment f' t) o
         = Ok (pre +:+ marshal_patterns (fragment_suffix f')).
Proof.
  assert (Hcond : forall g,
    PyStr.is_empty (urlunparse (with_fragment g t))
    = PyStr.is_empty (urlunparse (with_fragment "" t)) && PyStr.is_empty g).
  { intros g. now rewrite urlunparse_with_fragment, is_empty_app,
      fragment_suffix_is_empty. }
  set (plain := urlunparse (with_fragment "" (with_scheme (defaulted_scheme t) t))).
  set (masked := fun p =>
         urlunparse
           (with_fragment ""
              (mkParseResult "lfile" (netloc t) p (params t) (query t) ""))).
  assert (Hplain : forall g,
    urlunparse (with_scheme (defaulted_scheme t) (with_fragment g t))
    = plain +:+ fragment_suffix g).
  { intros g. unfold plain.
    change (with_scheme (defaulted_scheme t) (with_fragment g t))
      with (with_fragment g (with_scheme (defaulted_scheme t) t)).
    apply urlunparse_with_fragment. }
  assert (Hmasked : forall p g,
    urlunparse (mkParseResult "lfile" (netloc t) p (params t) (query t) g)
    = masked p +:+ fragment_suffix g).
  { intros p g. unfold masked.
    apply (urlunparse_with_fragment g
             (mkParseResult "lfile" (netloc t) p (params t) (query t) "")). }
  assert (Hrun : forall g,
    _marshal_uri cwd (with_fragment g t) o
    = if PyStr.is_empty (urlunparse (with_fragment "" t)) && PyStr.is_empty g
      then Raise (ValueError
                    ("Invalid target: '" +:+ urlunparse (with_fragment g t) +:+ "'"))
      else if negb (str_in (defaulted_scheme t) ["file"; "http"; "https"])
      then Raise (ValueError
                    ("Invalid target: '" +:+ (plain +:+ fragment_suffix g) +:+ "'"))
      else
        match o with
        | Some origin =>
            if String.eqb (defaulted_scheme t) "file" then
              match PosixPath.relpath cwd (path t) (PosixPath.dirname (path origin)) with
              | Ok p => Ok (marshal_patterns (masked p +:+ fragment_suffix g))
              | Raise e => Raise e
              end
            else Ok (marshal_patterns (plain +:+ fragment_suffix g))
        | None => Ok (marshal_patterns (plain +:+ fragment_suffix g))
        end).
  { intros g. rewrite marshal_uri_unfold, Hcond. cbv zeta.
    change (defaulted_scheme (with_fragment g t)) with (defaulted_scheme t).
    rewrite Hplain.
    destruct (_ && _); [reflexivity|]. destruct (negb _); [reflexivity|].
    destruct o as [origin|]; [|reflexivity].
    destruct (String.eqb _ "file"); [|reflexivity].
    change (path (with_fragment g t)) with (path t).
    destruct (PosixPath.relpath _ _ _) as [p|e]; [|reflexivity].
    change (netloc (with_fragment g t)) with (netloc t).
    change (params (with_fragment g t)) with (params t).
    change (query (with_fragment g t)) with (query t).
    change (fragment (with_fragment g t)) with g.
    unfold mbind, result_bind. now rewrite Hmasked. }
  rewrite Hrun. intros H.
  assert (Hgoal : forall pre,
    (forall g, PyStr.is_empty g = PyStr.is_empty f ->
               _marshal_uri cwd (with_fragment g t) o
               = Ok (marshal_patterns (pre +:+ fragment_suffix g))) ->
    key = marshal_patterns (pre +:+ fragment_suffix f) ->
    exists pre0,
      key = pre0 +:+ marshal_patterns (fragment_suffix f)
      /\ forall f', PyStr.is_empty f' = PyStr.is_empty f ->
           _marshal_uri cwd (with_fragment f' t) o
           = Ok (pre0 +:+ marshal_patterns (fragment_suffix f'))).
  { intros pre Hall Hkey. exists (marshal_patterns pre). split.
    - now rewrite <- marshal_patterns_app.
    - intros f' Hf'. rewrite <- marshal_patterns_app. now apply Hall. }
  destruct (PyStr.is_empty (urlunparse (with_fragment "" t)) && PyStr.is_empty f)
    eqn:He; [discriminate|].
  destruct (negb (str_in (defaulted_scheme t) ["file"; "http"; "https"])) eqn:Hs;
    [discriminate|].
  destruct o as [origin|].
  - destruct (String.eqb (defaulted_scheme t) "file") eqn:Hfile.
    + destruct (PosixPath.relpath cwd (path t) (PosixPath.dirname (path origin)))
        as [p|e] eqn:Hrel; [|discriminate].
      apply (Hgoal (masked p)); [|congruence].
      intros g Hg. now rewrite Hrun, Hg, He.
    + apply (Hgoal plain); [|congruence].
      intros g Hg. now rewrite Hrun, Hg, He.
  - apply (Hgoal plain); [|congruence].
    intros g Hg. now rewrite Hrun, Hg, He.
Qed.

Lemma fragment_suffix_patterns f1 f2 :
  marshal_patterns f1 = marshal_patterns f2 ->
  marshal_patterns (fragment_suffix f1) = marshal_patterns (fragment_suffix f2)
  /\ PyStr.is_empty f2 = PyStr.is_empty f1.
Proof.
  intros H.
  assert (He : PyStr.is_empty f2 = PyStr.is_empty f1)
    by now rewrite <- (marshal_patterns_is_empty f1), H, marshal_patterns_is_empty.
  split; [|assumption]. unfold fragment_suffix. rewrite He.
  destruct (PyStr.is_empty f1); [reflexivity|].
  now rewrite !marshal_patterns_app, H.
Qed.

(** X3: the marshaler is not one-to-one.  Two targets that differ in the
    fragment alone get the same key as soon as the two fragments become
    the same string under the replacements of [/] and [#]: [a/b] and
    [a..b], or [a#b] and [a|b]. *)
Theorem marshal_uri_fragment_clash cwd t o f1 f2 key :
  marshal_patterns f1 = marshal_patterns f2 ->
  _marshal_uri cwd (with_fragment f1 t) o = Ok key ->
  _marshal_uri cwd (with_fragment f2 t) o = Ok key.
Proof.
  intros Hsame H.
  destruct (marshal_uri_with_fragment _ _ _ _ _ H) as (pre & -> & Hall).
  destruct (fragment_suffix_patterns _ _ Hsame) as [Hsuffix Hempty].
  rewrite (Hall f2 Hempty). now rewrite Hsuffix.
Qed.

Lemma marshal_uri_fragment_clash_witness :
  _marshal_uri "/srv"
    (with_fragment "/definitions/a..b" (urlparse "http://host/api.json")) None
  = Ok "http:....host..api.json|..definitions..a..b".
Proof.
  apply (marshal_uri_fragment_clash "/srv" (urlparse "http://host/api.json") None
           "/definitions/a/b" "/definitions/a..b");
    vm_compute; reflexivity.
Defined.

Lemma str_prefix_app (p s : string) : String.prefix p (p +:+ s) = true.
Proof.
  induction p as [|a p IH]; [now destruct s|].
  rewrite str_app_cons. cbn [String.prefix]. now destruct (ascii_dec a a).
Qed.

(** a serialized location starts with its scheme *)
Lemma urlunparse_scheme (u : ParseResult) :
  scheme u <> "" -> exists rest, urlunparse u = (scheme u +:+ ":") +:+ rest.
Proof.
  intros Hs. unfold urlunparse, urlunsplit.
  destruct (PyStr.is_empty (scheme u)) eqn:He;
    [apply is_empty_true in He; congruence|].
  set (url := if negb (PyStr.is_empty (netloc u)) || _ then _ else _).
  destruct (PyStr.is_empty (query u)), (PyStr.is_empty (fragment u));
    eexists; rewrite ?str_app_assoc; reflexivity.
Qed.

Lemma marshal_patterns_scheme (s rest : string) :
  str_in s ["lfile"; "file"; "http"; "https"] = true ->
  String.prefix (s +:+ ":") (marshal_patterns ((s +:+ ":") +:+ rest)) = true.
Proof.
  intros Hin. rewrite marshal_patterns_app.
  assert (Hs : marshal_patterns (s +:+ ":") = s +:+ ":").
  { cbn in Hin. repeat (apply orb_prop in Hin as [Hin|Hin]);
      try discriminate; apply String.eqb_eq in Hin; subst s; reflexivity. }
  rewrite Hs. apply str_prefix_app.
Qed.

Lemma defaulted_scheme_nonempty t : defaulted_scheme t <> "".
Proof.
  unfold defaulted_scheme. destruct (String.eqb (scheme t) "") eqn:E; [discriminate|].
  now apply String.eqb_neq.
Qed.

Lemma prefix_nonempty (p s : string) : p <> "" -> String.prefix p s = true -> s <> "".
Proof. intros Hp H ->. destruct p; [congruence|discriminate]. Qed.

(** the shape of every key: the scheme shown, a colon, and the rest *)
Lemma marshal_uri_key_shape cwd t o key :
  _marshal_uri cwd t o = Ok key ->
  let shown :=
    match o with
    | Some _ => if String.eqb (defaulted_scheme t) "file" then "lfile"
                else defaulted_scheme t
    | None => defaulted_scheme t
    end in
  String.prefix (shown +:+ ":") key = true.
Proof.
  rewrite marshal_uri_unfold.
  destruct (PyStr.is_empty (urlunparse t)); [discriminate|]. cbv zeta.
  destruct (str_in (defaulted_scheme t) ["file"; "http"; "https"]) eqn:Hin;
    [|discriminate].
  cbn [negb].
  assert (Hplain :
    String.prefix (defaulted_scheme t +:+ ":")
      (marshal_patterns (urlunparse (with_scheme (defaulted_scheme t) t))) = true).
  { destruct (urlunparse_scheme (with_scheme (defaulted_scheme t) t)) as [rest Hrest];
      [apply defaulted_scheme_nonempty|].
    rewrite Hrest. cbn [scheme with_scheme]. apply marshal_patterns_scheme.
    cbn in Hin |- *. rewrite Hin. apply orb_true_r. }
  destruct o as [origin|].
  - destruct (String.eqb (defaulted_scheme t) "file").
    + destruct (PosixPath.relpath _ _ _) as [p|e]; [|discriminate].
      intros H. inversion H as [Hkey]. clear H.
      destruct (urlunparse_scheme
                  (mkParseResult "lfile" (netloc t) p (params t) (query t) (fragment t)))
        as [rest Hrest]; [discriminate|].
      rewrite Hrest. now apply marshal_patterns_scheme.
    + intros H. inversion H. exact Hplain.
  - intros H. inversion H. exact Hplain.
Qed.

(** X4: a key shows the scheme it was made for.  With an origin, the key
    of a local file ([file], or no scheme) starts with [lfile:]: the
    scheme is masked.  In every other case the key starts with the scheme
    of the target, an empty one taken as [file], and a colon.  A key is
    never the empty string. *)
Theorem marshal_uri_key_scheme cwd t o key :
  _marshal_uri cwd t o = Ok key ->
  (o <> None -> defaulted_scheme t = "file" -> String.prefix "lfile:" key = true)
  /\ (o = None \/ defaulted_scheme t <> "file" ->
      String.prefix (defaulted_scheme t +:+ ":") key = true)
  /\ key <> "".
Proof.
  intros H. pose proof (marshal_uri_key_shape _ _ _ _ H) as Hshape.
  cbv zeta in Hshape. repeat split.
  - intros Ho Hfile. destruct o as [origin|]; [|congruence].
    now rewrite Hfile in Hshape.
  - intros Hside. destruct o as [origin|]; [|exact Hshape].
    destruct Hside as [?|Hne]; [discriminate|].
    now rewrite (proj2 (String.eqb_neq _ _) Hne) in Hshape.
  - destruct o as [origin|];
      [destruct (String.eqb (defaulted_scheme t) "file")|];
      eapply prefix_nonempty; try exact Hshape;
      try discriminate; intros E;
      apply (defaulted_scheme_nonempty t); now destruct (defaulted_scheme t).
Qed.

Lemma marshal_uri_key_scheme_witness :
  String.prefix "lfile:" "lfile:a.json|..definitions..Pet" = true
  /\ "lfile:a.json|..definitions..Pet" <> "".
Proof.
  destruct (marshal_uri_key_scheme "/srv"
              (urlparse "file:///specs/a.json#/definitions/Pet") example_origin
              "lfile:a.json|..definitions..Pet")
    as (Hmasked & _ & Hnonempty); [vm_compute; reflexivity|].
  split; [apply Hmasked; [discriminate|reflexivity]|exact Hnonempty].
Defined.

(* ===================================================================== *)
(** * More about the classifier *)
(* ===================================================================== *)

Lemma non_extension_keys_spec {V} (object_dict : list (string * V)) (key : string) :
  key ∈ non_extension_keys object_dict <-> plain_key object_dict key.
Proof.
  unfold non_extension_keys, plain_key.
  rewrite elem_of_list_to_set, list_elem_of_In, List.filter_In, <- list_elem_of_In.
  rewrite <- dict_mem_keys, negb_true_iff. reflexivity.
Qed.

(** the classifier looks at three things only *)
Lemma determine_dict_type_by {V W} (d1 : list (string * V)) (d2 : list (string * W)) :
  dict_mem "in" d1 = dict_mem "in" d2 ->
  dict_mem "name" d1 = dict_mem "name" d2 ->
  non_extension_keys d1 = non_extension_keys d2 ->
  determine_dict_type d1 = determine_dict_type d2.
Proof. unfold determine_dict_type. now intros -> -> ->. Qed.

Lemma dict_mem_set_other {V} (key key' : string) (v : V) (d : list (string * V)) :
  key' <> key -> dict_mem key' (dict_set key v d) = dict_mem key' d.
Proof. intros Hne. unfold dict_mem. now rewrite dict_get_set_ne. Qed.

(** X5: a key that starts with [x-] does not count.  Setting such a key
    in a mapping, new or not, leaves the classification of the mapping as
    it was. *)
Theorem classify_ignores_extensions (key : string) (v : Node)
    (object_dict : list (string * Node)) :
  PyStr.startswith "x-" key = true ->
  _determine_object_type (Mapping (dict_set key v object_dict))
  = _determine_object_type (Mapping object_dict).
Proof.
  intros Hx. cbn [_determine_object_type]. f_equal.
  apply determine_dict_type_by.
  - apply dict_mem_set_other. intros E. rewrite <- E in Hx. discriminate.
  - apply dict_mem_set_other. intros E. rewrite <- E in Hx. discriminate.
  - apply set_eq. intros k. rewrite !non_extension_keys_spec. unfold plain_key.
    split; intros [Hk Hp]; (split; [|assumption]).
    + apply dict_mem_set in Hk as [->|Hk]; [congruence|assumption].
    + apply dict_mem_set. now right.
Qed.

Lemma classify_ignores_extensions_witness :
  _determine_object_type
    (Mapping (dict_set "x-model" (Leaf (SStr "Pet"))
                [("description", Leaf (SStr "a pet")); ("schema", Mapping [])]))
  = _determine_object_type
      (Mapping [("description", Leaf (SStr "a pet")); ("schema", Mapping [])]).
Proof. apply classify_ignores_extensions. reflexivity. Defined.

(** X6: the classification of a mapping depends on its set of keys
    alone: neither on the values nor on the order of the keys. *)
Theorem classify_by_keys (d1 d2 : list (string * Node)) :
  (forall key, dict_mem key d1 = dict_mem key d2) ->
  _determine_object_type (Mapping d1) = _determine_object_type (Mapping d2).
Proof.
  intros Hkeys. cbn [_determine_object_type]. f_equal.
  apply determine_dict_type_by; [apply Hkeys..|].
  apply set_eq. intros k. rewrite !non_extension_keys_spec. unfold plain_key.
  now rewrite Hkeys.
Qed.

Lemma classify_by_keys_witness :
  _determine_object_type
    (Mapping [("get", Mapping []); ("parameters", Sequence [])])
  = _determine_object_type
      (Mapping [("parameters", Leaf SNull); ("get", Leaf (SInt 1))]).
Proof.
  apply classify_by_keys. intros key. unfold dict_mem. cbn [dict_get].
  destruct (decide (key = "get")) as [->|Hget]; [reflexivity|].
  destruct (decide (key = "parameters")) as [->|Hpar]; reflexivity.
Defined.

Lemma subseteq_singleton_cases (X : gset string) (a : string) :
  (X = ∅ \/ X = {[ a ]}) <-> (forall x, x ∈ X -> x = a).
Proof.
  split.
  - intros [->| ->] x Hx; set_solver.
  - intros Hall. destruct (decide (a ∈ X)) as [Ha|Ha].
    + right. apply set_eq. intros x. rewrite elem_of_singleton. split; [auto|].
      now intros ->.
    + left. apply set_eq. intros x. split; [|set_solver].
      intros Hx. rewrite (Hall x Hx) in Hx. contradiction.
Qed.

(** X7: the mappings classified as path items.  A mapping is a path item
    exactly when it is no parameter (it has not both [in] and [name]),
    one of its keys that do not start with [x-] is an HTTP verb, and each
    of those keys is an HTTP verb or [parameters]. *)
Theorem classify_path_item_iff (object_dict : list (string * Node)) :
  _determine_object_type (Mapping object_dict) = Ok (Some _TYPE_PATH_ITEM)
  <-> dict_mem "in" object_dict && dict_mem "name" object_dict = false
      /\ (exists key, plain_key object_dict key /\ key ∈ http_operations)
      /\ (forall key, plain_key object_dict key ->
                      key ∈ http_operations \/ key = "parameters").
Proof.
  cbn [_determine_object_type]. unfold determine_dict_type.
  destruct (dict_mem "in" object_dict && dict_mem "name" object_dict).
  { split; [discriminate|]. intros [? _]. discriminate. }
  set (keys := non_extension_keys object_dict).
  assert (Hkeys : forall k, k ∈ keys <-> plain_key object_dict k)
    by (intros k; apply non_extension_keys_spec).
  destruct (bool_decide (keys ∩ http_operations = ∅)) eqn:Hverbs; cbn [negb].
  - apply bool_decide_eq_true in Hverbs.
    split.
    + destruct (_ && _); discriminate.
    + intros (_ & (k & Hk & Hop) & _). apply Hkeys in Hk. set_solver.
  - apply bool_decide_eq_false in Hverbs.
    assert (Hsome : exists key, plain_key object_dict key /\ key ∈ http_operations).
    { apply set_choose_L in Hverbs as [k Hk]. exists k.
      apply elem_of_intersection in Hk as [Hk Hop]. split; [now apply Hkeys|assumption]. }
    assert (Hrest :
      (keys ∖ http_operations = ∅ \/ keys ∖ http_operations = {[ "parameters" ]})
      <-> forall key, plain_key object_dict key ->
                      key ∈ http_operations \/ key = "parameters").
    { rewrite subseteq_singleton_cases. split.
      - intros Hall k Hk. destruct (decide (k ∈ http_operations)); [now left|right].
        apply Hall. apply elem_of_difference. split; [now apply Hkeys|assumption].
      - intros Hall k Hk. apply elem_of_difference in Hk as [Hk Hop].
        apply Hkeys in Hk. destruct (Hall k Hk); [contradiction|assumption]. }
    destruct (bool_decide (keys ∖ http_operations = ∅)) eqn:H1;
      [|destruct (bool_decide (keys ∖ http_operations = {[ "parameters" ]})) eqn:H2];
      cbn [orb].
    + apply bool_decide_eq_true in H1. split; [|reflexivity].
      intros _. split; [reflexivity|]. split; [assumption|]. apply Hrest. now left.
    + apply bool_decide_eq_true in H2. split; [|reflexivity].
      intros _. split; [reflexivity|]. split; [assumption|]. apply Hrest. now right.
    + apply bool_decide_eq_false in H1. apply bool_decide_eq_false in H2.
      split; [discriminate|]. intros (_ & _ & Hall). apply Hrest in Hall. tauto.
Qed.

(** X8: the mappings classified as responses.  A mapping is a response
    exactly when it is no parameter, none of its keys that do not start
    with [x-] is an HTTP verb, it has the key [description], and each of
    those keys is one of [description], [schema], [headers] and
    [examples]. *)
Theorem classify_response_iff (object_dict : list (string * Node)) :
  _determine_object_type (Mapping object_dict) = Ok (Some _TYPE_RESPONSE)
  <-> dict_mem "in" object_dict && dict_mem "name" object_dict = false
      /\ (forall key, plain_key object_dict key -> key ∉ http_operations)
      /\ dict_mem "description" object_dict = true
      /\ (forall key, plain_key object_dict key -> key ∈ response_allowed_keys).
Proof.
  cbn [_determine_object_type]. unfold determine_dict_type.
  destruct (dict_mem "in" object_dict && dict_mem "name" object_dict).
  { split; [discriminate|]. intros [? _]. discriminate. }
  set (keys := non_extension_keys object_dict).
  assert (Hkeys : forall k, k ∈ keys <-> plain_key object_dict k)
    by (intros k; apply non_extension_keys_spec).
  assert (Hdesc : "description" ∈ keys <-> dict_mem "description" object_dict = true).
  { rewrite Hkeys. unfold plain_key. split; [tauto|]. intros H. split; [exact H|reflexivity]. }
  destruct (bool_decide (keys ∩ http_operations = ∅)) eqn:Hverbs; cbn [negb].
  - apply bool_decide_eq_true in Hverbs.
    assert (Hnone : forall key, plain_key object_dict key -> key ∉ http_operations).
    { intros k Hk Hop. apply Hkeys in Hk. set_solver. }
    destruct (bool_decide ("description" ∈ keys)) eqn:H1;
      [destruct (bool_decide (keys ∖ response_allowed_keys = ∅)) eqn:H2|];
      cbn [andb].
    + apply bool_decide_eq_true in H1. apply bool_decide_eq_true in H2.
      split; [|reflexivity]. intros _. split; [reflexivity|]. split; [assumption|].
      split; [now apply Hdesc|]. intros k Hk. apply Hkeys in Hk.
      destruct (decide (k ∈ response_allowed_keys)); [assumption|set_solver].
    + apply bool_decide_eq_false in H2. split; [discriminate|].
      intros (_ & _ & _ & Hall). exfalso. apply H2. apply set_eq. intros k.
      split; [|set_solver]. intros Hk. apply elem_of_difference in Hk as [Hk Hno].
      apply Hkeys in Hk. now apply Hall in Hk.
    + apply bool_decide_eq_false in H1. split; [discriminate|].
      intros (_ & _ & Hd & _). now apply Hdesc in Hd.
  - apply bool_decide_eq_false in Hverbs. split.
    + destruct (_ || _); discriminate.
    + intros (_ & Hnone & _). exfalso. apply Hverbs. apply set_eq. intros k.
      split; [|set_solver]. intros Hk. apply elem_of_intersection in Hk as [Hk Hop].
      apply Hkeys in Hk. now apply Hnone in Hk.
Qed.

(** X9: the mappings classified as parameters and as schemas.  A
    mapping is a parameter exactly when it has both [in] and [name].  It
    is a schema exactly when it is no parameter, none of its keys that do
    not start with [x-] is an HTTP verb, and it is no response: it has no
    [description], or one of those keys is none of [description],
    [schema], [headers] and [examples]. *)
Theorem classify_parameter_schema_iff (object_dict : list (string * Node)) :
  (_determine_object_type (Mapping object_dict) = Ok (Some _TYPE_PARAMETER)
   <-> dict_mem "in" object_dict && dict_mem "name" object_dict = true)
  /\ (_determine_object_type (Mapping object_dict) = Ok (Some _TYPE_SCHEMA)
      <-> dict_mem "in" object_dict && dict_mem "name" object_dict = false
          /\ (forall key, plain_key object_dict key -> key ∉ http_operations)
          /\ (dict_mem "description" object_dict = false
              \/ exists key, plain_key object_dict key
                             /\ key ∉ response_allowed_keys)).
Proof.
  cbn [_determine_object_type]. unfold determine_dict_type.
  destruct (dict_mem "in" object_dict && dict_mem "name" object_dict).
  { split; [tauto|]. split; [discriminate|]. intros [? _]. discriminate. }
  set (keys := non_extension_keys object_dict).
  assert (Hkeys : forall k, k ∈ keys <-> plain_key object_dict k)
    by (intros k; apply non_extension_keys_spec).
  assert (Hdesc : "description" ∈ keys <-> dict_mem "description" object_dict = true).
  { rewrite Hkeys. unfold plain_key. split; [tauto|]. intros H. split; [exact H|reflexivity]. }
  destruct (bool_decide (keys ∩ http_operations = ∅)) eqn:Hverbs; cbn [negb].
  - apply bool_decide_eq_true in Hverbs.
    assert (Hnone : forall key, plain_key object_dict key -> key ∉ http_operations).
    { intros k Hk Hop. apply Hkeys in Hk. set_solver. }
    destruct (bool_decide ("description" ∈ keys)) eqn:H1;
      [destruct (bool_decide (keys ∖ response_allowed_keys = ∅)) eqn:H2|];
      cbn [andb].
    + apply bool_decide_eq_true in H1. apply bool_decide_eq_true in H2.
      split; [split; discriminate|]. split; [discriminate|].
      intros (_ & _ & [Hd|(k & Hk & Hno)]).
      * apply Hdesc in H1. congruence.
      * apply Hkeys in Hk. set_solver.
    + apply bool_decide_eq_false in H2.
      split; [split; discriminate|]. split; [|reflexivity].
      intros _. split; [reflexivity|]. split; [assumption|]. right.
      apply set_choose_L in H2 as [k Hk]. exists k.
      apply elem_of_difference in Hk as [Hk Hno]. split; [now apply Hkeys|assumption].
    + apply bool_decide_eq_false in H1.
      split; [split; discriminate|]. split; [|reflexivity].
      intros _. split; [reflexivity|]. split; [assumption|]. left.
      destruct (dict_mem "description" object_dict) eqn:Hd; [|reflexivity].
      exfalso. apply H1. now apply Hdesc.
  - apply bool_decide_eq_false in Hverbs.
    split; [split; [destruct (_ || _); discriminate|discriminate]|].
    split; [destruct (_ || _); discriminate|].
    intros (_ & Hnone & _). exfalso. apply Hverbs. apply set_eq. intros k.
    split; [|set_solver]. intros Hk. apply elem_of_intersection in Hk as [Hk Hop].
    apply Hkeys in Hk. now apply Hnone in Hk.
Qed.

(* ===================================================================== *)
(** * More about the collision reporter *)
(* ===================================================================== *)

Lemma group_by_marshaled_is_ok marshal_uri uris :
  forall d,
    is_ok (group_by_marshaled marshal_uri uris d)
    = forallb (fun uri => is_ok (marshal_uri uri)) uris.
Proof.
  induction uris as [|uri uris IH]; intros d; [reflexivity|].
  cbn [group_by_marshaled forallb].
  destruct (marshal_uri uri) as [key|e]; [apply IH|reflexivity].
Qed.

Lemma group_by_marshaled_raise marshal_uri uris :
  forall d e,
    group_by_marshaled marshal_uri uris d = Raise e ->
    exists seen uri rest,
      uris = seen ++ uri :: rest
      /\ Forall (fun u => is_ok (marshal_uri u) = true) seen
      /\ marshal_uri uri = Raise e.
Proof.
  induction uris as [|uri uris IH]; intros d e H; [discriminate|].
  cbn [group_by_marshaled] in H.
  destruct (marshal_uri uri) as [key|e'] eqn:Hm.
  - apply IH in H as (seen & u & rest & -> & Hseen & Hu).
    exists (uri :: seen), u, rest. split; [reflexivity|]. split; [|assumption].
    constructor; [now rewrite Hm|assumption].
  - inversion H; subst. exists [], uri, uris. repeat split; [constructor|assumption].
Qed.

(** X10: the reporter has no failure of its own.  It returns exactly when
    the marshaling function returns on every location of the table;
    otherwise it raises what the marshaling function raises on the first
    location it fails on, in the order of the table. *)
Theorem reporter_fails_as_marshal {V} (uri_schema_mappings : list (ParseResult * V))
    (marshal_uri : ParseResult -> result string) :
  is_ok (_warn_if_uri_clash_on_same_marshaled_representation
           uri_schema_mappings marshal_uri)
  = forallb (fun uri => is_ok (marshal_uri uri)) (dict_keys uri_schema_mappings)
  /\ forall e,
       _warn_if_uri_clash_on_same_marshaled_representation
         uri_schema_mappings marshal_uri = Raise e ->
       exists seen uri rest,
         dict_keys uri_schema_mappings = seen ++ uri :: rest
         /\ Forall (fun u => is_ok (marshal_uri u) = true) seen
         /\ marshal_uri uri = Raise e.
Proof.
  unfold _warn_if_uri_clash_on_same_marshaled_representation.
  pose proof (group_by_marshaled_is_ok marshal_uri (dict_keys uri_schema_mappings) [])
    as Hok.
  pose proof (group_by_marshaled_raise marshal_uri (dict_keys uri_schema_mappings) [])
    as Hraise.
  destruct (group_by_marshaled marshal_uri (dict_keys uri_schema_mappings) [])
    as [d|e0]; cbn.
  - split; [|destruct (negb _); discriminate].
    rewrite <- Hok. now destruct (negb _).
  - split; [exact Hok|]. intros e H. inversion H; subst. now apply Hraise.
Qed.

(* ===================================================================== *)
(** * What a descent returns and what it leaves in the tables *)
(* ===================================================================== *)

Lemma known_in_entry mk u st : known_in mk u st <-> entry mk u st <> None.
Proof.
  unfold known_in, entry, dict_mem.
  destruct (dict_get u (km_get mk (known_mappings st))); split; congruence.
Qed.

Lemma entry_store mk u v (t : table) (km : list (string * table)) c mk' u' :
  dict_get mk km = Some t ->
  entry mk' u' (mkState (dict_set mk (dict_set u v t) km) c)
  = if decide (mk' = mk /\ u' = u) then Some v else dict_get u' (km_get mk' km).
Proof.
  intros Ht. unfold entry. cbn [known_mappings]. rewrite km_get_set.
  destruct (decide (mk' = mk)) as [->|Hmk].
  - rewrite (km_get_some _ _ _ Ht). destruct (decide (u' = u)) as [->|Hu].
    + rewrite decide_True by auto. apply dict_get_set_eq.
    + rewrite decide_False by tauto. now apply dict_get_set_ne.
  - now rewrite decide_False by tauto.
Qed.

Lemma points_to_known_mono marshal_uri st st' target :
  keys_le st st' ->
  points_to_known marshal_uri st target -> points_to_known marshal_uri st' target.
Proof.
  intros Hle (mk & u & key & -> & Hk & Hm). exists mk, u, key. auto.
Qed.

Lemma closed_in_mono marshal_uri st st' v :
  keys_le st st' -> closed_in marshal_uri st v -> closed_in marshal_uri st' v.
Proof. intros Hle Hv target Ht. eapply points_to_known_mono; eauto. Qed.

Lemma ref_targets_pointer mapping_key key :
  ref_targets (pointer mapping_key key) = ["#/" +:+ mapping_key +:+ "/" +:+ key].
Proof. reflexivity. Qed.

Lemma closed_in_pointer marshal_uri st mapping_key uri key :
  known_in mapping_key uri st -> marshal_uri uri = Ok key ->
  closed_in marshal_uri st (pointer mapping_key key).
Proof.
  intros Hk Hm target Ht. rewrite ref_targets_pointer in Ht.
  apply list_elem_of_singleton in Ht as ->. exists mapping_key, uri, key. auto.
Qed.

Lemma closed_in_leaf marshal_uri st s : closed_in marshal_uri st (Leaf s).
Proof. intros target Ht. inversion Ht. Qed.

Section Soundness.
Variable marshal_uri : ParseResult -> result string.

Lemma entries_kept_refl st : entries_kept st st.
Proof. intros mk u _. reflexivity. Qed.

Lemma entries_kept_trans st1 st2 st3 :
  keys_le st1 st2 -> entries_kept st1 st2 -> entries_kept st2 st3 ->
  entries_kept st1 st3.
Proof. intros Hle H12 H23 mk u Hk. rewrite H23 by auto. now apply H12. Qed.

Lemma placeholders_le_refl st : placeholders_le st st.
Proof. intros mk u H. exact H. Qed.

Lemma placeholders_le_trans st3 st2 st1 :
  placeholders_le st3 st2 -> placeholders_le st2 st1 -> placeholders_le st3 st1.
Proof. intros H32 H21 mk u H. auto. Qed.

Lemma run_kept_refl st : run_kept marshal_uri st st.
Proof.
  split; [apply keys_le_refl|]. split; [apply entries_kept_refl|auto].
Qed.

Lemma run_kept_trans st1 st2 st3 :
  run_kept marshal_uri st1 st2 -> run_kept marshal_uri st2 st3 ->
  run_kept marshal_uri st1 st3.
Proof.
  intros (L12 & E12 & C12) (L23 & E23 & C23).
  split; [eapply keys_le_trans; eassumption|].
  split; [eapply entries_kept_trans; eassumption|auto].
Qed.

(** the placeholder stored for a new location *)
Lemma run_kept_open st mk u (t : table) c :
  ~ known_in mk u st ->
  dict_get mk (known_mappings st) = Some t ->
  run_kept marshal_uri st
    (mkState (dict_set mk (dict_set u (Leaf SNull) t) (known_mappings st)) c).
Proof.
  intros Hnew Ht. split; [now apply keys_le_store|]. split.
  - intros mk' u' Hk. rewrite (entry_store _ _ _ _ _ _ _ _ Ht).
    destruct (decide (mk' = mk /\ u' = u)) as [[-> ->]|_]; [contradiction|reflexivity].
  - intros Hclosed mk' u' v Hv. rewrite (entry_store _ _ _ _ _ _ _ _ Ht) in Hv.
    destruct (decide (mk' = mk /\ u' = u)) as [_|_].
    + inversion Hv. apply closed_in_leaf.
    + eapply closed_in_mono; [now apply keys_le_store|]. eapply Hclosed. exact Hv.
Qed.

Lemma placeholders_open st mk u (t : table) c mk' u' :
  dict_get mk (known_mappings st) = Some t ->
  entry mk' u'
    (mkState (dict_set mk (dict_set u (Leaf SNull) t) (known_mappings st)) c)
  = Some (Leaf SNull) ->
  (mk' = mk /\ u' = u) \/ entry mk' u' st = Some (Leaf SNull).
Proof.
  intros Ht. rewrite (entry_store _ _ _ _ _ _ _ _ Ht).
  destruct (decide (mk' = mk /\ u' = u)); [now left|now right].
Qed.

(** the value stored over the placeholder of a location that was new at
    [st] *)
Lemma run_kept_fill st st3 mk u v (t : table) :
  run_kept marshal_uri st st3 ->
  ~ known_in mk u st ->
  dict_get mk (known_mappings st3) = Some t ->
  closed_in marshal_uri st3 v ->
  run_kept marshal_uri st
    (mkState (dict_set mk (dict_set u v t) (known_mappings st3)) (calls st3)).
Proof.
  intros (Hle & Hkept & Hclosed) Hnew Ht Hv.
  assert (Hle4 : keys_le st3
            (mkState (dict_set mk (dict_set u v t) (known_mappings st3)) (calls st3)))
    by now apply keys_le_store.
  split; [eapply keys_le_trans; eassumption|]. split.
  - intros mk' u' Hk. rewrite (entry_store _ _ _ _ _ _ _ _ Ht).
    destruct (decide (mk' = mk /\ u' = u)) as [[-> ->]|_]; [contradiction|].
    now apply Hkept.
  - intros Hst mk' u' v' Hv'. rewrite (entry_store _ _ _ _ _ _ _ _ Ht) in Hv'.
    destruct (decide (mk' = mk /\ u' = u)) as [_|_].
    + inversion Hv'; subst. eapply closed_in_mono; eassumption.
    + eapply closed_in_mono; [exact Hle4|]. eapply (Hclosed Hst). exact Hv'.
Qed.

End Soundness.

Lemma same_kind_ref value ref items' :
  ref_target value = Some ref -> same_kind value (Mapping items').
Proof.
  destruct value as [items|items|s]; cbn; try discriminate.
  intros Href. exists items'. split; [reflexivity|]. intros Hnone.
  cbn in Hnone. congruence.
Qed.

Lemma same_kind_not_target v v' :
  same_kind v v' -> (forall target, v <> Leaf (SStr target)) ->
  forall target, v' <> Leaf (SStr target).
Proof.
  destruct v as [items|items|s]; cbn.
  - intros (items' & -> & _) _ target. discriminate.
  - intros (items' & -> & _) _ target. discriminate.
  - intros -> H. exact H.
Qed.

Lemma same_kind_not_null v v' :
  same_kind v v' -> v <> Leaf SNull -> v' <> Leaf SNull.
Proof.
  destruct v as [items|items|s]; cbn.
  - intros (items' & -> & _) _. discriminate.
  - intros (items' & -> & _) _. discriminate.
  - intros -> H. exact H.
Qed.

Section Descent.
Variable resolve : string -> string -> result (string * Node).
Variable marshal_uri : ParseResult -> result string.

Abbreviation items_agree st' :=
  (Forall2 (fun (kv kv' : string * Node) =>
              fst kv = fst kv'
              /\ (same_kind (snd kv) (snd kv') /\ closed_in marshal_uri st' (snd kv')))).

Abbreviation elements_agree st' :=
  (Forall2 (fun v v' : Node => same_kind v v' /\ closed_in marshal_uri st' v')).

Lemma items_agree_keys st items items' :
  items_agree st items items' -> dict_keys items' = dict_keys items.
Proof.
  unfold dict_keys. induction 1 as [|kv kv' items items' (Hk & _) _ IH]; [reflexivity|].
  cbn. now rewrite Hk, IH.
Qed.

Lemma items_agree_no_ref st items items' :
  items_agree st items items' ->
  ref_target (Mapping items) = None -> ref_target (Mapping items') = None.
Proof.
  intros H.
  pose proof (agree_dict_get
                (fun v v' => same_kind v v' /\ closed_in marshal_uri st v')
                "$ref" _ _ H) as Hget.
  cbn beta in Hget.
  cbn [ref_target]. destruct (dict_get "$ref" items) as [x|],
    (dict_get "$ref" items') as [y|]; try tauto.
  destruct Hget as [Hkind _]. intros Hx.
  assert (Hno : forall target, x <> Leaf (SStr target)).
  { intros target ->. discriminate. }
  pose proof (same_kind_not_target _ _ Hkind Hno) as Hy.
  destruct y as [?|?|[target| | | |]]; try reflexivity. now destruct (Hy target).
Qed.

Lemma items_agree_values st items items' kv' :
  items_agree st items items' -> In kv' items' ->
  closed_in marshal_uri st (snd kv').
Proof.
  induction 1 as [|kv kv0 items items' (_ & _ & Hc) _ IH]; intros Hin; [destruct Hin|].
  destruct Hin as [->|Hin]; [exact Hc|now apply IH].
Qed.

Lemma items_agree_closed st items items' :
  items_agree st items items' ->
  ref_target (Mapping items') = None ->
  closed_in marshal_uri st (Mapping items').
Proof.
  intros H Hnone target Ht. cbn [ref_targets] in Ht. rewrite Hnone in Ht.
  cbn [app] in Ht. apply list_elem_of_In, List.in_flat_map in Ht as (kv' & Hin & Ht).
  apply list_elem_of_In in Ht. eapply items_agree_values; eassumption.
Qed.

Lemma elements_agree_closed st items items' :
  elements_agree st items items' -> closed_in marshal_uri st (Sequence items').
Proof.
  intros H target Ht. cbn [ref_targets ref_target app] in Ht.
  apply list_elem_of_In, List.in_flat_map in Ht as (v' & Hin & Ht).
  apply list_elem_of_In in Ht. revert Hin.
  induction H as [|v v0 items items' (_ & Hc) _ IH]; intros Hin; [destruct Hin|].
  destruct Hin as [->|Hin]; [now apply Hc|now apply IH].
Qed.

Lemma elements_agree_length st items items' :
  elements_agree st items items' -> List.length items' = List.length items.
Proof. induction 1; cbn; congruence. Qed.

(** the items of a mapping, one after the other *)
Lemma mapM_items_sound (f : Node -> M Node) items :
  (forall v st, ends_with (f v) st (sound_run marshal_uri v st)) ->
  forall st,
    ends_with (mapM_items f items) st
      (fun o st' =>
         run_kept marshal_uri st st'
         /\ forall items', o = Done items' ->
              items_agree st' items items' /\ placeholders_le st' st).
Proof.
  intros Hf. induction items as [|[key subval] items IH]; intros st.
  { split; [apply run_kept_refl|]. intros items' H. inversion H.
    split; [constructor|apply placeholders_le_refl]. }
  cbn [mapM_items]. apply ends_bind. eapply ends_weaken; [apply Hf|].
  intros [v'|e|] st1 [HR HD];
    [|split; [assumption|discriminate]..].
  destruct (HD v' eq_refl) as (Hkind & Hclosed & Hp).
  apply ends_bind. eapply ends_weaken; [apply IH|].
  intros [rest|e|] st2 [HR2 HD2];
    [|split; [eapply run_kept_trans; eassumption|discriminate]..].
  destruct (HD2 rest eq_refl) as (Hrest & Hp2).
  split; [eapply run_kept_trans; eassumption|].
  intros items' H. inversion H; subst. split.
  - constructor; [|assumption]. cbn [fst snd]. repeat split; [assumption|].
    eapply closed_in_mono; [apply HR2|assumption].
  - eapply placeholders_le_trans; eassumption.
Qed.

(** the elements of a list, one after the other *)
Lemma mapM_list_sound (f : Node -> M Node) items :
  (forall v st, ends_with (f v) st (sound_run marshal_uri v st)) ->
  forall st,
    ends_with (mapM_list f items) st
      (fun o st' =>
         run_kept marshal_uri st st'
         /\ forall items', o = Done items' ->
              elements_agree st' items items' /\ placeholders_le st' st).
Proof.
  intros Hf. induction items as [|subval items IH]; intros st.
  { split; [apply run_kept_refl|]. intros items' H. inversion H.
    split; [constructor|apply placeholders_le_refl]. }
  cbn [mapM_list]. apply ends_bind. eapply ends_weaken; [apply Hf|].
  intros [v'|e|] st1 [HR HD];
    [|split; [assumption|discriminate]..].
  destruct (HD v' eq_refl) as (Hkind & Hclosed & Hp).
  apply ends_bind. eapply ends_weaken; [apply IH|].
  intros [rest|e|] st2 [HR2 HD2];
    [|split; [eapply run_kept_trans; eassumption|discriminate]..].
  destruct (HD2 rest eq_refl) as (Hrest & Hp2).
  split; [eapply run_kept_trans; eassumption|].
  intros items' H. inversion H; subst. split.
  - constructor; [|assumption]. split; [assumption|].
    eapply closed_in_mono; [apply HR2|assumption].
  - eapply placeholders_le_trans; eassumption.
Qed.

Lemma classified_not_null deref ot :
  _determine_object_type deref = Ok ot -> deref <> Leaf SNull.
Proof. intros H ->. discriminate. Qed.

Lemma path_item_is_mapping deref :
  _determine_object_type deref = Ok (Some _TYPE_PATH_ITEM) ->
  exists items, deref = Mapping items.
Proof.
  destruct deref as [items|items|[s| | | |]]; cbn; try discriminate; eauto.
  - destruct (_ && _); discriminate.
  - destruct (_ && _); discriminate.
Qed.

Lemma sound_run_raised value st e st' :
  run_kept marshal_uri st st' -> sound_run marshal_uri value st (Raised e) st'.
Proof. intros H. split; [assumption|discriminate]. Qed.

Lemma sound_run_out value st st' :
  run_kept marshal_uri st st' -> sound_run marshal_uri value st OutOfFuel st'.
Proof. intros H. split; [assumption|discriminate]. Qed.

(** Every run of [descend]: no location leaves a table and no entry
    changes; closed tables stay closed; the value returned is of the kind
    of the value given, its references are pointers to known locations,
    and no placeholder is left behind. *)
Lemma descend_sound fuel :
  forall scope value st,
    ends_with (descend resolve marshal_uri fuel scope value) st
      (sound_run marshal_uri value st).
Proof.
  induction fuel as [|fuel IH]; intros scope value st.
  { apply sound_run_out, run_kept_refl. }
  rewrite descend_unfold. destruct (ref_target value) as [ref|] eqn:Href.
  - apply ends_bind, ends_lift;
      [intros [url deref] Hres|intros e _; apply sound_run_raised, run_kept_refl].
    apply ends_bind, ends_lift;
      [intros ot Hcl|intros e _; apply sound_run_raised, run_kept_refl].
    destruct (decide (ot = Some _TYPE_PATH_ITEM)) as [Hpi|Hpi].
    + subst ot. apply ends_bind, ends_record.
      eapply ends_weaken; [apply IH|]. intros o st' [HR HD]. split; [exact HR|].
      intros v' Hv'. destruct (HD v' Hv') as (Hkind & Hclosed & Hp).
      split; [|split; assumption].
      destruct (path_item_is_mapping _ Hcl) as [items ->].
      destruct Hkind as (items' & -> & _). eapply same_kind_ref, Href.
    + cbv zeta. apply ends_bind, ends_is_known.
      destruct (dict_mem (urlparse url) (km_get (holder_of ot) (known_mappings st)))
        eqn:Hk.
      * apply ends_bind, ends_ret. apply ends_bind, ends_lift;
          [intros key Hkey; apply ends_ret
          |intros e _; apply sound_run_raised, run_kept_refl].
        split; [apply run_kept_refl|]. intros v' Hv'. inversion Hv'; subst.
        split; [eapply same_kind_ref, Href|].
        split; [now apply (closed_in_pointer _ _ _ (urlparse url))
               |apply placeholders_le_refl].
      * assert (Hnew : ~ known_in (holder_of ot) (urlparse url) st).
        { unfold known_in. rewrite Hk. discriminate. }
        apply ends_bind. apply ends_bind, ends_store;
          [intros t Ht|intros e; apply sound_run_raised, run_kept_refl].
        apply ends_bind, ends_record. cbn [known_mappings calls].
        pose proof (run_kept_open marshal_uri st _ _ t
                      (calls st ++ [Resolved (holder_of ot) (urlparse url)]) Hnew Ht)
          as Hopen.
        apply ends_bind. eapply ends_weaken; [apply IH|].
        intros [resolved|e|] st3 [HR HD];
          [|apply sound_run_raised; eapply run_kept_trans; eassumption
           |apply sound_run_out; eapply run_kept_trans; eassumption].
        destruct (HD resolved eq_refl) as (Hkind & Hclosed & Hp).
        assert (H3 : run_kept marshal_uri st st3)
          by (eapply run_kept_trans; eassumption).
        apply ends_store; [intros t' Ht'|intros e; now apply sound_run_raised].
        pose proof (run_kept_fill marshal_uri st st3 _ _ resolved t' H3 Hnew Ht' Hclosed)
          as Hfill.
        apply ends_bind, ends_lift;
          [intros key Hkey; apply ends_ret|intros e _; now apply sound_run_raised].
        split; [exact Hfill|]. intros v' Hv'. inversion Hv'; subst.
        split; [eapply same_kind_ref, Href|]. split.
        -- apply (closed_in_pointer _ _ _ (urlparse url)); [|assumption].
           now apply known_in_stored.
        -- intros mk' u' Hnull. rewrite (entry_store _ _ _ _ _ _ _ _ Ht') in Hnull.
           destruct (decide (mk' = holder_of ot /\ u' = urlparse url)) as [_|Hother].
           ++ inversion Hnull as [Hres0]. exfalso.
              eapply same_kind_not_null; [exact Hkind| |exact Hres0].
              eapply classified_not_null, Hcl.
           ++ apply Hp in Hnull.
              apply (placeholders_open st _ _ t _ _ _ Ht) in Hnull as [?|?];
                [contradiction|assumption].
  - destruct value as [items|items|s].
    + apply ends_bind. eapply ends_weaken; [apply (mapM_items_sound _ _ (IH scope))|].
      intros [items'|e|] st1 [HR HD];
        [apply ends_ret|now apply sound_run_raised|now apply sound_run_out].
      destruct (HD items' eq_refl) as (Hitems & Hp).
      split; [assumption|]. intros v' Hv'. inversion Hv'; subst.
      pose proof (items_agree_no_ref _ _ _ Hitems Href) as Hnone.
      split; [|split; [now apply (items_agree_closed _ items)|assumption]].
      exists items'. split; [reflexivity|]. intros _.
      split; [eapply items_agree_keys, Hitems|assumption].
    + apply ends_bind. eapply ends_weaken; [apply (mapM_list_sound _ _ (IH scope))|].
      intros [items'|e|] st1 [HR HD];
        [apply ends_ret|now apply sound_run_raised|now apply sound_run_out].
      destruct (HD items' eq_refl) as (Hitems & Hp).
      split; [assumption|]. intros v' Hv'. inversion Hv'; subst.
      split; [|split; [now apply (elements_agree_closed _ items)|assumption]].
      exists items'. split; [reflexivity|]. eapply elements_agree_length, Hitems.
    + apply ends_ret. split; [apply run_kept_refl|]. intros v' Hv'. inversion Hv'; subst.
      split; [reflexivity|]. split; [apply closed_in_leaf|apply placeholders_le_refl].
Qed.

End Descent.

(* ===================================================================== *)
(** * The buckets in the returned document *)
(* ===================================================================== *)

Lemma fold_dict_set_mem {K V} `{EqDecision K} (items acc : list (K * V)) (k : K) :
  dict_mem k (fold_left (fun acc kv => dict_set (fst kv) (snd kv) acc) items acc) = true
  <-> dict_mem k acc = true \/ k ∈ List.map fst items.
Proof.
  revert acc. induction items as [|[k0 v0] items IH]; intros acc; cbn [fold_left List.map].
  - split; [auto|]. intros [?|H]; [assumption|inversion H].
  - rewrite IH, dict_mem_set, elem_of_cons. cbn [fst snd]. tauto.
Qed.

Lemma dict_of_items_mem {K V} `{EqDecision K} (items : list (K * V)) (k : K) :
  dict_mem k (dict_of_items items) = true <-> k ∈ List.map fst items.
Proof.
  unfold dict_of_items, dict_update. rewrite fold_dict_set_mem.
  split; [intros [H|H]; [discriminate|assumption]|auto].
Qed.

Section Merging.
Variable marshal_uri : ParseResult -> result string.

Lemma marshal_items_cons {V} uri (value : V) mappings items :
  marshal_items marshal_uri ((uri, value) :: mappings) = Ok items ->
  exists key rest,
    marshal_uri uri = Ok key /\ marshal_items marshal_uri mappings = Ok rest
    /\ items = (key, value) :: rest.
Proof.
  cbn [marshal_items]. destruct (marshal_uri uri) as [key|]; [|discriminate].
  cbn. destruct (marshal_items marshal_uri mappings) as [rest|]; [|discriminate].
  cbn. intros H. inversion H. eauto.
Qed.

(** the entries of a bucket are the entries of the table under the
    marshaled keys *)
Lemma marshal_items_in {V} (mappings : list (ParseResult * V)) items key value :
  marshal_items marshal_uri mappings = Ok items ->
  (key, value) ∈ items ->
  exists uri, (uri, value) ∈ mappings /\ marshal_uri uri = Ok key.
Proof.
  revert items. induction mappings as [|[u v0] mappings IH]; intros items H Hin.
  - inversion H; subst. inversion Hin.
  - apply marshal_items_cons in H as (k & rest & Hk & Hrest & ->).
    apply elem_of_cons in Hin as [E|Hin].
    + inversion E; subst. exists u. split; [left|assumption].
    + destruct (IH _ Hrest Hin) as (u' & Hu' & Hm). exists u'. split; [now right|assumption].
Qed.

Lemma marshal_items_key {V} (mappings : list (ParseResult * V)) items uri key :
  marshal_items marshal_uri mappings = Ok items ->
  dict_mem uri mappings = true -> marshal_uri uri = Ok key ->
  key ∈ List.map fst items.
Proof.
  revert items. induction mappings as [|[u v0] mappings IH]; intros items H Hin Hkey.
  - discriminate.
  - apply marshal_items_cons in H as (k & rest & Hk & Hrest & ->).
    cbn [List.map fst]. apply elem_of_cons.
    unfold dict_mem in Hin. cbn [dict_get] in Hin.
    destruct (decide (uri = u)) as [->|Hne]; [left; congruence|right].
    eapply IH; eauto.
Qed.

(** one turn of the last loop *)
Lemma merge_buckets_step mapping_key (mappings : table) km resolved warned r ws :
  merge_buckets marshal_uri ((mapping_key, mappings) :: km) resolved warned = Ok (r, ws) ->
  exists ws1 resolved1,
    _warn_if_uri_clash_on_same_marshaled_representation mappings marshal_uri = Ok ws1
    /\ merge_buckets marshal_uri km resolved1 (warned ++ ws1) = Ok (r, ws)
    /\ ((mappings = [] /\ resolved1 = resolved)
        \/ (mappings <> []
            /\ exists items items0,
                 marshal_items marshal_uri mappings = Ok items
                 /\ resolved = Mapping items0
                 /\ resolved1
                    = Mapping (dict_set mapping_key (Mapping (dict_of_items items))
                                 items0))).
Proof.
  cbn [merge_buckets].
  destruct (_warn_if_uri_clash_on_same_marshaled_representation mappings marshal_uri)
    as [ws1|e]; [|discriminate]. cbn.
  destruct mappings as [|entry0 mappings].
  - cbn. intros H. exists ws1, resolved. split; [reflexivity|]. split; [assumption|].
    left. auto.
  - change (0 <? length (entry0 :: mappings))%nat with true. cbn iota.
    destruct (marshal_items marshal_uri (entry0 :: mappings)) as [items|e];
      [|discriminate]. cbn.
    destruct resolved as [items0|items0|s]; try discriminate. cbn.
    intros H. eexists ws1, _. split; [reflexivity|]. split; [exact H|].
    right. split; [discriminate|]. eauto.
Qed.

(** a table that is not empty ends as a bucket under the name of its
    holder *)
Lemma merge_buckets_installed km :
  forall resolved warned r ws,
    NoDup (dict_keys km) ->
    merge_buckets marshal_uri km resolved warned = Ok (r, ws) ->
    forall mapping_key (mappings : table),
      (mapping_key, mappings) ∈ km -> mappings <> [] ->
      exists items,
        marshal_items marshal_uri mappings = Ok items
        /\ node_get mapping_key r = Some (Mapping (dict_of_items items)).
Proof.
  induction km as [|[mk0 t0] km IH]; intros resolved warned r ws Hnd H mk t Hin Hne.
  { inversion Hin. }
  apply merge_buckets_step in H as (ws1 & resolved1 & _ & Hrest & Hstep).
  unfold dict_keys in Hnd. cbn [List.map fst] in Hnd.
  apply NoDup_cons in Hnd as [Hfresh Hnd].
  apply elem_of_cons in Hin as [E|Hin].
  - inversion E; subst mk0 t0. clear E.
    destruct Hstep as [[-> _]|(_ & items & items0 & Hitems & -> & ->)]; [congruence|].
    exists items. split; [assumption|].
    rewrite (merge_buckets_skip _ _ _ _ _ _ mk Hrest).
    + cbn [node_get]. apply dict_get_set_eq.
    + intros t' Ht'. exfalso. apply Hfresh.
      apply (list_elem_of_fmap_2 fst) in Ht'. exact Ht'.
  - eapply IH; eassumption.
Qed.

Lemma ref_targets_mapping items target :
  target ∈ ref_targets (Mapping items) ->
  dict_get "$ref" items = Some (Leaf (SStr target))
  \/ exists key v, (key, v) ∈ items /\ target ∈ ref_targets v.
Proof.
  cbn [ref_targets ref_target]. intros H. apply elem_of_app in H as [H|H].
  - left. destruct (dict_get "$ref" items) as [[?|?|[t| | | |]]|];
      try (inversion H; fail).
    apply list_elem_of_singleton in H as ->. reflexivity.
  - right. apply list_elem_of_In, List.in_flat_map in H as ([key v] & Hin & Ht).
    exists key, v. split; now apply list_elem_of_In.
Qed.

Lemma ref_targets_set key bucket items target :
  target ∈ ref_targets (Mapping (dict_set key (Mapping bucket) items)) ->
  target ∈ ref_targets (Mapping items) \/ target ∈ ref_targets (Mapping bucket).
Proof.
  intros H. apply ref_targets_mapping in H as [H|(k & v & Hin & Ht)].
  - left. destruct (decide ("$ref" = key)) as [<-|Hne].
    + rewrite dict_get_set_eq in H. discriminate.
    + rewrite dict_get_set_ne in H by assumption.
      cbn [ref_targets ref_target]. rewrite H. left.
  - apply dict_set_in in Hin as [Hin|E].
    + left. eapply ref_targets_value; eassumption.
    + inversion E; subst. now right.
Qed.

(** the references of the returned document come from the descended
    document and from the buckets *)
Lemma merge_buckets_targets km :
  forall resolved warned r ws target,
    merge_buckets marshal_uri km resolved warned = Ok (r, ws) ->
    target ∈ ref_targets r ->
    target ∈ ref_targets resolved
    \/ exists mapping_key (mappings : table) items,
         (mapping_key, mappings) ∈ km
         /\ marshal_items marshal_uri mappings = Ok items
         /\ target ∈ ref_targets (Mapping (dict_of_items items)).
Proof.
  induction km as [|[mk0 t0] km IH]; intros resolved warned r ws target H Ht.
  { inversion H; subst. now left. }
  apply merge_buckets_step in H as (ws1 & resolved1 & _ & Hrest & Hstep).
  destruct (IH _ _ _ _ _ Hrest Ht) as [Hres|(mk & t & items & Hin & Hitems & Hb)].
  - destruct Hstep as [[_ ->]|(_ & items & items0 & Hitems & -> & ->)]; [now left|].
    apply ref_targets_set in Hres as [?|?]; [now left|right].
    exists mk0, t0, items. split; [left|]. auto.
  - right. exists mk, t, items. split; [now right|]. auto.
Qed.

End Merging.

Lemma flattened_spec_run fuel spec spec_resolver spec_url handlers marshal_fn r ws st :
  flattened_spec fuel spec spec_resolver spec_url handlers marshal_fn = (Done r, ws, st) ->
  exists rs resolved,
    descend (resolve_in rs) (fun uri => marshal_fn uri (origin_of spec_url)) fuel
      (resolution_scope rs) spec initial_state
    = (Done resolved, st)
    /\ merge_buckets (fun uri => marshal_fn uri (origin_of spec_url))
         (known_mappings st) resolved
         (origin_warnings spec_url ++ [definitions_warning])
       = Ok (r, ws).
Proof.
  unfold flattened_spec. fold (origin_of spec_url). fold (origin_warnings spec_url).
  intros H.
  match type of H with
  | match ?x with Ok _ => _ | Raise _ => _ end = _ => destruct x as [rs|e]; [|discriminate]
  end.
  exists rs.
  destruct (descend (resolve_in rs) (fun uri => marshal_fn uri (origin_of spec_url)) fuel
              (resolution_scope rs) spec initial_state)
    as [[resolved|e|] st1] eqn:Hd; try discriminate.
  exists resolved.
  destruct (merge_buckets (fun uri => marshal_fn uri (origin_of spec_url))
              (known_mappings st1) resolved
              (origin_warnings spec_url ++ [definitions_warning]))
    as [[r' ws']|e] eqn:Hm; [|discriminate].
  inversion H; subst. auto.
Qed.

Lemma entry_initial mapping_key uri : entry mapping_key uri initial_state = None.
Proof.
  unfold entry, km_get. change (known_mappings initial_state) with initial_known_mappings.
  rewrite initial_known_mappings_eq. cbn [dict_get].
  repeat destruct (decide _); reflexivity.
Qed.

Lemma tables_closed_initial marshal_uri : tables_closed marshal_uri initial_state.
Proof. intros mk u v H. rewrite entry_initial in H. discriminate. Qed.

Lemma holders_fixed_NoDup st : holders_fixed st -> NoDup (dict_keys (known_mappings st)).
Proof.
  unfold holders_fixed. intros ->.
  repeat (apply NoDup_cons; split; [set_solver|]). apply NoDup_nil_2.
Qed.

(** the table a known location is in *)
Lemma known_in_table mapping_key uri st :
  known_in mapping_key uri st ->
  exists t : table,
    dict_get mapping_key (known_mappings st) = Some t
    /\ (mapping_key, t) ∈ known_mappings st
    /\ dict_mem uri t = true /\ t <> [].
Proof.
  unfold known_in, km_get. intros H.
  destruct (dict_get mapping_key (known_mappings st)) as [t|] eqn:Ht;
    [|discriminate].
  exists t. split; [reflexivity|]. split; [now apply dict_get_some_in|].
  split; [exact H|]. intros ->. discriminate.
Qed.

Lemma entry_of_member st mapping_key (t : table) uri v :
  NoDup (dict_keys (known_mappings st)) -> tables_nodup st ->
  (mapping_key, t) ∈ known_mappings st -> (uri, v) ∈ t ->
  entry mapping_key uri st = Some v.
Proof.
  intros Hnd Htables Ht Hv. unfold entry.
  pose proof (dict_get_in _ _ _ Hnd Ht) as Hget.
  specialize (Htables mapping_key). rewrite (km_get_some _ _ _ Hget) in Htables |- *.
  now apply dict_get_in.
Qed.

(** what is known of a run of [flattened_spec] that returned *)
Lemma flattened_spec_facts fuel spec spec_resolver spec_url handlers marshal_fn r ws st :
  flattened_spec fuel spec spec_resolver spec_url handlers marshal_fn = (Done r, ws, st) ->
  let marshal_uri := fun uri => marshal_fn uri (origin_of spec_url) in
  exists resolved,
    merge_buckets marshal_uri (known_mappings st) resolved
      (origin_warnings spec_url ++ [definitions_warning]) = Ok (r, ws)
    /\ holders_fixed st /\ tables_nodup st
    /\ tables_closed marshal_uri st
    /\ closed_in marshal_uri st resolved
    /\ same_kind spec resolved
    /\ placeholders_le st initial_state.
Proof.
  intros H marshal_uri.
  destruct (flattened_spec_run _ _ _ _ _ _ _ _ _ H) as (rs & resolved & Hd & Hm).
  fold marshal_uri in Hd, Hm. exists resolved. split; [exact Hm|].
  pose proof (holders_fixed_kept (resolve_in rs) marshal_uri fuel (resolution_scope rs)
                spec initial_state initial_holders_fixed) as Hh.
  pose proof (tables_nodup_kept (resolve_in rs) marshal_uri fuel (resolution_scope rs)
                spec initial_state initial_tables_nodup) as Hn.
  pose proof (descend_sound (resolve_in rs) marshal_uri fuel (resolution_scope rs)
                spec initial_state) as Hs.
  unfold ends_with in Hs. rewrite Hd in Hh, Hn, Hs. cbn [fst snd] in Hh, Hn, Hs.
  destruct Hs as ((_ & _ & Hc) & HD).
  destruct (HD resolved eq_refl) as (Hkind & Hclosed & Hp).
  repeat split; try assumption. apply Hc, tables_closed_initial.
Qed.

Lemma prefix_mem (c : ascii) (p s : string) :
  String.prefix p s = true -> PyStr.mem c p = true -> PyStr.mem c s = true.
Proof.
  revert s. induction p as [|a p IH]; intros s Hp Hc; [discriminate|].
  destruct s as [|b s]; [discriminate|]. cbn [String.prefix] in Hp.
  destruct (ascii_dec a b) as [->|_]; [|discriminate].
  cbn [PyStr.mem] in *. destruct (Ascii.eqb b c); [reflexivity|]. cbn [orb] in *. auto.
Qed.

(** every key holds a colon *)
Lemma marshal_uri_not_ref cwd t o : _marshal_uri cwd t o <> Ok "$ref".
Proof.
  intros H. apply marshal_uri_key_shape in H. cbv zeta in H.
  apply (prefix_mem ":") in H; [discriminate|].
  rewrite mem_app. apply orb_true_r.
Qed.

Section Flattened.
Variables (fuel : nat) (spec : Node) (spec_resolver : option resolver)
          (spec_url : option string) (handlers : string -> option Node)
          (marshal_fn : ParseResult -> option ParseResult -> result string).
Variables (r : Node) (ws : list string) (st : state).
Hypothesis returned :
  flattened_spec fuel spec spec_resolver spec_url handlers marshal_fn = (Done r, ws, st).

Abbreviation the_marshal_uri := (fun uri => marshal_fn uri (origin_of spec_url)).

(** a pointer to a known location names an entry of a bucket of the
    returned document *)
Lemma known_pointer_resolves target :
  points_to_known the_marshal_uri st target ->
  exists mapping_key key bucket,
    target = "#/" +:+ mapping_key +:+ "/" +:+ key
    /\ mapping_key ∈ holder_names
    /\ (exists uri, known_in mapping_key uri st /\ the_marshal_uri uri = Ok key)
    /\ node_get mapping_key r = Some (Mapping bucket)
    /\ dict_mem key bucket = true.
Proof using returned.
  destruct (flattened_spec_facts _ _ _ _ _ _ _ _ _ returned)
    as (resolved & Hm & Hh & Hn & Hc & Hclosed & _ & _).
  intros (mk & u & key & -> & Hk & Hkey).
  destruct (known_in_table _ _ _ Hk) as (t & Hget & Hin & Hmem & Hne).
  destruct (merge_buckets_installed _ _ _ _ _ _ (holders_fixed_NoDup _ Hh) Hm
              mk t Hin Hne) as (items & Hitems & Hnode).
  exists mk, key, (dict_of_items items). split; [reflexivity|]. split.
  - assert (Hin' : mk ∈ dict_keys (known_mappings st))
      by (apply (list_elem_of_fmap_2 fst) in Hin; exact Hin).
    unfold holders_fixed in Hh. rewrite Hh in Hin'. exact Hin'.
  - split; [eauto|]. split; [assumption|]. apply dict_of_items_mem.
    eapply marshal_items_key; eassumption.
Qed.

(** every reference of the returned document is a pointer to a known
    location *)
Lemma flattened_refs_known :
  (forall uri, the_marshal_uri uri <> Ok "$ref") ->
  forall target, target ∈ ref_targets r -> points_to_known the_marshal_uri st target.
Proof using returned.
  intros Hnoref target Ht.
  destruct (flattened_spec_facts _ _ _ _ _ _ _ _ _ returned)
    as (resolved & Hm & Hh & Hn & Hc & Hclosed & _ & _).
  destruct (merge_buckets_targets _ _ _ _ _ _ _ Hm Ht)
    as [Hres|(mk & t & items & Hin & Hitems & Hb)]; [now apply Hclosed|].
  apply ref_targets_mapping in Hb as [Hown|(k & v & Hkv & Hv)].
  - apply dict_get_some_in, dict_of_items_in in Hown.
    destruct (marshal_items_in _ _ _ _ _ Hitems Hown) as (u & _ & Hu).
    now destruct (Hnoref u).
  - apply dict_of_items_in in Hkv.
    destruct (marshal_items_in _ _ _ _ _ Hitems Hkv) as (u & Hu & _).
    eapply (Hc mk u v); [|exact Hv].
    eapply entry_of_member; eauto using holders_fixed_NoDup.
Qed.

End Flattened.

(** X11: the returned document is closed.  When the marshaling function
    never gives the key [$ref], every reference of the returned document,
    the buckets included, is a pointer [#/<holder>/<key>] whose holder is
    one of [parameters], [responses] and [definitions] and whose key is
    the marshaled key of a location of the table of the holder, and the
    returned document has a mapping under that holder with an entry for
    that key. *)
Theorem flattened_refs_closed fuel spec spec_resolver spec_url handlers marshal_fn
    r ws st :
  (forall uri origin, marshal_fn uri origin <> Ok "$ref") ->
  flattened_spec fuel spec spec_resolver spec_url handlers marshal_fn = (Done r, ws, st) ->
  forall target,
    target ∈ ref_targets r ->
    exists mapping_key key bucket,
      target = "#/" +:+ mapping_key +:+ "/" +:+ key
      /\ mapping_key ∈ holder_names
      /\ (exists uri, known_in mapping_key uri st
                      /\ marshal_fn uri (origin_of spec_url) = Ok key)
      /\ node_get mapping_key r = Some (Mapping bucket)
      /\ dict_mem key bucket = true.
Proof.
  intros Hnoref H target Ht.
  eapply known_pointer_resolves; [exact H|].
  eapply flattened_refs_known; [exact H| |exact Ht].
  intros uri. apply Hnoref.
Qed.

Lemma flattened_refs_closed_witness :
  exists mapping_key key bucket,
    "#/definitions/lfile:a.json|..definitions..Pet"
    = "#/" +:+ mapping_key +:+ "/" +:+ key
    /\ mapping_key ∈ holder_names
    /\ (exists uri, known_in mapping_key uri pet_twice_state
                    /\ _marshal_uri "/srv" uri (origin_of (Some example_url)) = Ok key)
    /\ node_get mapping_key pet_twice_flat = Some (Mapping bucket)
    /\ dict_mem key bucket = true.
Proof.
  apply (flattened_refs_closed 6 pet_twice None (Some example_url) no_handlers
           (_marshal_uri "/srv") pet_twice_flat [definitions_warning] pet_twice_state).
  - intros uri origin. apply marshal_uri_not_ref.
  - vm_compute. reflexivity.
  - apply list_elem_of_In. vm_compute. left. reflexivity.
Defined.

(** X12: with the default marshaler the returned document is closed and
    its pointers are of two segments.  Every reference of the document
    that [flattened_spec] returns with [_marshal_uri] is a pointer
    [#/<holder>/<key>]: the holder is one of [parameters], [responses] and
    [definitions], the key holds neither a slash nor a hash, and the
    returned document has a mapping under the holder with an entry for
    the key. *)
Theorem flattened_default_pointers fuel spec spec_resolver spec_url handlers cwd
    r ws st :
  flattened_spec fuel spec spec_resolver spec_url handlers (_marshal_uri cwd)
  = (Done r, ws, st) ->
  forall target,
    target ∈ ref_targets r ->
    exists mapping_key key bucket,
      target = "#/" +:+ mapping_key +:+ "/" +:+ key
      /\ mapping_key ∈ holder_names
      /\ PyStr.mem "/" key = false /\ PyStr.mem "#" key = false
      /\ node_get mapping_key r = Some (Mapping bucket)
      /\ dict_mem key bucket = true.
Proof.
  intros H target Ht.
  assert (Hknown : points_to_known
                     (fun uri => _marshal_uri cwd uri (origin_of spec_url)) st target).
  { eapply flattened_refs_known; [exact H| |exact Ht].
    intros uri. apply marshal_uri_not_ref. }
  destruct (known_pointer_resolves _ _ _ _ _ _ _ _ _ H target Hknown)
    as (mk & key & bucket & -> & Hmk & (uri & _ & Hkey) & Hnode & Hmem).
  exists mk, key, bucket. split; [reflexivity|]. split; [assumption|].
  apply marshal_uri_ok_inv in Hkey as [serialized ->].
  destruct (patterns_safe serialized) as [Hslash Hhash].
  repeat split; assumption.
Qed.

Lemma flattened_default_pointers_witness :
  exists mapping_key key bucket,
    "#/definitions/lfile:a.json|..definitions..Pet"
    = "#/" +:+ mapping_key +:+ "/" +:+ key
    /\ mapping_key ∈ holder_names
    /\ PyStr.mem "/" key = false /\ PyStr.mem "#" key = false
    /\ node_get mapping_key pet_twice_flat = Some (Mapping bucket)
    /\ dict_mem key bucket = true.
Proof.
  apply (flattened_default_pointers 6 pet_twice None (Some example_url) no_handlers
           "/srv" pet_twice_flat [definitions_warning] pet_twice_state).
  - vm_compute. reflexivity.
  - apply list_elem_of_In. vm_compute. left. reflexivity.
Defined.


(** X13: no placeholder is left.  When [flattened_spec] returns, no
    entry of a table is the placeholder that [descend] stores to stop
    the recursion, and so no value of a bucket of the returned document
    is: each table that is not empty is a bucket of the returned
    document whose values are all different from the placeholder. *)
Theorem flattened_no_placeholder fuel spec spec_resolver spec_url handlers marshal_fn
    r ws st :
  flattened_spec fuel spec spec_resolver spec_url handlers marshal_fn = (Done r, ws, st) ->
  (forall mapping_key uri, entry mapping_key uri st <> Some (Leaf SNull))
  /\ forall mapping_key (mappings : table),
       dict_get mapping_key (known_mappings st) = Some mappings -> mappings <> [] ->
       exists bucket,
         node_get mapping_key r = Some (Mapping bucket)
         /\ forall key v, dict_get key bucket = Some v -> v <> Leaf SNull.
Proof.
  intros H.
  destruct (flattened_spec_facts _ _ _ _ _ _ _ _ _ H)
    as (resolved & Hm & Hh & Hn & _ & _ & _ & Hp).
  assert (Hentries : forall mk u, entry mk u st <> Some (Leaf SNull)).
  { intros mk u Hnull. apply Hp in Hnull. rewrite entry_initial in Hnull. discriminate. }
  split; [exact Hentries|]. intros mk t Hget Hne.
  pose proof (dict_get_some_in _ _ _ Hget) as Hin.
  destruct (merge_buckets_installed _ _ _ _ _ _ (holders_fixed_NoDup _ Hh) Hm
              mk t Hin Hne) as (items & Hitems & Hnode).
  exists (dict_of_items items). split; [assumption|].
  intros key v Hv ->. apply dict_get_some_in, dict_of_items_in in Hv.
  destruct (marshal_items_in _ _ _ _ _ Hitems Hv) as (u & Hu & _).
  apply (Hentries mk u).
  eapply entry_of_member; eauto using holders_fixed_NoDup.
Qed.

Lemma flattened_no_placeholder_witness :
  (forall mapping_key uri, entry mapping_key uri pet_twice_state <> Some (Leaf SNull))
  /\ forall mapping_key (mappings : table),
       dict_get mapping_key (known_mappings pet_twice_state) = Some mappings ->
       mappings <> [] ->
       exists bucket,
         node_get mapping_key pet_twice_flat = Some (Mapping bucket)
         /\ forall key v, dict_get key bucket = Some v -> v <> Leaf SNull.
Proof.
  apply (flattened_no_placeholder 6 pet_twice None (Some example_url) no_handlers
           (_marshal_uri "/srv") pet_twice_flat [definitions_warning] pet_twice_state).
  vm_compute. reflexivity.
Defined.

Lemma dict_set_new {K V} `{EqDecision K} (k : K) (v : V) (d : list (K * V)) :
  k ∉ dict_keys d -> dict_set k v d = d ++ [(k, v)].
Proof.
  unfold dict_keys. induction d as [|[k0 v0] d IH]; intros Hk; [reflexivity|].
  cbn [List.map fst] in Hk. apply not_elem_of_cons in Hk as [Hne Hk].
  cbn [dict_set]. rewrite decide_False by assumption. cbn. now rewrite IH.
Qed.

(** a dict built from pairs with distinct keys is the list of the pairs *)
Lemma fold_dict_set_distinct {K V} `{EqDecision K} (items acc : list (K * V)) :
  NoDup (dict_keys (acc ++ items)) ->
  fold_left (fun acc kv => dict_set (fst kv) (snd kv) acc) items acc = acc ++ items.
Proof.
  revert acc. induction items as [|[k v] items IH]; intros acc Hnd.
  { now rewrite app_nil_r. }
  cbn [fold_left fst snd].
  assert (Hk : k ∉ dict_keys acc).
  { unfold dict_keys in *. rewrite List.map_app in Hnd.
    apply NoDup_app in Hnd as (_ & Hdisj & _). intros Hin.
    apply (Hdisj k Hin). left. }
  rewrite (dict_set_new _ _ _ Hk), IH; [now rewrite <- app_assoc|].
  now rewrite <- app_assoc.
Qed.

Lemma dict_of_items_distinct {K V} `{EqDecision K} (items : list (K * V)) :
  NoDup (dict_keys items) -> dict_of_items items = items.
Proof. intros Hnd. now apply (fold_dict_set_distinct items []). Qed.

(** X14: a table that is not empty replaces what the document had under
    the name of its holder.  When [flattened_spec] returns, the returned
    document maps the name of each holder whose table is not empty to
    the bucket made of the table: the dict built from the entries of the
    table in their order, each under the marshaled key of its location.
    When the marshaled keys are distinct the bucket has one entry for
    each location, in the order of the table. *)
Theorem flattened_buckets_installed fuel spec spec_resolver spec_url handlers marshal_fn
    r ws st :
  flattened_spec fuel spec spec_resolver spec_url handlers marshal_fn = (Done r, ws, st) ->
  forall mapping_key (mappings : table),
    dict_get mapping_key (known_mappings st) = Some mappings -> mappings <> [] ->
    exists items,
      marshal_items (fun uri => marshal_fn uri (origin_of spec_url)) mappings = Ok items
      /\ node_get mapping_key r = Some (Mapping (dict_of_items items))
      /\ List.map snd items = List.map snd mappings
      /\ (NoDup (dict_keys items) -> dict_of_items items = items).
Proof.
  intros H mk t Hget Hne.
  destruct (flattened_spec_facts _ _ _ _ _ _ _ _ _ H)
    as (resolved & Hm & Hh & _).
  destruct (merge_buckets_installed _ _ _ _ _ _ (holders_fixed_NoDup _ Hh) Hm mk t
              (dict_get_some_in _ _ _ Hget) Hne) as (items & Hitems & Hnode).
  exists items. split; [assumption|]. split; [assumption|].
  split; [|apply dict_of_items_distinct].
  clear -Hitems. revert items Hitems.
  induction t as [|[u v] t IH]; intros items Hitems.
  - inversion Hitems. reflexivity.
  - apply marshal_items_cons in Hitems as (k & rest & _ & Hrest & ->).
    cbn. f_equal. now apply IH.
Qed.

Lemma flattened_buckets_installed_witness :
  exists items,
    marshal_items (fun uri => _marshal_uri "/srv" uri (origin_of (Some example_url)))
      [(pet_location, pet_schema)] = Ok items
    /\ node_get "definitions"
         (Mapping [("definitions",
                    Mapping [("lfile:a.json|..definitions..Pet", pet_schema)])])
       = Some (Mapping (dict_of_items items))
    /\ List.map snd items = List.map snd [(pet_location, pet_schema)]
    /\ (NoDup (dict_keys items) -> dict_of_items items = items).
Proof.
  apply (flattened_buckets_installed 5 example_spec None (Some example_url) no_handlers
           (_marshal_uri "/srv") _ [definitions_warning] example_final_state
           (example_run_value "/srv" 0) "definitions");
    [reflexivity|discriminate].
Defined.

Lemma added_holders_set mk bucket items km :
  mk ∉ dict_keys km ->
  added_holders (dict_set mk bucket items) km = added_holders items km.
Proof.
  intros Hfresh. unfold added_holders. f_equal. apply List.filter_ext_in.
  intros [k t] Hin. cbn [fst snd]. f_equal. f_equal.
  apply dict_mem_set_other. intros ->. apply Hfresh.
  apply list_elem_of_In in Hin. apply (list_elem_of_fmap_2 fst) in Hin. exact Hin.
Qed.

(** the keys of the returned document *)
Lemma merge_buckets_keys marshal_uri km :
  forall items warned r ws,
    NoDup (dict_keys km) ->
    merge_buckets marshal_uri km (Mapping items) warned = Ok (r, ws) ->
    exists items',
      r = Mapping items' /\ dict_keys items' = dict_keys items ++ added_holders items km.
Proof.
  induction km as [|[mk0 t0] km IH]; intros items warned r ws Hnd H.
  { inversion H; subst. exists items. split; [reflexivity|].
    unfold added_holders. cbn. now rewrite app_nil_r. }
  apply merge_buckets_step in H as (ws1 & resolved1 & _ & Hrest & Hstep).
  unfold dict_keys in Hnd. cbn [List.map fst] in Hnd.
  apply NoDup_cons in Hnd as [Hfresh Hnd].
  destruct Hstep as [[-> ->]|(Hne & bucket & items0 & _ & E & ->)].
  - destruct (IH _ _ _ _ Hnd Hrest) as (items' & -> & Hkeys).
    exists items'. split; [reflexivity|]. rewrite Hkeys.
    unfold added_holders. cbn [List.filter snd fst List.length Nat.ltb Nat.leb].
    now rewrite andb_false_r.
  - inversion E; subst items0. clear E.
    destruct (IH _ _ _ _ Hnd Hrest) as (items' & -> & Hkeys).
    exists items'. split; [reflexivity|]. rewrite Hkeys.
    rewrite (added_holders_set _ _ _ _ Hfresh).
    assert (Hlen : (0 <? List.length t0)%nat = true)
      by (destruct t0; [congruence|reflexivity]).
    unfold added_holders at 2. cbn [List.filter fst snd]. rewrite Hlen, andb_true_r.
    destruct (dict_mem mk0 items) eqn:Hmem; cbn [negb].
    + now rewrite dict_keys_set_known.
    + rewrite dict_keys_set_new by assumption. cbn [List.map fst].
      now rewrite <- app_assoc.
Qed.

(** X15: the keys of the returned document.  For a root mapping that is
    no reference, the returned document is a mapping with the keys of
    the root, in their order, followed by the names of the holders whose
    table is not empty and whose name was no key of the root, in the
    order [parameters], [responses], [definitions]. *)
Theorem flattened_top_level_keys fuel items spec_resolver spec_url handlers marshal_fn
    r ws st :
  flattened_spec fuel (Mapping items) spec_resolver spec_url handlers marshal_fn
  = (Done r, ws, st) ->
  ref_target (Mapping items) = None ->
  dict_keys (known_mappings st) = holder_names
  /\ exists items',
       r = Mapping items'
       /\ dict_keys items' = dict_keys items ++ added_holders items (known_mappings st).
Proof.
  intros H Href.
  destruct (flattened_spec_facts _ _ _ _ _ _ _ _ _ H)
    as (resolved & Hm & Hh & _ & _ & _ & Hkind & _).
  split; [exact Hh|].
  destruct Hkind as (items1 & -> & Hkeys). destruct (Hkeys Href) as [Hk _].
  destruct (merge_buckets_keys _ _ _ _ _ _ (holders_fixed_NoDup _ Hh) Hm)
    as (items' & -> & Hkeys').
  exists items'. split; [reflexivity|]. rewrite Hkeys', Hk. f_equal.
  unfold added_holders. f_equal. apply List.filter_ext. intros [k t]. cbn [fst snd].
  f_equal. f_equal. now apply Refinement.dict_mem_by_keys.
Qed.

Lemma flattened_top_level_keys_witness :
  dict_keys (known_mappings clash_tables) = holder_names
  /\ exists items',
       clash_flat = Mapping items'
       /\ dict_keys items'
          = dict_keys clash_items
            ++ added_holders clash_items (known_mappings clash_tables).
Proof.
  apply (flattened_top_level_keys 5 clash_items
           (Some (mkResolver "" clash_values_resolve)) None no_handlers
           (_marshal_uri "/srv") clash_flat clash_warnings clash_tables);
    vm_compute; reflexivity.
Defined.

(** the keys of the witness: the bucket of [definitions] is a new key *)
Example clash_flat_keys :
  dict_keys clash_items ++ added_holders clash_items (known_mappings clash_tables)
  = ["a"; "b"; "definitions"].
Proof. vm_compute. reflexivity. Qed.

(** the warnings filed before the last loop come first *)
Lemma merge_buckets_warned marshal_uri km :
  forall resolved warned,
    merge_buckets marshal_uri km resolved warned
    = match merge_buckets marshal_uri km resolved [] with
      | Ok (r, ws) => Ok (r, warned ++ ws)
      | Raise e => Raise e
      end.
Proof.
  induction km as [|[mk t] km IH]; intros resolved warned.
  { cbn. now rewrite app_nil_r. }
  cbn [merge_buckets].
  destruct (_warn_if_uri_clash_on_same_marshaled_representation t marshal_uri)
    as [ws1|e]; [|reflexivity]. cbn.
  match goal with
  | |- context [mbind _ ?x] => destruct x as [resolved1|e]; [|reflexivity]
  end.
  cbn. rewrite (IH resolved1 (warned ++ ws1)), (IH resolved1 ws1).
  destruct (merge_buckets marshal_uri km resolved1 []) as [[r ws]|e]; [|reflexivity].
  cbn. now rewrite app_assoc.
Qed.

(** the warnings of the last loop, table by table *)
Lemma merge_buckets_warnings marshal_uri km :
  forall resolved warned r ws,
    merge_buckets marshal_uri km resolved warned = Ok (r, ws) ->
    exists wss,
      Forall2 (fun (kt : string * table) w =>
                 _warn_if_uri_clash_on_same_marshaled_representation (snd kt) marshal_uri
                 = Ok w) km wss
      /\ ws = warned ++ concat wss.
Proof.
  induction km as [|[mk t] km IH]; intros resolved warned r ws H.
  { inversion H; subst. exists []. split; [constructor|]. cbn. now rewrite app_nil_r. }
  apply merge_buckets_step in H as (ws1 & resolved1 & Hw & Hrest & _).
  destruct (IH _ _ _ _ Hrest) as (wss & Hall & ->).
  exists (ws1 :: wss). split; [constructor; assumption|].
  cbn [concat]. now rewrite app_assoc.
Qed.

(** X16: the warnings of a call that returns.  First the warning about
    the origin, when no [spec_url] is given; then the warning about
    [spec_definitions]; then what the collision reporter files for the
    table of [parameters], for the table of [responses] and for the table
    of [definitions], in this order. *)
Theorem flattened_warnings fuel spec spec_resolver spec_url handlers marshal_fn r ws st :
  flattened_spec fuel spec spec_resolver spec_url handlers marshal_fn = (Done r, ws, st) ->
  let marshal_uri := fun uri => marshal_fn uri (origin_of spec_url) in
  exists wp wr wd,
    _warn_if_uri_clash_on_same_marshaled_representation
      (km_get "parameters" (known_mappings st)) marshal_uri = Ok wp
    /\ _warn_if_uri_clash_on_same_marshaled_representation
         (km_get "responses" (known_mappings st)) marshal_uri = Ok wr
    /\ _warn_if_uri_clash_on_same_marshaled_representation
         (km_get "definitions" (known_mappings st)) marshal_uri = Ok wd
    /\ ws = origin_warnings spec_url ++ [definitions_warning] ++ wp ++ wr ++ wd.
Proof.
  intros H marshal_uri.
  destruct (flattened_spec_facts _ _ _ _ _ _ _ _ _ H) as (resolved & Hm & Hh & _).
  fold marshal_uri in Hm.
  destruct (merge_buckets_warnings _ _ _ _ _ _ Hm) as (wss & Hall & ->).
  unfold holders_fixed, dict_keys in Hh.
  destruct (known_mappings st) as [|[k1 t1] [|[k2 t2] [|[k3 t3] [|? ?]]]];
    try discriminate.
  cbn in Hh. inversion Hh; subst k1 k2 k3.
  apply Forall2_cons_inv_l in Hall as (wp & wss1 & Hp & Hall & ->).
  apply Forall2_cons_inv_l in Hall as (wr & wss2 & Hr & Hall & ->).
  apply Forall2_cons_inv_l in Hall as (wd & wss3 & Hd & Hall & ->).
  apply Forall2_nil_inv_l in Hall as ->.
  exists wp, wr, wd. cbn [snd] in Hp, Hr, Hd.
  repeat split; try assumption.
  cbn [concat]. now rewrite app_nil_r, <- !app_assoc.
Qed.

Lemma flattened_warnings_witness :
  exists wp wr wd,
    _warn_if_uri_clash_on_same_marshaled_representation
      (km_get "parameters" (known_mappings pet_twice_state))
      (fun uri => _marshal_uri "/srv" uri (origin_of (Some example_url))) = Ok wp
    /\ _warn_if_uri_clash_on_same_marshaled_representation
         (km_get "responses" (known_mappings pet_twice_state))
         (fun uri => _marshal_uri "/srv" uri (origin_of (Some example_url))) = Ok wr
    /\ _warn_if_uri_clash_on_same_marshaled_representation
         (km_get "definitions" (known_mappings pet_twice_state))
         (fun uri => _marshal_uri "/srv" uri (origin_of (Some example_url))) = Ok wd
    /\ [definitions_warning]
       = origin_warnings (Some example_url) ++ [definitions_warning] ++ wp ++ wr ++ wd.
Proof.
  apply (flattened_warnings 6 pet_twice None (Some example_url) no_handlers
           (_marshal_uri "/srv") pet_twice_flat [definitions_warning] pet_twice_state).
  vm_compute. reflexivity.
Defined.

(** X17: an empty [spec_url] counts as none, but for the warning.
    Without a resolver, a call with no [spec_url] or with the empty string
    raises [ValueError] before anything is resolved, the warning about the
    origin being filed in the first case only.  With a resolver, the two
    calls end alike, with the same tables and the same keys (no origin is
    given to the marshaling function); the call with no [spec_url] files
    the warning about the origin first, the other call does not. *)
Theorem flattened_empty_url fuel spec handlers marshal_fn :
  (forall spec_url,
      spec_url = None \/ spec_url = Some "" ->
      flattened_spec fuel spec None spec_url handlers marshal_fn
      = (Raised (ValueError "spec_resolver or spec_url should be defined"),
         origin_warnings spec_url, initial_state))
  /\ forall rs,
       fst (fst (flattened_spec fuel spec (Some rs) None handlers marshal_fn))
       = fst (fst (flattened_spec fuel spec (Some rs) (Some "") handlers marshal_fn))
       /\ snd (flattened_spec fuel spec (Some rs) None handlers marshal_fn)
          = snd (flattened_spec fuel spec (Some rs) (Some "") handlers marshal_fn)
       /\ snd (fst (flattened_spec fuel spec (Some rs) None handlers marshal_fn))
          = origin_warning
            :: snd (fst (flattened_spec fuel spec (Some rs) (Some "") handlers
                           marshal_fn)).
Proof.
  split.
  - intros spec_url [->| ->]; reflexivity.
  - intros rs. unfold flattened_spec. cbn [PyStr.is_empty app].
    destruct (descend (resolve_in rs) (fun uri => marshal_fn uri None) fuel
                (resolution_scope rs) spec initial_state) as [[resolved|e|] st1];
      [|repeat split..].
    rewrite (merge_buckets_warned _ _ _ [origin_warning; definitions_warning]),
            (merge_buckets_warned _ _ _ [definitions_warning]).
    destruct (merge_buckets (fun uri => marshal_fn uri None) (known_mappings st1)
                resolved []) as [[r ws]|e]; repeat split.
Qed.

(** X18: what [descend] makes of a value, one level deep.  When it
    returns: a scalar is returned as it is; a list becomes a list of the
    same length; a mapping becomes a mapping, and when it is no reference
    the new mapping has the same keys in the same order and is again no
    reference. *)
Theorem descend_same_kind resolve marshal_uri fuel scope value st v' st' :
  descend resolve marshal_uri fuel scope value st = (Done v', st') ->
  match value with
  | Leaf s => v' = Leaf s
  | Sequence items =>
      exists items', v' = Sequence items' /\ List.length items' = List.length items
  | Mapping items =>
      exists items',
        v' = Mapping items'
        /\ (ref_target value = None ->
            dict_keys items' = dict_keys items /\ ref_target v' = None)
  end.
Proof.
  intros H. pose proof (descend_sound resolve marshal_uri fuel scope value st) as Hs.
  unfold ends_with in Hs. rewrite H in Hs. destruct Hs as [_ HD].
  exact (proj1 (HD v' eq_refl)).
Qed.

Lemma descend_same_kind_witness :
  exists items',
    Mapping [("paths", Mapping [("/pets", pets_item)]); ("x-paths", Mapping [("pets", pets_item)])]
    = Mapping items'
    /\ (ref_target path_item_doc = None ->
        dict_keys items' = ["paths"; "x-paths"]
        /\ ref_target
             (Mapping [("paths", Mapping [("/pets", pets_item)]);
                       ("x-paths", Mapping [("pets", pets_item)])]) = None).
Proof.
  apply (descend_same_kind pets_resolve plain_marshal 5 "" path_item_doc initial_state
           _ (mkState initial_known_mappings
                [Inlined "file:///specs/a.json#/x-paths/pets"])).
  vm_compute. reflexivity.
Defined.

(** X19: an entry of a table is written once.  A location that is in a
    table when a descent starts has the same value in the table when the
    descent ends, however it ends: only locations that are new are
    written. *)
Theorem descend_keeps_entries resolve marshal_uri fuel scope value st mapping_key uri :
  known_in mapping_key uri st ->
  entry mapping_key uri (snd (descend resolve marshal_uri fuel scope value st))
  = entry mapping_key uri st.
Proof.
  intros Hk. pose proof (descend_sound resolve marshal_uri fuel scope value st) as Hs.
  destruct Hs as [(_ & Hkept & _) _]. now apply Hkept.
Qed.

Lemma descend_keeps_entries_witness :
  entry "definitions" pet_location
    (snd (descend (resolve_in (default_resolver example_url pet_twice no_handlers))
            plain_marshal 6 example_url pet_twice pet_twice_state))
  = entry "definitions" pet_location pet_twice_state.
Proof. apply descend_keeps_entries. vm_compute. reflexivity. Defined.

(* ===================================================================== *)
(** * The last loop after a descent that returned *)
(* ===================================================================== *)

Section LastLoop.
Variable marshal_uri : ParseResult -> result string.

Abbreviation marshaled_ok t :=
  (forallb (fun uri => is_ok (marshal_uri uri)) (dict_keys (t : table)) = true).

Lemma reporter_returns (t : table) :
  marshaled_ok t ->
  exists ws, _warn_if_uri_clash_on_same_marshaled_representation t marshal_uri = Ok ws.
Proof.
  intros Hok. unfold _warn_if_uri_clash_on_same_marshaled_representation.
  pose proof (group_by_marshaled_is_ok marshal_uri (dict_keys t) []) as Hg.
  rewrite Hok in Hg.
  destruct (group_by_marshaled marshal_uri (dict_keys t) []) as [d|e]; [|discriminate].
  cbn. destruct (negb _); eauto.
Qed.

Lemma marshal_items_returns (t : table) :
  marshaled_ok t -> exists items, marshal_items marshal_uri t = Ok items.
Proof.
  induction t as [|[u v] t IH]; intros Hok; [now exists []|].
  unfold dict_keys in Hok. cbn [List.map fst forallb] in Hok.
  apply andb_prop in Hok as [Hu Ht]. destruct (IH Ht) as [rest Hrest].
  cbn [marshal_items]. destruct (marshal_uri u) as [key|e]; [|discriminate].
  cbn. rewrite Hrest. cbn. eauto.
Qed.

(** on a mapping the last loop returns *)
Lemma merge_buckets_returns km :
  (forall mk (t : table), (mk, t) ∈ km -> marshaled_ok t) ->
  forall items warned,
    exists r ws, merge_buckets marshal_uri km (Mapping items) warned = Ok (r, ws).
Proof.
  induction km as [|[mk t] km IH]; intros Hok items warned; [cbn; eauto|].
  assert (Ht : marshaled_ok t) by (apply (Hok mk); left).
  assert (Hkm : forall mk' (t' : table), (mk', t') ∈ km -> marshaled_ok t')
    by (intros mk' t' Hin; apply (Hok mk'); now right).
  cbn [merge_buckets]. destruct (reporter_returns t Ht) as [ws1 ->]. cbn.
  destruct t as [|entry0 t]; [cbn; now apply IH|].
  change (0 <? length (entry0 :: t))%nat with true. cbn iota.
  destruct (marshal_items_returns _ Ht) as [bucket ->]. cbn. now apply IH.
Qed.

(** on a list or a scalar the first bucket fails the update *)
Lemma merge_buckets_no_update km :
  (forall mk (t : table), (mk, t) ∈ km -> marshaled_ok t) ->
  (exists mk (t : table), (mk, t) ∈ km /\ t <> []) ->
  forall resolved warned,
    is_dict_like resolved = false ->
    exists msg, merge_buckets marshal_uri km resolved warned = Raise (AttributeError msg).
Proof.
  induction km as [|[mk t] km IH]; intros Hok (mk1 & t1 & Hin & Hne) resolved warned Hno.
  { inversion Hin. }
  assert (Ht : marshaled_ok t) by (apply (Hok mk); left).
  assert (Hkm : forall mk' (t' : table), (mk', t') ∈ km -> marshaled_ok t')
    by (intros mk' t' Hin'; apply (Hok mk'); now right).
  cbn [merge_buckets]. destruct (reporter_returns t Ht) as [ws1 ->]. cbn.
  destruct t as [|entry0 t].
  - cbn. apply IH; [assumption| |assumption].
    apply elem_of_cons in Hin as [E|Hin]; [inversion E; congruence|eauto].
  - change (0 <? length (entry0 :: t))%nat with true. cbn iota.
    destruct (marshal_items_returns _ Ht) as [bucket ->]. cbn.
    destruct resolved as [items|items|s]; [discriminate|cbn; eauto..].
Qed.

End LastLoop.

Lemma known_in_initial mk u : ~ known_in mk u initial_state.
Proof. intros H. apply known_in_entry in H. now rewrite entry_initial in H. Qed.

Lemma flattened_spec_with fuel spec spec_resolver spec_url handlers marshal_fn rs :
  resolver_used spec spec_resolver spec_url handlers rs ->
  flattened_spec fuel spec spec_resolver spec_url handlers marshal_fn
  = let marshal_uri := fun uri => marshal_fn uri (origin_of spec_url) in
    let w2 := origin_warnings spec_url ++ [definitions_warning] in
    match descend (resolve_in rs) marshal_uri fuel (resolution_scope rs) spec
            initial_state with
    | (Done resolved_spec, st) =>
        match merge_buckets marshal_uri (known_mappings st) resolved_spec w2 with
        | Ok (resolved_spec, ws) => (Done resolved_spec, ws, st)
        | Raise e => (Raised e, w2, st)
        end
    | (Raised e, st) => (Raised e, w2, st)
    | (OutOfFuel, st) => (OutOfFuel, w2, st)
    end.
Proof.
  unfold flattened_spec, resolver_used.
  destruct spec_resolver as [r0|]; [now intros ->|].
  intros (u & -> & Hu & ->). cbn [origin_of origin_warnings]. now rewrite Hu.
Qed.



(** X21: what the tables hold.  Every location a descent from the empty
    tables leaves in a table is the location some reference resolved to,
    and the table is the one of the holder the classifier gives to the
    value at that location; the value is no path item. *)
Theorem tables_hold_resolved resolve marshal_uri fuel scope root mapping_key uri :
  known_in mapping_key uri
    (snd (descend resolve marshal_uri fuel scope root initial_state)) ->
  exists scope' ref url deref_value object_type,
    resolve scope' ref = Ok (url, deref_value)
    /\ _determine_object_type deref_value = Ok object_type
    /\ object_type <> Some _TYPE_PATH_ITEM
    /\ mapping_key = holder_of object_type
    /\ uri = urlparse url.
Proof.
  intros Hk.
  exact (only_bucketed_kept resolve marshal_uri fuel scope root initial_state
           (initial_only_bucketed resolve) mapping_key uri Hk).
Qed.

Lemma tables_hold_resolved_witness :
  exists scope' ref url deref_value object_type,
    Heap.pet_resolve scope' ref = Ok (url, deref_value)
    /\ _determine_object_type deref_value = Ok object_type
    /\ object_type <> Some _TYPE_PATH_ITEM
    /\ "definitions" = holder_of object_type
    /\ pet_location = urlparse url.
Proof.
  apply (tables_hold_resolved Heap.pet_resolve plain_marshal 5 example_url example_spec).
  vm_compute. reflexivity.
Defined.

(* ===================================================================== *)
(** * Two locations under one key *)
(* ===================================================================== *)

Lemma dict_get_app {K V} `{EqDecision K} (k : K) (d1 d2 : list (K * V)) :
  dict_get k (d1 ++ d2)
  = match dict_get k d1 with Some v => Some v | None => dict_get k d2 end.
Proof.
  induction d1 as [|[k1 v1] d1 IH]; [reflexivity|]. cbn.
  destruct (decide (k = k1)); [reflexivity|exact IH].
Qed.

Lemma dict_get_set {K V} `{EqDecision K} (k k' : K) (v : V) (d : list (K * V)) :
  dict_get k' (dict_set k v d) = if decide (k' = k) then Some v else dict_get k' d.
Proof.
  destruct (decide (k' = k)) as [->|Hne];
    [apply dict_get_set_eq|now apply dict_get_set_ne].
Qed.

(** a dict built from pairs holds for a key the value of its last pair *)
Lemma fold_dict_set_get {K V} `{EqDecision K} (items acc : list (K * V)) (k : K) :
  dict_get k (fold_left (fun acc kv => dict_set (fst kv) (snd kv) acc) items acc)
  = match dict_get k (List.rev items) with
    | Some v => Some v
    | None => dict_get k acc
    end.
Proof.
  revert acc. induction items as [|[k0 v0] items IH]; intros acc; [reflexivity|].
  cbn [fold_left List.rev fst snd]. rewrite IH, dict_get_app, dict_get_set.
  destruct (dict_get k (List.rev items)); [reflexivity|]. cbn [dict_get].
  destruct (decide (k = k0)); reflexivity.
Qed.

Lemma dict_of_items_get {K V} `{EqDecision K} (items : list (K * V)) (k : K) :
  dict_get k (dict_of_items items) = dict_get k (List.rev items).
Proof.
  unfold dict_of_items, dict_update. rewrite fold_dict_set_get.
  now destruct (dict_get k (List.rev items)).
Qed.

(** X22: on a clash the later location wins.  When [flattened_spec]
    returns, the bucket of a table that is not empty gives, for a key,
    the value of the last entry of the table whose location has that
    marshaled key: the values of the earlier locations with the same key
    are not in the returned document. *)
Theorem flattened_clash_last_wins fuel spec spec_resolver spec_url handlers marshal_fn
    r ws st :
  flattened_spec fuel spec spec_resolver spec_url handlers marshal_fn = (Done r, ws, st) ->
  forall mapping_key (mappings : table),
    dict_get mapping_key (known_mappings st) = Some mappings -> mappings <> [] ->
    exists items bucket,
      marshal_items (fun uri => marshal_fn uri (origin_of spec_url)) mappings = Ok items
      /\ node_get mapping_key r = Some (Mapping bucket)
      /\ forall key, dict_get key bucket = dict_get key (List.rev items).
Proof.
  intros H mk t Hget Hne.
  destruct (flattened_spec_facts _ _ _ _ _ _ _ _ _ H) as (resolved & Hm & Hh & _).
  destruct (merge_buckets_installed _ _ _ _ _ _ (holders_fixed_NoDup _ Hh) Hm mk t
              (dict_get_some_in _ _ _ Hget) Hne) as (items & Hitems & Hnode).
  exists items, (dict_of_items items). split; [assumption|]. split; [assumption|].
  intros key. apply dict_of_items_get.
Qed.

Lemma flattened_clash_last_wins_witness :
  exists items bucket,
    marshal_items (fun uri => _marshal_uri "/srv" uri (origin_of None))
      (km_get "definitions" (known_mappings clash_tables)) = Ok items
    /\ node_get "definitions" clash_flat = Some (Mapping bucket)
    /\ forall key, dict_get key bucket = dict_get key (List.rev items).
Proof.
  apply (flattened_clash_last_wins 5 clash_doc
           (Some (mkResolver "" clash_values_resolve)) None no_handlers
           (_marshal_uri "/srv") clash_flat clash_warnings clash_tables);
    [vm_compute; reflexivity|vm_compute; reflexivity|discriminate].
Defined.

(** the run of the witness: two schemas, one key, the second schema in
    the bucket *)
Example clash_run_value :
  clash_run = (Done clash_flat, clash_warnings, clash_tables)
  /\ List.map snd (km_get "definitions" (known_mappings clash_tables))
     = [Mapping [("type", Leaf (SStr "string"))]; pet_schema]
  /\ node_get "definitions" clash_flat
     = Some (Mapping [("http:....h..a|b", pet_schema)]).
Proof. vm_compute. repeat split. Qed.
